(** * Background removal for watch photographs

    A shallow embedding of the segmentation pipeline of [script.js]
    (functions [processWatchImage], [addSample], [calculateAverageColor],
    [calculateColorVariance], [improvedWatchMask] and [floodFillHoles],
    lines 320-601), and the properties of its stages; then of the
    arithmetic of the hand tracker ([determineHandType],
    [determinePalmDirection], [getSmoothedPosition], [normalizeAngle], the
    position history and the readiness test of [detectWrist], the flip
    test of [drawWatch] and the zoom listeners).

    JavaScript numbers are IEEE-754 binary64 values: they are modelled by
    Rocq's primitive [float]s, whose operations are the same correctly
    rounded ones.  Loop counters and array indices, which the code only ever
    increments and multiplies within the size of the image, are integers
    ([Z]).  The pixel buffer is a [Uint8ClampedArray], modelled as a list of
    integers, and the working arrays are lists; a read outside an array is
    [undefined], which arithmetic turns into [NaN].  The queue loop of
    [floodFillHoles] is a recursion on fuel, together with the proof that
    the fuel it is given always suffices. *)

From Stdlib Require Import ZArith List Lia Bool Floats.
From stdpp Require Import base list gmap strings.

Set Warnings "-inexact-float,-clear-no-such-hyp".
Open Scope Z_scope.

(** ** JavaScript values and arrays *)

(** [a[i]]: reading outside the array yields [undefined] ([None]). *)
Definition js_get {A : Type} (a : list A) (i : Z) : option A :=
  if i <? 0 then None else a !! Z.to_nat i.

(** [a[i] = v].  A typed array ignores a store outside of it, exactly like
    [<[_:=_]>].  A plain array would grow instead, but the pipeline never
    stores past the end of one: [edgeMap], [colorDistMap] and [tempMask]
    have at least [width * height] cells and are written at the indices of
    interior pixels (lemmas [interior_index_range], [buildMask_covers]). *)
Definition js_set {A : Type} (a : list A) (i : Z) (v : A) : list A :=
  if i <? 0 then a else <[Z.to_nat i := v]> a.

(** An integer as a JavaScript number. *)
Definition fromZ (z : Z) : float := PrimFloat.of_uint63 (Uint63.of_Z z).

(** [ToNumber]: [undefined] becomes [NaN]. *)
Definition toNumber (v : option Z) : float :=
  match v with
  | Some z => fromZ z
  | None => nan
  end.

(** [data[i]] used as a number. *)
Definition chan (data : list Z) (i : Z) : float := toNumber (js_get data i).

(** A cell of a numeric working array used as a number. *)
Definition cell (a : list float) (i : Z) : float := default nan (js_get a i).

(** [mask[i] === v] *)
Definition label_is (mask : list Z) (i v : Z) : bool :=
  match js_get mask i with
  | Some u => u =? v
  | None => false
  end.

(** [Math.floor] of a finite number, as the integer it is.  (The one use,
    in [borderWidth], floors the product of an image side and 0.03.) *)
Definition Math_floor (f : float) : Z :=
  match Prim2SF f with
  | S754_finite s m e =>
      let v := if s then Zneg m else Zpos m in
      if 0 <=? e then v * 2 ^ e else v / 2 ^ (- e)
  | _ => 0
  end.

(** [Math.min], which is [NaN] if either argument is. *)
Definition Math_min (a b : float) : float :=
  if is_nan a || is_nan b then nan
  else if (b <? a)%float then b else a.

(** [a > b] on numbers. *)
Definition gt (a b : float) : bool := (b <? a)%float.

(** ** Border sampler and background statistics *)

Record Sample := mkSample { s_r : option Z; s_g : option Z; s_b : option Z }.

Record Color := mkColor { c_r : float; c_g : float; c_b : float }.

Definition addSample (samples : list Sample) (x y width : Z) (data : list Z)
  : list Sample :=
  let idx := (y * width + x) * 4 in
  samples ++ [mkSample (js_get data idx) (js_get data (idx + 1))
                       (js_get data (idx + 2))].

Definition borderWidth (width height : Z) : Z :=
  Z.max 10 (Math_floor (fromZ (Z.min width height) * 0.03)%float).

(** Lines 334-353 of [processWatchImage]. *)
Definition borderSamples (data : list Z) (width height : Z) : list Sample :=
  let bw := borderWidth width height in
  let topBottom :=
    foldl (fun samples x =>
             foldl (fun samples y =>
                      addSample (addSample samples x y width data)
                                x (height - y - 1) width data)
                   samples (seqZ 0 bw))
          [] (seqZ 0 width) in
  foldl (fun samples y =>
           foldl (fun samples x =>
                    addSample (addSample samples x y width data)
                              (width - x - 1) y width data)
                 samples (seqZ 0 bw))
        topBottom (seqZ bw (height - bw - bw)).

Definition calculateAverageColor (samples : list Sample) : Color :=
  match samples with
  | [] => mkColor 0 0 0
  | _ =>
      let n := fromZ (Z.of_nat (length samples)) in
      let '(r, g, b) :=
        foldl (fun '(r, g, b) s =>
                 ((r + toNumber (s_r s))%float,
                  (g + toNumber (s_g s))%float,
                  (b + toNumber (s_b s))%float))
              (0%float, 0%float, 0%float) samples in
      mkColor (r / n) (g / n) (b / n)
  end.

Definition calculateColorVariance (samples : list Sample) (avg : Color)
  : float :=
  if (Z.of_nat (length samples) <=? 1) then 0%float
  else
    let sumSquaredDiff :=
      foldl (fun acc s =>
               let dr := (toNumber (s_r s) - c_r avg)%float in
               let dg := (toNumber (s_g s) - c_g avg)%float in
               let db := (toNumber (s_b s) - c_b avg)%float in
               (acc + (dr * dr + dg * dg + db * db))%float)
            0%float samples in
    (sumSquaredDiff / fromZ (Z.of_nat (length samples)))%float.

Definition baseThreshold : float := 32%float.

Definition adaptiveThreshold (colorVariance : float) : float :=
  (baseThreshold + sqrt colorVariance * 0.7)%float.

(** ** Mask builder (lines 429-495 of [improvedWatchMask]) *)

Definition sobelX : list float := [-1; 0; 1; -2; 0; 2; -1; 0; 1]%float.
Definition sobelY : list float := [-1; -2; -1; 0; 0; 0; 1; 2; 1]%float.

Definition isGoldLike (r g b : float) : bool :=
  gt r 180 && gt g 140 && gt r (b + 30)%float.

(** The pixels visited by [for y in 1..height-2, for x in 1..width-2], in
    the order of the loops. *)
Definition interior (width height : Z) : list (Z * Z) :=
  y ← seqZ 1 (height - 2); x ← seqZ 1 (width - 2); [(x, y)].

Definition colorDist (data : list Z) (width : Z) (avgBg : Color) (x y : Z)
  : float :=
  let idx := (y * width + x) * 4 in
  let rDiff := (chan data idx - c_r avgBg)%float in
  let gDiff := (chan data (idx + 1) - c_g avgBg)%float in
  let bDiff := (chan data (idx + 2) - c_b avgBg)%float in
  let gold := isGoldLike (chan data idx) (chan data (idx + 1))
                         (chan data (idx + 2)) in
  let rWeight := if gold then 0.2%float else 0.3%float in
  let gWeight := if gold then 0.2%float else 0.59%float in
  let bWeight := if gold then 0.6%float else 0.11%float in
  sqrt (rDiff * rDiff * rWeight + gDiff * gDiff * gWeight
        + bDiff * bDiff * bWeight)%float.

Definition offsets : list Z := [-1; 0; 1].

Definition gradient (data : list Z) (width x y : Z) : float * float :=
  foldl (fun grad ky =>
           foldl (fun '(gradX, gradY) kx =>
                    let neighborIdx := ((y + ky) * width + (x + kx)) * 4 in
                    let kernelIdx := (ky + 1) * 3 + (kx + 1) in
                    let intensity :=
                      ((chan data neighborIdx + chan data (neighborIdx + 1)
                        + chan data (neighborIdx + 2)) / 3)%float in
                    ((gradX + intensity * cell sobelX kernelIdx)%float,
                     (gradY + intensity * cell sobelY kernelIdx)%float))
                 grad offsets)
        (0%float, 0%float) offsets.

Definition edgeMagnitude (data : list Z) (width x y : Z) : float :=
  let '(gradX, gradY) := gradient data width x y in
  sqrt (gradX * gradX + gradY * gradY)%float.

(** The first pair of loops: [edgeMap] and [colorDistMap]. *)
Definition fillMaps (data : list Z) (width height : Z) (avgBg : Color)
  : list float * list float :=
  foldl (fun '(edgeMap, colorDistMap) '(x, y) =>
           let pixelIndex := y * width + x in
           (js_set edgeMap pixelIndex (edgeMagnitude data width x y),
            js_set colorDistMap pixelIndex (colorDist data width avgBg x y)))
        (replicate (Z.to_nat (width * height)) 0%float,
         replicate (Z.to_nat (width * height)) 0%float)
        (interior width height).

Definition combinedMetric (edge dist : float) : float :=
  (dist + Math_min 255 edge / 255 * 80)%float.

(** The classification loop writes cells [0 .. width*height-1] of [mask];
    a longer array keeps its tail. *)
Definition buildMask (data : list Z) (width height : Z) (mask : list Z)
  (avgBg : Color) (threshold : float) : list Z :=
  let '(edgeMap, colorDistMap) := fillMaps data width height avgBg in
  map (fun i =>
         if gt (combinedMetric (cell edgeMap i) (cell colorDistMap i)) threshold
         then 1 else 0)
      (seqZ 0 (width * height))
  ++ drop (Z.to_nat (width * height)) mask.

(** ** Mask refiner (lines 497-541 of [improvedWatchMask]) *)

Definition hasNeighbor (mask : list Z) (width x y : Z) : bool :=
  existsb (fun ky =>
             existsb (fun kx => label_is mask ((y + ky) * width + (x + kx)) 1)
                     offsets)
          offsets.

Definition farFromBackground (r g b : float) (avgBg : Color) (threshold : float)
  : bool :=
  gt (abs (r - c_r avgBg)) (threshold / 2)
  || gt (abs (g - c_g avgBg)) (threshold / 2)
  || gt (abs (b - c_b avgBg)) (threshold / 2).

(** Whether the body of the dilation loop stores a 1 for pixel [(x, y)]. *)
Definition promotes (data : list Z) (width : Z) (mask : list Z) (avgBg : Color)
  (threshold : float) (x y : Z) : bool :=
  let idx := y * width + x in
  label_is mask idx 0
  && hasNeighbor mask width x y
  && (let dataIdx := idx * 4 in
      let r := chan data dataIdx in
      let g := chan data (dataIdx + 1) in
      let b := chan data (dataIdx + 2) in
      isGoldLike r g b || farFromBackground r g b avgBg threshold).

(** One iteration of the dilation loop: reads [mask], writes [tempMask]. *)
Definition dilateStep (data : list Z) (width : Z) (mask : list Z)
  (avgBg : Color) (threshold : float) (tempMask : list Z) (p : Z * Z)
  : list Z :=
  let '(x, y) := p in
  if promotes data width mask avgBg threshold x y
  then js_set tempMask (y * width + x) 1
  else tempMask.

(** The dilation loop over an arbitrary traversal of pixels. *)
Definition dilateOver (pixels : list (Z * Z)) (data : list Z) (width : Z)
  (mask : list Z) (avgBg : Color) (threshold : float) : list Z :=
  foldl (dilateStep data width mask avgBg threshold) mask pixels.

(** The pass as written: snapshot, row-major traversal, copy back. *)
Definition dilate (data : list Z) (width height : Z) (mask : list Z)
  (avgBg : Color) (threshold : float) : list Z :=
  dilateOver (interior width height) data width mask avgBg threshold.

(** ** Hole filler ([floodFillHoles], lines 548-601) *)

(** [visited] and [isBackground] are arrays of booleans that start all
    [false]; each is modelled by the set of indices that hold [true]. *)
Record Fill := mkFill {
  queue : list Z;
  visited : gset Z;
  isBackground : gset Z
}.

Definition mark (st : Fill) (i : Z) : Fill :=
  mkFill (queue st ++ [i]) ({[ i ]} ∪ visited st) ({[ i ]} ∪ isBackground st).

(** The two loops that enqueue the boundary pixels. *)
Definition seedBoundary (width height : Z) : Fill :=
  let rows :=
    foldl (fun st x => mark (mark st x) ((height - 1) * width + x))
          (mkFill [] ∅ ∅) (seqZ 0 width) in
  foldl (fun st y => mark (mark st (y * width)) (y * width + width - 1))
        rows (seqZ 1 (height - 2)).

Definition directions : list (Z * Z) := [(-1, 0); (1, 0); (0, -1); (0, 1)].

(** The body of [for (const [dx, dy] of directions)]. *)
Definition visit (mask : list Z) (width height x y : Z) (st : Fill)
  (d : Z * Z) : Fill :=
  let '(dx, dy) := d in
  let nx := x + dx in
  let ny := y + dy in
  if (0 <=? nx) && (nx <? width) && (0 <=? ny) && (ny <? height) then
    let neighborIdx := ny * width + nx in
    if negb (bool_decide (neighborIdx ∈ visited st))
       && label_is mask neighborIdx 0
    then mark st neighborIdx
    else st
  else st.

(** The [while (queue.length > 0)] loop; [None] when the fuel runs out. *)
Fixpoint flood (fuel : nat) (mask : list Z) (width height : Z) (st : Fill)
  : option Fill :=
  match queue st with
  | [] => Some st
  | pixel :: rest =>
      match fuel with
      | O => None
      | S fuel' =>
          let x := Z.rem pixel width in
          let y := pixel / width in
          flood fuel' mask width height
                (foldl (visit mask width height x y)
                       (mkFill rest (visited st) (isBackground st))
                       directions)
      end
  end.

(** Every iteration removes one entry of the queue and every entry was
    added for a cell that was not visited before: this many iterations
    always suffice (lemma [flood_terminates]). *)
Definition floodFuel (width height : Z) (st : Fill) : nat :=
  S (length (queue st) + 2 * Z.to_nat (width * height)).

Definition floodFill (mask : list Z) (width height : Z) : option Fill :=
  let st := seedBoundary width height in
  flood (floodFuel width height st) mask width height st.

(** The last loop: unmarked background cells become foreground. *)
Definition fillUnmarked (mask : list Z) (isBg : gset Z) : list Z :=
  imap (fun i v =>
          if (v =? 0) && negb (bool_decide (Z.of_nat i ∈ isBg)) then 1 else v)
       mask.

Definition floodFillHoles (mask : list Z) (width height : Z)
  : option (list Z) :=
  st ← floodFill mask width height;
  Some (fillUnmarked mask (isBackground st)).

Definition improvedWatchMask (data : list Z) (width height : Z)
  (mask : list Z) (avgBg : Color) (threshold : float) : option (list Z) :=
  let built := buildMask data width height mask avgBg threshold in
  let dilated := dilate data width height built avgBg threshold in
  floodFillHoles dilated width height.

(** ** Alpha compositor (lines 366-372) and the whole pipeline *)

Definition applyMask (data : list Z) (mask : list Z) : list Z :=
  foldl (fun data pixelIndex =>
           if label_is mask pixelIndex 0
           then js_set data (4 * pixelIndex + 3) 0
           else data)
        data (seqZ 0 ((Z.of_nat (length data) + 3) / 4)).

Definition backgroundOf (data : list Z) (width height : Z) : Color :=
  calculateAverageColor (borderSamples data width height).

Definition thresholdOf (data : list Z) (width height : Z) : float :=
  let samples := borderSamples data width height in
  adaptiveThreshold
    (calculateColorVariance samples (calculateAverageColor samples)).

(** [processWatchImage] on the decoded buffer: the new content of [data]. *)
Definition processWatchImage (data : list Z) (width height : Z)
  : option (list Z) :=
  let mask := replicate (Z.to_nat (width * height)) 0 in
  let avgBackground := backgroundOf data width height in
  let threshold := thresholdOf data width height in
  mask' ← improvedWatchMask data width height mask avgBackground threshold;
  Some (applyMask data mask').

(** ** Hand geometry ([determineHandType] and [determinePalmDirection],
    lines 219-278)

    [landmarks] is an array of points [[x, y, z]].  Reading a coordinate of
    a landmark that is not there throws a [TypeError] ([None]); a
    coordinate that is not there is [undefined], [NaN] in a comparison or
    in arithmetic. *)

Definition determineHandType (landmarks : list (list float)) : option string :=
  indexMCP ← js_get landmarks 5;
  pinkyMCP ← js_get landmarks 17;
  let isRightHand := (cell pinkyMCP 0 <? cell indexMCP 0)%float in
  Some (if isRightHand then "right" else "left").

Record Vector := mkVector { v_x : float; v_y : float; v_z : float }.

(** The last three statements of [determinePalmDirection]: the direction
    read off the depths, the one read off the palm normal, and their
    combination. *)
Definition combineDirections (zDifference : float) (palmNormal : Vector)
  : string :=
  let palmDirection := if (zDifference <? -0.02)%float then "down" else "up" in
  let normalBasedDirection := if gt (v_z palmNormal) 0 then "up" else "down" in
  if String.eqb palmDirection normalBasedDirection then palmDirection
  else if gt (abs zDifference) 0.03 then palmDirection
       else normalBasedDirection.

(** The depth of the finger bases relative to the wrist, and the normal of
    the palm. *)
Definition palmGeometry (wrist thumbCMC indexMCP middleMCP ringMCP
                         pinkyMCP : list float) : float * Vector :=
  let fingerBasesZ :=
    ((cell indexMCP 2 + cell middleMCP 2 + cell ringMCP 2 + cell pinkyMCP 2)
     / 4)%float in
  let wristZ := cell wrist 2 in
  let thumbZ := cell thumbCMC 2 in
  let wristToFingers :=
    mkVector
      ((cell indexMCP 0 + cell middleMCP 0 + cell ringMCP 0 + cell pinkyMCP 0)
       / 4 - cell wrist 0)%float
      ((cell indexMCP 1 + cell middleMCP 1 + cell ringMCP 1 + cell pinkyMCP 1)
       / 4 - cell wrist 1)%float
      (fingerBasesZ - wristZ)%float in
  let wristToThumb :=
    mkVector (cell thumbCMC 0 - cell wrist 0)%float
             (cell thumbCMC 1 - cell wrist 1)%float
             (thumbZ - wristZ)%float in
  let palmNormal :=
    mkVector
      (v_y wristToFingers * v_z wristToThumb
       - v_z wristToFingers * v_y wristToThumb)%float
      (v_z wristToFingers * v_x wristToThumb
       - v_x wristToFingers * v_z wristToThumb)%float
      (v_x wristToFingers * v_y wristToThumb
       - v_y wristToFingers * v_x wristToThumb)%float in
  let zDifference := (fingerBasesZ - wristZ)%float in
  (zDifference, palmNormal).

Definition determinePalmDirection (landmarks : list (list float))
  : option string :=
  wrist ← js_get landmarks 0;
  thumbCMC ← js_get landmarks 1;
  indexMCP ← js_get landmarks 5;
  middleMCP ← js_get landmarks 9;
  ringMCP ← js_get landmarks 13;
  pinkyMCP ← js_get landmarks 17;
  let '(zDifference, palmNormal) :=
    palmGeometry wrist thumbCMC indexMCP middleMCP ringMCP pinkyMCP in
  Some (combineDirections zDifference palmNormal).

(** ** The position history of [detectWrist] (lines 680-682) *)

Definition POSITION_HISTORY_LENGTH : Z := 5.

(** [lastFewPositions.push(p)], then [shift()] when the history is longer
    than [POSITION_HISTORY_LENGTH]. *)
Definition pushPosition {A : Type} (lastFewPositions : list A) (p : A)
  : list A :=
  let pushed := lastFewPositions ++ [p] in
  if Z.of_nat (length pushed) >? POSITION_HISTORY_LENGTH then tail pushed
  else pushed.

(** ** Drawing ([drawWristRegion], line 789; [drawWatch], lines 822-824) *)

(** [selectedHand] is [null] ([None]) until a hand is chosen. *)
Definition shouldFlip (selectedHand : option string) (orientation : string)
  : bool :=
  (bool_decide (selectedHand = Some "left")
   && String.eqb orientation "palm-down")
  || (bool_decide (selectedHand = Some "right")
      && String.eqb orientation "palm-up").

Definition strokeStyle (orientation : string) : string :=
  if String.eqb orientation "palm-up" then "#22c55e" else "#f59e0b".

(** ** Zoom (the [wheel] and [touchmove] listeners, lines 955-979) *)

(** [Math.max]: [NaN] if either argument is, and [+0] is larger than
    [-0]. *)
Definition Math_max (a b : float) : float :=
  if is_nan a || is_nan b then nan
  else if (a <? b)%float then b
  else if (b <? a)%float then a
  else match classify a with NZero => b | _ => a end.

(** The new [watchScale] after a wheel event. *)
Definition onWheel (deltaY watchScale : float) : float :=
  let zoomFactor := if gt deltaY 0 then 0.9%float else 1.1%float in
  Math_max 0.5 (Math_min 3.0 (watchScale * zoomFactor)).

(** The new [watchScale] after a move of two fingers that are
    [currentDistance] apart ([Math.hypot] of their offsets). *)
Definition onTouchMove (currentDistance touchStartDistance
                        touchStartScale : float) : float :=
  let scaleChange := (currentDistance / touchStartDistance)%float in
  Math_max 0.5 (Math_min 3.0 (touchStartScale * scaleChange)).

(** ** Angles ([normalizeAngle], lines 734-738) *)

Definition Math_PI : float := 3.141592653589793%float.

(** [while (angle > Math.PI) angle -= 2 * Math.PI]; [None] when the fuel
    runs out. *)
Fixpoint wrapDown (fuel : nat) (angle : float) : option float :=
  if gt angle Math_PI then
    match fuel with
    | O => None
    | S fuel' => wrapDown fuel' (angle - 2 * Math_PI)
    end
  else Some angle.

(** [while (angle < -Math.PI) angle += 2 * Math.PI] *)
Fixpoint wrapUp (fuel : nat) (angle : float) : option float :=
  if (angle <? - Math_PI)%float then
    match fuel with
    | O => None
    | S fuel' => wrapUp fuel' (angle + 2 * Math_PI)
    end
  else Some angle.

Definition normalizeAngle (fuel : nat) (angle : float) : option float :=
  angle' ← wrapDown fuel angle;
  wrapUp fuel angle'.

(** ** The readiness test of [detectWrist] (line 605) *)

Inductive JsValue :=
  | JsUndefined
  | JsNull
  | JsBoolean (b : bool)
  | JsNumber (n : float)
  | JsString (s : string)
  | JsObject (ref : Z).

Definition ToBoolean (v : JsValue) : bool :=
  match v with
  | JsUndefined | JsNull => false
  | JsBoolean b => b
  | JsNumber n => negb (is_zero n || is_nan n)
  | JsString s => match s with EmptyString => false | _ => true end
  | JsObject _ => true
  end.

(** [a === b] *)
Definition strictEquals (a b : JsValue) : bool :=
  match a, b with
  | JsUndefined, JsUndefined | JsNull, JsNull => true
  | JsBoolean x, JsBoolean y => Bool.eqb x y
  | JsNumber x, JsNumber y => (x =? y)%float
  | JsString x, JsString y => String.eqb x y
  | JsObject x, JsObject y => x =? y
  | _, _ => false
  end.

(** [!videoElement?.readyState === videoElement?.HAVE_ENOUGH_DATA || !model]:
    [!] binds tighter than [===]. *)
Definition notReady (readyState HAVE_ENOUGH_DATA model : JsValue) : bool :=
  strictEquals (JsBoolean (negb (ToBoolean readyState))) HAVE_ENOUGH_DATA
  || negb (ToBoolean model).

(** ** Smoothing ([getSmoothedPosition], lines 696-732) *)

Record Position := mkPosition {
  p_x : float;
  p_y : float;
  p_width : float;
  p_height : float;
  p_rotation : float;
  p_confidence : float;
  p_orientation : string
}.

(** The loop over [lastFewPositions], from index [i] on: [smoothed] and
    [totalWeight] when it ends.  [count] is [lastFewPositions.length]. *)
Fixpoint smoothOver (fuel : nat) (count i : Z) (positions : list Position)
  (smoothed : Position) (totalWeight : float) : option (Position * float) :=
  match positions with
  | [] => Some (smoothed, totalWeight)
  | pos :: rest =>
      let recencyWeight := (fromZ (i + 1) / fromZ count)%float in
      let confidenceWeight := p_confidence pos in
      let weight := (recencyWeight * confidenceWeight)%float in
      angleDiff ← normalizeAngle fuel (p_rotation pos - p_rotation smoothed);
      smoothOver fuel count (i + 1) rest
        (mkPosition (p_x smoothed + p_x pos * weight)
                    (p_y smoothed + p_y pos * weight)
                    (p_width smoothed + p_width pos * weight)
                    (p_height smoothed + p_height pos * weight)
                    (p_rotation smoothed + angleDiff * weight)
                    (p_confidence smoothed) (p_orientation smoothed))
        (totalWeight + weight)
  end.

Definition getSmoothedPosition (fuel : nat) (lastFewPositions : list Position)
  (currentPosition : Position) : option Position :=
  if Z.of_nat (length lastFewPositions) <? 2 then Some currentPosition
  else
    '(smoothed, totalWeight) ←
      smoothOver fuel (Z.of_nat (length lastFewPositions)) 0 lastFewPositions
        (mkPosition 0 0 0 0 0 (p_confidence currentPosition)
                    (p_orientation currentPosition))
        0;
    if gt totalWeight 0 then
      rotation ← normalizeAngle fuel (p_rotation smoothed / totalWeight);
      Some (mkPosition (p_x smoothed / totalWeight)
                       (p_y smoothed / totalWeight)
                       (p_width smoothed / totalWeight)
                       (p_height smoothed / totalWeight)
                       rotation
                       (p_confidence smoothed) (p_orientation smoothed))
    else Some smoothed.

(** ** Vocabulary of the specification *)

(** Pixel [(x, y)] lies in the image. *)
Definition inGrid (width height x y : Z) : Prop :=
  0 <= x < width /\ 0 <= y < height.

(** Pixel [(x, y)] lies on the outermost one-pixel ring. *)
Definition onRing (width height x y : Z) : Prop :=
  inGrid width height x y
  /\ (x = 0 \/ x = width - 1 \/ y = 0 \/ y = height - 1).

(** Pixel [(x, y)] is not on the ring: a 3x3 kernel fits around it. *)
Definition isInterior (width height x y : Z) : Prop :=
  1 <= x < width - 1 /\ 1 <= y < height - 1.

(** The label of pixel [(x, y)] in a row-major mask. *)
Definition labelAt (mask : list Z) (width x y : Z) : option Z :=
  js_get mask (y * width + x).

(** The alpha channel of pixel [(x, y)] in an RGBA buffer. *)
Definition alphaAt (data : list Z) (width x y : Z) : option Z :=
  js_get data (4 * (y * width + x) + 3).

Definition adjacent4 (x y x' y' : Z) : Prop :=
  (x' = x /\ (y' = y + 1 \/ y' = y - 1))
  \/ (y' = y /\ (x' = x + 1 \/ x' = x - 1)).

Definition adjacent8 (x y x' y' : Z) : Prop :=
  x - 1 <= x' <= x + 1 /\ y - 1 <= y' <= y + 1 /\ (x', y') <> (x, y).

(** What the flood fill of [floodFillHoles] reaches: every ring pixel is a
    seed, whatever its label, and the fill moves to 4-neighbours labeled
    background. *)
Inductive floodReach (mask : list Z) (width height : Z) : Z -> Z -> Prop :=
  | reach_ring x y :
      onRing width height x y -> floodReach mask width height x y
  | reach_next x y x' y' :
      floodReach mask width height x y ->
      adjacent4 x y x' y' ->
      inGrid width height x' y' ->
      labelAt mask width x' y' = Some 0 ->
      floodReach mask width height x' y'.

(** The flood fill of section 4.6 of the specification: only ring pixels
    labeled background are seeds. *)
Inductive backgroundReach (mask : list Z) (width height : Z)
  : Z -> Z -> Prop :=
  | bg_seed x y :
      onRing width height x y ->
      labelAt mask width x y = Some 0 ->
      backgroundReach mask width height x y
  | bg_next x y x' y' :
      backgroundReach mask width height x y ->
      adjacent4 x y x' y' ->
      inGrid width height x' y' ->
      labelAt mask width x' y' = Some 0 ->
      backgroundReach mask width height x' y'.

(** Pixel [(x, y)] lies in the band of thickness [borderWidth] that the
    border sampler reads. *)
Definition inBorderBand (width height x y : Z) : Prop :=
  let bw := borderWidth width height in
  inGrid width height x y
  /\ (y < bw \/ height - bw <= y \/ x < bw \/ width - bw <= x).

(** A decoded image: a buffer of [width * height] RGBA pixels. *)
Definition isImage (data : list Z) (width height : Z) : Prop :=
  0 < width /\ 0 < height
  /\ Z.of_nat (length data) = 4 * (width * height).

(** All the pixels of the image have colour [(r, g, b)]. *)
Definition uniform (data : list Z) (width height r g b : Z) : Prop :=
  forall x y, inGrid width height x y ->
    js_get data (4 * (y * width + x)) = Some r
    /\ js_get data (4 * (y * width + x) + 1) = Some g
    /\ js_get data (4 * (y * width + x) + 2) = Some b.

(** Two buffers with the same R, G and B bytes. *)
Definition sameColours (data data' : list Z) : Prop :=
  forall p c, 0 <= c < 3 -> js_get data' (p * 4 + c) = js_get data (p * 4 + c).

(** The hand seen in a mirror: every landmark with its [x] negated. *)
Definition mirror (landmarks : list (list float)) : list (list float) :=
  (fun landmark =>
     match landmark with
     | x :: rest => (- x)%float :: rest
     | [] => []
     end) <$> landmarks.

Definition otherHand (hand : string) : string :=
  if String.eqb hand "right" then "left" else "right".

Definition zoomRange (scale : float) : Prop :=
  (0.5 <=? scale)%float = true /\ (scale <=? 3)%float = true.

(** A position with finite coordinates and a rotation less than 8
    radians from zero. *)
Definition still (pos : Position) : Prop :=
  is_finite (p_x pos) = true /\ is_finite (p_y pos) = true
  /\ is_finite (p_width pos) = true /\ is_finite (p_height pos) = true
  /\ (-8 <? p_rotation pos)%float = true
  /\ (p_rotation pos <? 8)%float = true.

(** ** Arrays *)

Section Arrays.
Context {A : Type}.
Implicit Types (a : list A) (i j : Z) (v : A).

Lemma js_get_Some a i v :
  js_get a i = Some v <-> 0 <= i /\ a !! Z.to_nat i = Some v.
Proof.
  unfold js_get. destruct (Z.ltb_spec i 0); split; intros; try easy; lia.
Qed.

Lemma js_get_in_range a i :
  0 <= i < Z.of_nat (length a) -> exists v, js_get a i = Some v.
Proof.
  intros Hi. destruct (lookup_lt_is_Some_2 a (Z.to_nat i)) as [v Hv];
    [lia|].
  exists v. apply js_get_Some. split; [lia|easy].
Qed.

Lemma js_get_out_of_range a i :
  i < 0 \/ Z.of_nat (length a) <= i -> js_get a i = None.
Proof.
  intros Hi. unfold js_get. destruct (Z.ltb_spec i 0); [easy|].
  apply lookup_ge_None_2. lia.
Qed.

Lemma js_get_lt a i v :
  js_get a i = Some v -> 0 <= i < Z.of_nat (length a).
Proof.
  intros [Hi Hv]%js_get_Some. apply lookup_lt_Some in Hv. lia.
Qed.

Lemma length_js_set a i v : length (js_set a i v) = length a.
Proof.
  unfold js_set. destruct (i <? 0); [easy|]. apply length_insert.
Qed.

Lemma js_get_set_eq a i v :
  0 <= i < Z.of_nat (length a) -> js_get (js_set a i v) i = Some v.
Proof.
  intros Hi. unfold js_get, js_set.
  destruct (Z.ltb_spec i 0); [lia|].
  apply list_lookup_insert_eq. lia.
Qed.

Lemma js_get_set_ne a i j v :
  i <> j -> js_get (js_set a i v) j = js_get a j.
Proof.
  intros Hne. unfold js_get, js_set.
  destruct (Z.ltb_spec j 0); [easy|].
  destruct (Z.ltb_spec i 0); [easy|].
  apply list_lookup_insert_ne. lia.
Qed.

Lemma js_get_ext a a' :
  length a = length a' ->
  (forall i, 0 <= i < Z.of_nat (length a) -> js_get a i = js_get a' i) ->
  a = a'.
Proof.
  intros Hlen Hget. apply list_eq. intros n.
  destruct (decide (n < length a)%nat) as [Hn|Hn].
  - specialize (Hget (Z.of_nat n) ltac:(lia)). unfold js_get in Hget.
    destruct (Z.ltb_spec (Z.of_nat n) 0); [lia|].
    now rewrite Nat2Z.id in Hget.
  - rewrite !lookup_ge_None_2; [easy|lia|lia].
Qed.

(** A loop whose body conditionally stores into one array. *)
Section StoreLoop.
Context {P : Type} (cond : P -> bool) (ix : P -> Z) (val : P -> A).

Definition storeStep a (p : P) : list A :=
  if cond p then js_set a (ix p) (val p) else a.

Lemma length_storeLoop ps a :
  length (foldl storeStep a ps) = length a.
Proof.
  revert a. induction ps as [|p ps IH]; intros a; [easy|].
  cbn. rewrite IH. unfold storeStep.
  destruct (cond p); [apply length_js_set|easy].
Qed.

Lemma storeLoop_untouched ps a i :
  (forall p, p ∈ ps -> cond p = true -> ix p <> i) ->
  js_get (foldl storeStep a ps) i = js_get a i.
Proof.
  revert a. induction ps as [|p ps IH]; intros a Hno; [easy|].
  cbn. rewrite IH.
  - unfold storeStep. destruct (cond p) eqn:Hc; [|easy].
    apply js_get_set_ne. apply Hno; [left|easy].
  - intros q Hq. apply Hno. now right.
Qed.

Lemma storeLoop_stored ps a i v :
  0 <= i < Z.of_nat (length a) ->
  (exists p, p ∈ ps /\ cond p = true /\ ix p = i) ->
  (forall p, p ∈ ps -> cond p = true -> ix p = i -> val p = v) ->
  js_get (foldl storeStep a ps) i = Some v.
Proof.
  revert a. induction ps as [|p ps IH]; intros a Hi Hex Hval.
  - destruct Hex as (p & Hp & _). now apply elem_of_nil in Hp.
  - cbn.
    destruct (existsb (fun q => cond q && (ix q =? i)) ps) eqn:Hlater.
    + apply existsb_exists in Hlater as (q & Hq & Hcq).
      apply andb_true_iff in Hcq as [Hc Hix]. apply Z.eqb_eq in Hix.
      apply IH.
      * unfold storeStep. destruct (cond p);
          [rewrite length_js_set|]; easy.
      * exists q. split; [now apply list_elem_of_In|easy].
      * intros r Hr. apply Hval. now right.
    + rewrite storeLoop_untouched.
      * destruct Hex as (q & Hq & Hc & Hix).
        apply elem_of_cons in Hq as [->|Hq].
        -- unfold storeStep. rewrite Hc, Hix.
           rewrite js_get_set_eq by easy. f_equal.
           apply Hval; [left|easy|easy].
        -- exfalso.
           assert (existsb (fun q => cond q && (ix q =? i)) ps = true)
             as Habs; [|congruence].
           apply existsb_exists. exists q.
           split; [now apply list_elem_of_In|].
           rewrite Hc. now apply Z.eqb_eq.
      * intros q Hq Hc Hix.
        assert (existsb (fun q => cond q && (ix q =? i)) ps = true)
          as Habs; [|congruence].
        apply existsb_exists. exists q.
        split; [now apply list_elem_of_In|].
        rewrite Hc. now apply Z.eqb_eq.
Qed.
End StoreLoop.
End Arrays.

(** ** Alpha compositor *)

Lemma applyMask_storeLoop data mask :
  applyMask data mask
  = foldl (storeStep (fun k => label_is mask k 0) (fun k => 4 * k + 3)
                     (fun _ => 0))
          data (seqZ 0 ((Z.of_nat (length data) + 3) / 4)).
Proof. reflexivity. Qed.

Lemma length_applyMask data mask :
  length (applyMask data mask) = length data.
Proof. rewrite applyMask_storeLoop. apply length_storeLoop. Qed.

Lemma applyMask_colour data mask k c :
  0 <= c < 3 ->
  js_get (applyMask data mask) (4 * k + c) = js_get data (4 * k + c).
Proof.
  intros Hc. rewrite applyMask_storeLoop. apply storeLoop_untouched.
  intros k' _ _. lia.
Qed.

Lemma applyMask_alpha_background data mask k :
  0 <= k -> 4 * k + 3 < Z.of_nat (length data) ->
  js_get mask k = Some 0 ->
  js_get (applyMask data mask) (4 * k + 3) = Some 0.
Proof.
  intros Hk Hlen Hlabel. rewrite applyMask_storeLoop.
  apply storeLoop_stored; [lia| |easy].
  exists k. split; [|split; [|easy]].
  - apply elem_of_seqZ. split; [lia|].
    assert (4 * ((Z.of_nat (length data) + 3) / 4)
            > Z.of_nat (length data) + 3 - 4); [|lia].
    pose proof (Z.mul_div_le (Z.of_nat (length data) + 3) 4 ltac:(lia)).
    pose proof (Z.mod_pos_bound (Z.of_nat (length data) + 3) 4 ltac:(lia)).
    pose proof (Z.div_mod (Z.of_nat (length data) + 3) 4 ltac:(lia)). lia.
  - unfold label_is. now rewrite Hlabel.
Qed.

Lemma applyMask_alpha_foreground data mask k :
  js_get mask k <> Some 0 ->
  js_get (applyMask data mask) (4 * k + 3) = js_get data (4 * k + 3).
Proof.
  intros Hlabel. rewrite applyMask_storeLoop. apply storeLoop_untouched.
  intros k' _ Hc Hix. assert (k' = k) as -> by lia.
  unfold label_is in Hc. destruct (js_get mask k) as [u|]; [|easy].
  apply Z.eqb_eq in Hc. congruence.
Qed.

(** ** Mask refiner *)

Lemma elem_of_interior width height x y :
  (x, y) ∈ interior width height <-> isInterior width height x y.
Proof.
  unfold interior, isInterior. rewrite list_elem_of_bind. split.
  - intros (y' & Hx & Hy). apply list_elem_of_bind in Hx as (x' & Hp & Hx).
    apply list_elem_of_singleton in Hp. injection Hp as -> ->.
    apply elem_of_seqZ in Hx, Hy. lia.
  - intros [Hx Hy]. exists y. split; [|apply elem_of_seqZ; lia].
    apply list_elem_of_bind. exists x.
    split; [now apply list_elem_of_singleton|apply elem_of_seqZ; lia].
Qed.

Lemma interior_index_range width height x y :
  isInterior width height x y -> 0 <= y * width + x < width * height.
Proof. unfold isInterior. nia. Qed.

Lemma inGrid_index_range width height x y :
  inGrid width height x y -> 0 <= y * width + x < width * height.
Proof. unfold inGrid. nia. Qed.

Lemma inGrid_index_inj width height x y x' y' :
  inGrid width height x y -> inGrid width height x' y' ->
  y * width + x = y' * width + x' -> x = x' /\ y = y'.
Proof. unfold inGrid. intros Hp Hq Heq. assert (y = y') by nia. nia. Qed.

Lemma interior_inGrid width height x y :
  isInterior width height x y -> inGrid width height x y.
Proof. unfold isInterior, inGrid. lia. Qed.

Lemma dilateStep_storeStep data width mask avgBg threshold tempMask p :
  dilateStep data width mask avgBg threshold tempMask p
  = storeStep (fun '(x, y) => promotes data width mask avgBg threshold x y)
              (fun '(x, y) => y * width + x) (fun _ => 1) tempMask p.
Proof. now destruct p. Qed.

Lemma dilateOver_storeLoop pixels data width mask avgBg threshold :
  dilateOver pixels data width mask avgBg threshold
  = foldl (storeStep
             (fun '(x, y) => promotes data width mask avgBg threshold x y)
             (fun '(x, y) => y * width + x) (fun _ => 1))
          mask pixels.
Proof.
  unfold dilateOver. generalize mask at 2 4 as tempMask.
  induction pixels as [|p ps IH]; intros tempMask; [easy|].
  cbn. now rewrite IH, dilateStep_storeStep.
Qed.

Lemma length_dilate data width height mask avgBg threshold :
  length (dilate data width height mask avgBg threshold) = length mask.
Proof.
  unfold dilate. rewrite dilateOver_storeLoop. apply length_storeLoop.
Qed.

Lemma dilate_promoted data width height mask avgBg threshold x y :
  Z.of_nat (length mask) = width * height ->
  isInterior width height x y ->
  promotes data width mask avgBg threshold x y = true ->
  labelAt (dilate data width height mask avgBg threshold) width x y = Some 1.
Proof.
  intros Hlen Hint Hp. unfold labelAt, dilate.
  rewrite dilateOver_storeLoop. apply storeLoop_stored; [| |easy].
  - rewrite Hlen. now apply interior_index_range with (height := height).
  - exists (x, y). split; [now apply elem_of_interior|easy].
Qed.

Lemma dilate_kept data width height mask avgBg threshold x y :
  inGrid width height x y ->
  (isInterior width height x y ->
   promotes data width mask avgBg threshold x y = false) ->
  labelAt (dilate data width height mask avgBg threshold) width x y
  = labelAt mask width x y.
Proof.
  intros Hgrid Hno. unfold labelAt, dilate.
  rewrite dilateOver_storeLoop. apply storeLoop_untouched.
  intros [x' y'] Hin%elem_of_interior Hp Hix.
  destruct (inGrid_index_inj width height x' y' x y) as [-> ->];
    [now apply interior_inGrid|easy|easy|].
  rewrite Hno in Hp; easy.
Qed.

Lemma js_set_commute (a : list Z) i j v :
  js_set (js_set a i v) j v = js_set (js_set a j v) i v.
Proof.
  unfold js_set. destruct (i <? 0) eqn:Hi, (j <? 0) eqn:Hj; try easy.
  destruct (decide (Z.to_nat i = Z.to_nat j)) as [->|Hne]; [easy|].
  now apply list_insert_insert_ne.
Qed.

Lemma dilateOver_permutation pixels pixels' data width mask avgBg threshold :
  pixels ≡ₚ pixels' ->
  dilateOver pixels data width mask avgBg threshold
  = dilateOver pixels' data width mask avgBg threshold.
Proof.
  intros Hperm. unfold dilateOver. generalize mask at 2 4 as tempMask.
  induction Hperm as [|p ps ps' _ IH|p q ps|ps ps' ps'' _ IH1 _ IH2];
    intros tempMask; cbn.
  - easy.
  - apply IH.
  - f_equal. destruct p as [x y], q as [x' y']. cbn.
    destruct (promotes _ _ _ _ _ x y), (promotes _ _ _ _ _ x' y'); try easy.
    apply js_set_commute.
  - now rewrite IH1.
Qed.

Lemma hasNeighbor_spec mask width x y :
  labelAt mask width x y = Some 0 ->
  hasNeighbor mask width x y = true
  <-> exists x' y', adjacent8 x y x' y' /\ labelAt mask width x' y' = Some 1.
Proof.
  intros Hself. unfold hasNeighbor, labelAt in *. split.
  - intros (ky & Hky & (kx & Hkx & Hl)%existsb_exists)%existsb_exists.
    exists (x + kx), (y + ky). unfold label_is in Hl.
    destruct (js_get mask ((y + ky) * width + (x + kx))) as [u|] eqn:Hu;
      [|easy].
    apply Z.eqb_eq in Hl as ->. split; [|easy].
    unfold offsets in Hky, Hkx. cbn in Hky, Hkx.
    assert (kx = 0 /\ ky = 0 -> False) as Hne.
    { intros [-> ->]. rewrite !Z.add_0_r in Hu. congruence. }
    unfold adjacent8. repeat split; try lia.
    intros [= Hx Hy]. lia.
  - intros (x' & y' & (Hx & Hy & _) & Hl).
    apply existsb_exists. exists (y' - y). split.
    { unfold offsets. cbn. lia. }
    apply existsb_exists. exists (x' - x). split.
    { unfold offsets. cbn. lia. }
    unfold label_is.
    replace (y + (y' - y)) with y' by lia.
    replace (x + (x' - x)) with x' by lia. now rewrite Hl.
Qed.

Lemma promotes_spec data width mask avgBg threshold x y :
  let r := chan data ((y * width + x) * 4) in
  let g := chan data ((y * width + x) * 4 + 1) in
  let b := chan data ((y * width + x) * 4 + 2) in
  promotes data width mask avgBg threshold x y = true
  <-> labelAt mask width x y = Some 0
      /\ (exists x' y',
            adjacent8 x y x' y' /\ labelAt mask width x' y' = Some 1)
      /\ ((gt r 180 = true /\ gt g 140 = true /\ gt r (b + 30) = true)
          \/ gt (abs (r - c_r avgBg)) (threshold / 2) = true
          \/ gt (abs (g - c_g avgBg)) (threshold / 2) = true
          \/ gt (abs (b - c_b avgBg)) (threshold / 2) = true).
Proof.
  intros r g b. unfold promotes. fold r g b.
  assert (label_is mask (y * width + x) 0 = true
          <-> labelAt mask width x y = Some 0) as Hlabel.
  { unfold label_is, labelAt.
    destruct (js_get mask (y * width + x)) as [u|]; [|easy].
    rewrite Z.eqb_eq. split; congruence. }
  rewrite !andb_true_iff, Hlabel. unfold isGoldLike, farFromBackground.
  rewrite !orb_true_iff, !andb_true_iff. split.
  - intros [[H0 Hn] Hc]. apply hasNeighbor_spec in Hn; [|easy]. tauto.
  - intros (H0 & Hn & Hc). apply hasNeighbor_spec in Hn; [|easy]. tauto.
Qed.

(** ** Mask builder *)

Lemma fillMaps_storeLoops data width height avgBg :
  fillMaps data width height avgBg
  = (foldl (storeStep (fun _ => true) (fun '(x, y) => y * width + x)
                      (fun '(x, y) => edgeMagnitude data width x y))
           (replicate (Z.to_nat (width * height)) 0%float)
           (interior width height),
     foldl (storeStep (fun _ => true) (fun '(x, y) => y * width + x)
                      (fun '(x, y) => colorDist data width avgBg x y))
           (replicate (Z.to_nat (width * height)) 0%float)
           (interior width height)).
Proof.
  unfold fillMaps.
  generalize (replicate (Z.to_nat (width * height)) 0%float) at 1 3 as em.
  generalize (replicate (Z.to_nat (width * height)) 0%float) as cm.
  induction (interior width height) as [|[x y] ps IH]; intros cm em; [easy|].
  cbn. now rewrite IH.
Qed.

Lemma fillMaps_interior data width height avgBg x y :
  isInterior width height x y ->
  let '(edgeMap, colorDistMap) := fillMaps data width height avgBg in
  cell edgeMap (y * width + x) = edgeMagnitude data width x y
  /\ cell colorDistMap (y * width + x) = colorDist data width avgBg x y.
Proof.
  intros Hint. rewrite fillMaps_storeLoops. unfold cell.
  pose proof (interior_index_range _ _ _ _ Hint) as Hrange.
  split.
  all: erewrite storeLoop_stored; [reflexivity| | |].
  all: try (rewrite length_replicate; lia).
  all: try (exists (x, y); split; [now apply elem_of_interior|easy]).
  all: intros [x' y'] Hin%elem_of_interior _ Hix.
  all: destruct (inGrid_index_inj width height x' y' x y) as [-> ->];
    auto using interior_inGrid.
Qed.

Lemma fillMaps_ring data width height avgBg x y :
  onRing width height x y ->
  let '(edgeMap, colorDistMap) := fillMaps data width height avgBg in
  cell edgeMap (y * width + x) = 0%float
  /\ cell colorDistMap (y * width + x) = 0%float.
Proof.
  intros [Hgrid Hring]. rewrite fillMaps_storeLoops. unfold cell.
  pose proof (inGrid_index_range _ _ _ _ Hgrid) as Hrange.
  assert (js_get (replicate (Z.to_nat (width * height)) 0%float)
                 (y * width + x) = Some 0%float) as Hinit.
  { apply js_get_Some. split; [lia|].
    apply lookup_replicate_2. lia. }
  split.
  all: rewrite storeLoop_untouched; [now rewrite Hinit|].
  all: intros [x' y'] Hin%elem_of_interior _ Hix.
  all: destruct (inGrid_index_inj width height x' y' x y) as [-> ->];
    auto using interior_inGrid.
  all: unfold isInterior in Hin; lia.
Qed.

Lemma buildMask_label data width height mask avgBg threshold i :
  0 <= i < width * height ->
  let '(edgeMap, colorDistMap) := fillMaps data width height avgBg in
  js_get (buildMask data width height mask avgBg threshold) i
  = Some (if gt (combinedMetric (cell edgeMap i) (cell colorDistMap i))
                threshold
          then 1 else 0).
Proof.
  intros Hi. unfold buildMask.
  destruct (fillMaps data width height avgBg) as [edgeMap colorDistMap].
  apply js_get_Some. split; [lia|].
  rewrite lookup_app_l by (rewrite length_map, length_seqZ; lia).
  rewrite list_lookup_fmap, lookup_seqZ_lt by lia. cbn.
  now rewrite Z.add_0_l, Z2Nat.id by lia.
Qed.

Lemma buildMask_covers data width height mask avgBg threshold :
  0 <= width * height ->
  width * height
  <= Z.of_nat (length (buildMask data width height mask avgBg threshold)).
Proof.
  intros Hsize. unfold buildMask.
  destruct (fillMaps data width height avgBg) as [edgeMap colorDistMap].
  rewrite length_app, length_map, length_seqZ. lia.
Qed.

Lemma length_buildMask data width height mask avgBg threshold :
  Z.of_nat (length mask) = width * height ->
  length (buildMask data width height mask avgBg threshold) = length mask.
Proof.
  intros Hlen. unfold buildMask.
  destruct (fillMaps data width height avgBg) as [edgeMap colorDistMap].
  rewrite length_app, length_map, length_seqZ, length_drop. lia.
Qed.

(** ** Hole filler *)

Lemma floodReach_inGrid mask width height x y :
  floodReach mask width height x y -> inGrid width height x y.
Proof. intros [x0 y0 [Hg _]|]; easy. Qed.

Lemma backgroundReach_label mask width height x y :
  backgroundReach mask width height x y -> labelAt mask width x y = Some 0.
Proof. now intros []. Qed.

Lemma index_coords width height x y :
  inGrid width height x y ->
  Z.rem (y * width + x) width = x /\ (y * width + x) / width = y.
Proof.
  intros [Hx Hy]. rewrite Z.rem_mod_nonneg by nia. split.
  - rewrite Z.add_comm, Z.mod_add by lia. apply Z.mod_small. lia.
  - rewrite Z.add_comm, Z.div_add by lia. rewrite Z.div_small; lia.
Qed.

Lemma adjacent4_directions x y x' y' :
  adjacent4 x y x' y' <-> (x' - x, y' - y) ∈ directions.
Proof.
  unfold adjacent4, directions.
  rewrite !elem_of_cons, elem_of_nil. split.
  - intros [[-> [->| ->]]|[-> [->| ->]]].
    + right; right; right; left. f_equal; lia.
    + right; right; left. f_equal; lia.
    + right; left. f_equal; lia.
    + left. f_equal; lia.
  - intros [[=]|[[=]|[[=]|[[=]|[]]]]]; lia.
Qed.

Section FloodFill.
Variables (mask : list Z) (width height : Z).

Local Abbreviation idx x y := (y * width + x).

(** *** The loop exits *)

Definition cells : gset Z := list_to_set (seqZ 0 (width * height)).

Definition pending (st : Fill) : nat :=
  (length (queue st) + 2 * size (cells ∖ visited st))%nat.

Lemma size_cells : size cells = Z.to_nat (width * height).
Proof.
  unfold cells. rewrite size_list_to_set by apply NoDup_seqZ.
  apply length_seqZ.
Qed.

Lemma elem_of_cells p : p ∈ cells <-> 0 <= p < width * height.
Proof. unfold cells. rewrite elem_of_list_to_set, elem_of_seqZ. lia. Qed.

Lemma size_unvisited_mark (V : gset Z) p :
  p ∈ cells -> p ∉ V ->
  S (size (cells ∖ ({[ p ]} ∪ V))) = size (cells ∖ V).
Proof.
  intros Hp HV.
  assert (cells ∖ V = {[ p ]} ∪ cells ∖ ({[ p ]} ∪ V)) as ->.
  { apply set_eq. intros q. set_unfold.
    destruct (decide (q = p)); subst; tauto. }
  rewrite (size_union (C:=gset Z) {[ p ]}).
  - now rewrite size_singleton.
  - set_unfold. intros q -> [_ Hq]. tauto.
Qed.

Lemma pending_visit x y st d :
  (pending (visit mask width height x y st d) <= pending st)%nat.
Proof.
  destruct d as [dx dy]. unfold visit.
  destruct (_ && _ && _ && _) eqn:Hguard; [|easy].
  destruct (negb _ && _) eqn:Hnew; [|easy].
  apply andb_true_iff in Hnew as [Hnew _].
  apply negb_true_iff, bool_decide_eq_false in Hnew.
  repeat (apply andb_true_iff in Hguard as [Hguard ?]).
  unfold pending, mark. cbn [queue visited]. rewrite length_app. cbn.
  rewrite <- (size_unvisited_mark (visited st) (idx (x + dx) (y + dy)));
    [lia| |easy].
  apply elem_of_cells. nia.
Qed.

Lemma pending_visits x y ds st :
  (pending (foldl (visit mask width height x y) st ds) <= pending st)%nat.
Proof.
  revert st. induction ds as [|d ds IH]; intros st; [easy|].
  cbn. etrans; [apply IH|apply pending_visit].
Qed.

Lemma flood_done fuel st :
  queue st = [] -> flood fuel mask width height st = Some st.
Proof. intros Hq. destruct fuel; cbn; now rewrite Hq. Qed.

Lemma flood_step fuel st pixel rest :
  queue st = pixel :: rest ->
  flood (S fuel) mask width height st
  = flood fuel mask width height
          (foldl (visit mask width height (Z.rem pixel width)
                        (pixel / width))
                 (mkFill rest (visited st) (isBackground st)) directions).
Proof. intros Hq. cbn [flood]. now rewrite Hq. Qed.

Lemma flood_terminates fuel st :
  (pending st < fuel)%nat -> is_Some (flood fuel mask width height st).
Proof.
  revert st. induction fuel as [|fuel IH]; intros st Hfuel; [lia|].
  destruct (queue st) as [|pixel rest] eqn:Hq;
    [now rewrite flood_done|].
  rewrite (flood_step _ _ _ _ Hq). apply IH.
  eapply Nat.le_lt_trans; [apply pending_visits|].
  unfold pending in *. rewrite Hq in Hfuel. cbn in *. lia.
Qed.

Lemma floodFill_terminates : is_Some (floodFill mask width height).
Proof.
  apply flood_terminates. unfold floodFuel, pending.
  pose proof (subseteq_size
                (cells ∖ visited (seedBoundary width height)) cells
                ltac:(set_solver)).
  rewrite size_cells in *. lia.
Qed.

(** *** What one iteration does *)

Lemma visit_spec x y st dx dy :
  let st' := visit mask width height x y st (dx, dy) in
  let n := idx (x + dx) (y + dy) in
  let opens := inGrid width height (x + dx) (y + dy)
               /\ labelAt mask width (x + dx) (y + dy) = Some 0 in
  visited st ⊆ visited st'
  /\ (forall p, p ∈ queue st'
                <-> p ∈ queue st \/ (p ∈ visited st' /\ p ∉ visited st))
  /\ (isBackground st = visited st -> isBackground st' = visited st')
  /\ (forall p, p ∈ visited st' -> p ∈ visited st \/ (p = n /\ opens))
  /\ (opens -> n ∈ visited st').
Proof.
  intros st' n opens. subst st'. unfold visit. fold n.
  assert (label_is mask n 0 = true
          <-> labelAt mask width (x + dx) (y + dy) = Some 0) as Hlabel.
  { unfold label_is, labelAt. fold n.
    destruct (js_get mask n) as [u|]; [|easy].
    rewrite Z.eqb_eq. split; congruence. }
  destruct (_ && _ && _ && _) eqn:Hguard.
  - assert (inGrid width height (x + dx) (y + dy)) as Hgrid.
    { repeat (apply andb_true_iff in Hguard as [Hguard ?]).
      unfold inGrid. lia. }
    destruct (negb _ && _) eqn:Hnew.
    + apply andb_true_iff in Hnew as [Hnew Hl].
      apply negb_true_iff, bool_decide_eq_false in Hnew.
      apply Hlabel in Hl. unfold mark. cbn [queue visited isBackground].
      split; [apply union_subseteq_r|]. split.
      { intros p.
        rewrite elem_of_app, list_elem_of_singleton, elem_of_union,
          elem_of_singleton.
        split; [intros [? | ->]; tauto|tauto]. }
      split; [now intros ->|]. split.
      { intros p [->%elem_of_singleton|?]%elem_of_union;
          [now right|now left]. }
      intros _. apply elem_of_union. left. now apply elem_of_singleton.
    + split; [reflexivity|]. split; [intros p; tauto|]. split; [easy|].
      split; [intros p Hp; now left|].
      intros [_ Hl]. apply Hlabel in Hl. rewrite Hl, andb_true_r in Hnew.
      now apply negb_false_iff, bool_decide_eq_true in Hnew.
  - assert (~ inGrid width height (x + dx) (y + dy)) as Hout.
    { intros [? ?].
      assert ((0 <=? x + dx) && (x + dx <? width) && (0 <=? y + dy)
              && (y + dy <? height) = true) as Hin; [|congruence].
      rewrite !andb_true_iff. repeat split; lia. }
    split; [reflexivity|]. split; [intros p; tauto|]. split; [easy|].
    split; [intros p Hp; now left|]. now intros [? _].
Qed.

Lemma visits_spec x y ds st :
  let st' := foldl (visit mask width height x y) st ds in
  let opens dx dy := inGrid width height (x + dx) (y + dy)
                     /\ labelAt mask width (x + dx) (y + dy) = Some 0 in
  visited st ⊆ visited st'
  /\ (forall p, p ∈ queue st'
                <-> p ∈ queue st \/ (p ∈ visited st' /\ p ∉ visited st))
  /\ (isBackground st = visited st -> isBackground st' = visited st')
  /\ (forall p, p ∈ visited st' ->
        p ∈ visited st
        \/ exists dx dy, (dx, dy) ∈ ds /\ p = idx (x + dx) (y + dy)
                         /\ opens dx dy)
  /\ (forall dx dy, (dx, dy) ∈ ds -> opens dx dy ->
        idx (x + dx) (y + dy) ∈ visited st').
Proof.
  revert st. induction ds as [|[dx dy] ds IH]; intros st; cbn zeta.
  - cbn. repeat split; set_solver.
  - cbn [foldl].
    destruct (visit_spec x y st dx dy) as (Hm1 & Hq1 & Hb1 & Hs1 & Hc1).
    destruct (IH (visit mask width height x y st (dx, dy)))
      as (Hm2 & Hq2 & Hb2 & Hs2 & Hc2).
    cbn zeta in *. repeat split.
    + set_solver.
    + rewrite Hq2, Hq1. intros [[?|[? ?]]|[? ?]]; [tauto| |].
      * right. split; [set_solver|easy].
      * destruct (decide (p ∈ visited st)) as [Hin|Hin]; [|tauto].
        exfalso. set_solver.
    + rewrite Hq2, Hq1. intros [?|[Hp Hn]]; [tauto|].
      destruct (decide
        (p ∈ visited (visit mask width height x y st (dx, dy)))); tauto.
    + auto.
    + intros p [[? | [-> ?]]%Hs1 | (dx' & dy' & ? & ? & ?)]%Hs2.
      * now left.
      * right. exists dx, dy. split; [left|easy].
      * right. exists dx', dy'. split; [now right|easy].
    + intros dx' dy' [[= -> ->]|Hin]%elem_of_cons Hopen.
      * apply Hm2. now apply Hc1.
      * now apply Hc2.
Qed.
End FloodFill.

Section FloodFillCorrect.
Variables (mask : list Z) (width height : Z).
Hypothesis width_pos : 0 < width.
Hypothesis height_pos : 0 < height.

Local Abbreviation idx x y := (y * width + x).

(** *** The seeds are the ring *)

Lemma marks_spec (f g : Z -> Z) l st :
  let st' := foldl (fun st i => mark (mark st (f i)) (g i)) st l in
  (forall p, p ∈ visited st'
             <-> p ∈ visited st \/ exists i, i ∈ l /\ (p = f i \/ p = g i))
  /\ (forall p, p ∈ queue st'
                <-> p ∈ queue st \/ exists i, i ∈ l /\ (p = f i \/ p = g i))
  /\ (isBackground st = visited st -> isBackground st' = visited st').
Proof.
  revert st. induction l as [|i l IH]; intros st; cbn zeta.
  - cbn. repeat split; try tauto; try (now left).
    all: intros [? | (i & Hin & _)]; [easy|now apply elem_of_nil in Hin].
  - cbn [foldl]. destruct (IH (mark (mark st (f i)) (g i)))
      as (Hv & Hq & Hb). cbn zeta in *.
    split; [|split].
    + intros p. rewrite Hv. unfold mark. cbn [visited].
      rewrite !elem_of_union, !elem_of_singleton. split.
      * intros [[-> | [-> | ?]] | (j & ? & ?)].
        -- right. exists i. split; [left|tauto].
        -- right. exists i. split; [left|tauto].
        -- now left.
        -- right. exists j. split; [now right|easy].
      * intros [? | (j & [-> | ?]%elem_of_cons & ?)]; [tauto|tauto|].
        right. now exists j.
    + intros p. rewrite Hq. unfold mark. cbn [queue].
      rewrite !elem_of_app, !list_elem_of_singleton. split.
      * intros [[[? | ->] | ->] | (j & ? & ?)].
        -- now left.
        -- right. exists i. split; [left|tauto].
        -- right. exists i. split; [left|tauto].
        -- right. exists j. split; [now right|easy].
      * intros [? | (j & [-> | ?]%elem_of_cons & ?)]; [tauto|tauto|].
        right. now exists j.
    + intros Hsame. apply Hb. unfold mark. cbn [visited isBackground].
      now rewrite Hsame.
Qed.

Lemma seedBoundary_spec :
  let st := seedBoundary width height in
  isBackground st = visited st
  /\ (forall p, p ∈ queue st <-> p ∈ visited st)
  /\ (forall p, p ∈ visited st
                <-> exists x y, onRing width height x y /\ p = idx x y).
Proof.
  cbn zeta. unfold seedBoundary.
  set (rows := foldl _ (mkFill [] ∅ ∅) (seqZ 0 width)).
  destruct (marks_spec (fun x => x) (fun x => (height - 1) * width + x)
              (seqZ 0 width) (mkFill [] ∅ ∅)) as (Hv1 & Hq1 & Hb1).
  destruct (marks_spec (fun y => y * width)
              (fun y => y * width + width - 1)
              (seqZ 1 (height - 2)) rows) as (Hv2 & Hq2 & Hb2).
  cbn zeta in *. fold rows in Hv1, Hq1, Hb1.
  split; [now apply Hb2, Hb1|]. split.
  - intros p. rewrite Hq2, Hv2, Hq1, Hv1. cbn. set_solver.
  - intros p. rewrite Hv2, Hv1. cbn [visited]. split.
    + intros [[Hin | (x & Hx%elem_of_seqZ & Hp)] | (y & Hy%elem_of_seqZ & Hp)].
      * now apply elem_of_empty in Hin.
      * destruct Hp as [-> | ->].
        -- exists x, 0. unfold onRing, inGrid. split; [lia|lia].
        -- exists x, (height - 1). unfold onRing, inGrid.
           split; [lia|lia].
      * destruct Hp as [-> | ->].
        -- exists 0, y. unfold onRing, inGrid. split; [lia|lia].
        -- exists (width - 1), y. unfold onRing, inGrid.
           split; [lia|lia].
    + intros (x & y & [[Hx Hy] Hring] & ->).
      destruct (decide (y = 0)) as [->|Hy0].
      { left. right. exists x. split; [apply elem_of_seqZ; lia|].
        left. lia. }
      destruct (decide (y = height - 1)) as [->|Hy1].
      { left. right. exists x. split; [apply elem_of_seqZ; lia|].
        now right. }
      right. exists y. split; [apply elem_of_seqZ; lia|].
      destruct Hring as [->|[->|[?|?]]]; [left|right|lia|lia]; lia.
Qed.

(** *** The invariant of the loop *)

Record fillInv (st : Fill) : Prop := {
  inv_same : isBackground st = visited st;
  inv_queue : forall p, p ∈ queue st -> p ∈ visited st;
  inv_sound : forall p, p ∈ visited st ->
    exists x y, p = idx x y /\ floodReach mask width height x y;
  inv_ring : forall x y, onRing width height x y -> idx x y ∈ visited st;
  inv_closed : forall x y x' y',
    inGrid width height x y ->
    idx x y ∈ visited st -> idx x y ∉ queue st ->
    adjacent4 x y x' y' -> inGrid width height x' y' ->
    labelAt mask width x' y' = Some 0 ->
    idx x' y' ∈ visited st
}.

Lemma fillInv_seed : fillInv (seedBoundary width height).
Proof.
  destruct seedBoundary_spec as (Hb & Hq & Hv). cbn zeta in *. split.
  - easy.
  - intros p. apply Hq.
  - intros p (x & y & Hring & ->)%Hv. exists x, y.
    split; [easy|now apply reach_ring].
  - intros x y Hring. apply Hv. now exists x, y.
  - intros x y x' y' _ Hin Hnq. now apply Hq in Hin.
Qed.

Lemma fillInv_step st pixel rest :
  fillInv st -> queue st = pixel :: rest ->
  fillInv (foldl (visit mask width height (Z.rem pixel width)
                        (pixel / width))
                 (mkFill rest (visited st) (isBackground st)) directions).
Proof.
  intros [Hsame Hqueue Hsound Hring Hclosed] Hq.
  destruct (Hsound pixel) as (x0 & y0 & -> & Hreach).
  { apply Hqueue. rewrite Hq. left. }
  pose proof (floodReach_inGrid _ _ _ _ _ Hreach) as Hgrid0.
  destruct (index_coords _ _ _ _ Hgrid0) as [-> ->].
  destruct (visits_spec mask width height x0 y0 directions
              (mkFill rest (visited st) (isBackground st)))
    as (Hm & Hq' & Hb & Hs & Hc).
  cbn zeta in *. cbn [queue visited isBackground] in *.
  set (st' := foldl _ _ directions) in *. split.
  - now apply Hb.
  - intros p [Hp|[Hp _]]%Hq'; [|easy].
    apply Hm, Hqueue. rewrite Hq. now right.
  - intros p [Hp | (dx & dy & Hd & -> & Hgrid & Hlabel)]%Hs; [auto|].
    exists (x0 + dx), (y0 + dy). split; [easy|].
    apply reach_next with (x := x0) (y := y0); try easy.
    apply adjacent4_directions.
    now replace (x0 + dx - x0) with dx by lia;
      replace (y0 + dy - y0) with dy by lia.
  - intros x y Hr. now apply Hm, Hring.
  - intros x y x' y' Hgrid Hin Hnq Hadj Hgrid' Hlabel.
    assert (idx x y ∈ visited st) as HinV.
    { destruct (decide (idx x y ∈ visited st)) as [?|Hnot]; [easy|].
      exfalso. apply Hnq, Hq'. now right. }
    assert (idx x y ∉ rest) as Hrest.
    { intros Hr. apply Hnq, Hq'. now left. }
    destruct (decide (idx x y = idx x0 y0)) as [Heq|Hne].
    + destruct (inGrid_index_inj _ _ _ _ _ _ Hgrid Hgrid0 Heq) as [-> ->].
      apply adjacent4_directions in Hadj.
      specialize (Hc _ _ Hadj).
      replace (x0 + (x' - x0)) with x' in Hc by lia.
      replace (y0 + (y' - y0)) with y' in Hc by lia. now apply Hc.
    + apply Hm. apply Hclosed with (x := x) (y := y); try easy.
      rewrite Hq. intros [?|?]%elem_of_cons; auto.
Qed.

Lemma flood_inv fuel st st' :
  fillInv st -> flood fuel mask width height st = Some st' ->
  fillInv st' /\ queue st' = [].
Proof.
  revert st. induction fuel as [|fuel IH]; intros st Hinv Hrun.
  - cbn in Hrun. destruct (queue st) eqn:Hq; [|easy].
    now injection Hrun as <-.
  - destruct (queue st) as [|pixel rest] eqn:Hq.
    + rewrite flood_done in Hrun by easy. now injection Hrun as <-.
    + rewrite (flood_step _ _ _ _ _ _ _ Hq) in Hrun.
      eapply IH; [|exact Hrun]. now apply fillInv_step.
Qed.

(** *** The marked cells are the reached pixels *)

Lemma floodFill_marks :
  exists st,
    floodFill mask width height = Some st
    /\ forall p, p ∈ isBackground st
         <-> exists x y, p = idx x y /\ floodReach mask width height x y.
Proof.
  destruct (floodFill_terminates mask width height) as [st Hrun].
  exists st. split; [easy|].
  destruct (flood_inv _ _ _ fillInv_seed Hrun)
    as [[Hsame Hqueue Hsound Hring Hclosed] Hempty].
  intros p. rewrite Hsame. split; [apply Hsound|].
  intros (x & y & -> & Hreach).
  induction Hreach as [x y Hr|x y x' y' Hreach IH Hadj Hg Hl].
  - now apply Hring.
  - apply Hclosed with (x := x) (y := y); try easy.
    + now apply floodReach_inGrid in Hreach.
    + rewrite Hempty. apply not_elem_of_nil.
Qed.

Lemma floodReach_index x y x' y' :
  inGrid width height x y -> idx x y = idx x' y' ->
  floodReach mask width height x' y' -> floodReach mask width height x y.
Proof.
  intros Hgrid Heq Hreach.
  pose proof (floodReach_inGrid _ _ _ _ _ Hreach) as Hgrid'.
  now destruct (inGrid_index_inj _ _ _ _ _ _ Hgrid Hgrid' Heq) as [-> ->].
Qed.

Lemma fillUnmarked_label isBg i :
  js_get (fillUnmarked mask isBg) i
  = (fun v => if (v =? 0) && negb (bool_decide (i ∈ isBg)) then 1 else v)
      <$> js_get mask i.
Proof.
  unfold js_get, fillUnmarked. destruct (Z.ltb_spec i 0); [easy|].
  rewrite list_lookup_imap. now rewrite Z2Nat.id by lia.
Qed.

(** [floodFillHoles] returns, and its result is the input with the
    unreached background pixels relabeled. *)
Lemma floodFillHoles_spec :
  exists st,
    floodFill mask width height = Some st
    /\ floodFillHoles mask width height
       = Some (fillUnmarked mask (isBackground st))
    /\ (forall p, p ∈ isBackground st
          <-> exists x y, p = idx x y /\ floodReach mask width height x y)
    /\ forall x y, inGrid width height x y ->
         (labelAt mask width x y = Some 0 ->
          ~ floodReach mask width height x y ->
          labelAt (fillUnmarked mask (isBackground st)) width x y
          = Some 1)
         /\ (floodReach mask width height x y ->
             labelAt (fillUnmarked mask (isBackground st)) width x y
             = labelAt mask width x y)
         /\ (labelAt mask width x y <> Some 0 ->
             labelAt (fillUnmarked mask (isBackground st)) width x y
             = labelAt mask width x y).
Proof.
  destruct floodFill_marks as (st & Hrun & Hmarks). exists st.
  split; [easy|]. split; [unfold floodFillHoles; now rewrite Hrun|].
  split; [easy|].
  intros x y Hgrid.
  assert (idx x y ∈ isBackground st <-> floodReach mask width height x y)
    as Hmark.
  { rewrite Hmarks. split.
    - intros (x' & y' & Heq & Hreach). eauto using floodReach_index.
    - intros Hreach. now exists x, y. }
  unfold labelAt. rewrite fillUnmarked_label.
  destruct (js_get mask (idx x y)) as [v|]; cbn; [|easy].
  repeat split.
  - intros [= ->] Hno. cbn. rewrite bool_decide_eq_false_2; [easy|].
    now rewrite Hmark.
  - intros Hreach. rewrite bool_decide_eq_true_2 by now apply Hmark.
    now rewrite andb_false_r.
  - intros Hv. destruct (Z.eqb_spec v 0) as [->|?]; easy.
Qed.
End FloodFillCorrect.

Lemma floodReach_filled mask width height st x y :
  0 < width -> 0 < height ->
  (forall x y, inGrid width height x y ->
     floodReach mask width height x y ->
     labelAt (fillUnmarked mask (isBackground st)) width x y
     = labelAt mask width x y) ->
  floodReach mask width height x y ->
  floodReach (fillUnmarked mask (isBackground st)) width height x y.
Proof.
  intros Hw Hh Hkeep.
  induction 1 as [x y Hr|x y x' y' Hreach IH Hadj Hg Hl].
  - now apply reach_ring.
  - apply reach_next with (x := x) (y := y); try easy.
    rewrite Hkeep; [easy|easy|].
    now apply reach_next with (x := x) (y := y).
Qed.

(** With a ring that is all background, the seeds are the ones of the
    specification. *)
Lemma floodReach_backgroundReach mask width height x y :
  (forall x y, onRing width height x y -> labelAt mask width x y = Some 0) ->
  floodReach mask width height x y <-> backgroundReach mask width height x y.
Proof.
  intros Hring. split.
  - induction 1 as [x y Hr|x y x' y' _ IH Hadj Hg Hl].
    + apply bg_seed; [easy|now apply Hring].
    + now apply bg_next with (x := x) (y := y).
  - induction 1 as [x y Hr _|x y x' y' _ IH Hadj Hg Hl].
    + now apply reach_ring.
    + now apply reach_next with (x := x) (y := y).
Qed.

(** ** Numbers

    The operations of [float] are specified by their action on
    [spec_float], the sign-mantissa-exponent form of a binary64 number.
    This section derives from that specification the facts about numbers
    the pipeline relies on: sums and means of small integers are exact,
    [NaN] is absorbing, and the adaptive threshold is never negative. *)

(** *** Mantissas and their number of digits *)
Lemma digits2_pos_bounds (m : positive) :
  2 ^ (Z.pos (digits2_pos m) - 1) <= Z.pos m < 2 ^ Z.pos (digits2_pos m).
Proof.
  induction m as [m IH|m IH|]; cbn [digits2_pos].
  - rewrite Pos2Z.inj_succ.
    replace (Z.succ (Z.pos (digits2_pos m)) - 1) with (Z.succ (Z.pos (digits2_pos m) - 1)) by lia.
    rewrite !Z.pow_succ_r by lia. lia.
  - rewrite Pos2Z.inj_succ.
    replace (Z.succ (Z.pos (digits2_pos m)) - 1) with (Z.succ (Z.pos (digits2_pos m) - 1)) by lia.
    rewrite !Z.pow_succ_r by lia. lia.
  - cbn. lia.
Qed.

Lemma digits2_pos_unique (m : positive) (d : Z) :
  2 ^ (d - 1) <= Z.pos m < 2 ^ d -> Z.pos (digits2_pos m) = d.
Proof.
  intros [Hlo Hhi]. pose proof (digits2_pos_bounds m) as [Hlo' Hhi'].
  assert (0 < d).
  { destruct (Z.ltb_spec 0 d); [easy|]. 
    assert (2 ^ d <= 2 ^ 0) by (apply Z.pow_le_mono_r; lia). cbn in *. lia. }
  assert (d - 1 < Z.pos (digits2_pos m)).
  { apply (Z.pow_lt_mono_r_iff 2); lia. }
  assert (Z.pos (digits2_pos m) - 1 < d).
  { apply (Z.pow_lt_mono_r_iff 2); lia. }
  lia.
Qed.

Lemma iter_xO_value (m : positive) (p : positive) :
  Z.pos (Pos.iter xO m p) = Z.pos m * 2 ^ Z.pos p.
Proof.
  induction p as [|p IH] using Pos.peano_ind.
  - cbn. lia.
  - rewrite Pos.iter_succ, Pos2Z.inj_succ, Z.pow_succ_r by lia.
    rewrite Pos2Z.inj_xO, IH. lia.
Qed.

Lemma iter_pos_shr_1 (p m : positive) :
  SpecFloat.iter_pos shr_1 p
    (Build_shr_record (Z.pos (Pos.iter xO m p)) false false)
  = Build_shr_record (Z.pos m) false false.
Proof.
  revert m. induction p as [p IH|p IH|]; intros m; cbn [SpecFloat.iter_pos Pos.iter].
  - cbn [shr_1 orb]. now rewrite !IH.
  - now rewrite !IH.
  - reflexivity.
Qed.

Lemma fexp_normal (x : Z) : -1074 <= x - 53 -> fexp prec emax x = x - 53.
Proof. unfold fexp, SpecFloat.emin, prec, emax. lia. Qed.

Lemma shifted_digits (q M : positive) (t : Z) :
  Z.pos (digits2_pos M) = 53 -> 0 <= t -> Z.pos q = Z.pos M * 2 ^ t ->
  Z.pos (digits2_pos q) = 53 + t.
Proof.
  intros HM Ht Hq. apply digits2_pos_unique.
  pose proof (digits2_pos_bounds M) as [Hlo Hhi]. rewrite HM in Hlo, Hhi.
  replace (53 + t - 1) with (52 + t) by lia.
  rewrite Hq, !Z.pow_add_r by lia.
  assert (0 < 2 ^ t) by (apply Z.pow_pos_nonneg; lia).
  change (53 - 1) with 52 in Hlo. nia.
Qed.

Lemma binary_round_aux_exact (s : bool) (q M : positive) (t e : Z) :
  Z.pos (digits2_pos M) = 53 -> 0 <= t -> Z.pos q = Z.pos M * 2 ^ t ->
  -1074 <= e + t <= 971 ->
  binary_round_aux prec emax s (Z.pos q) e loc_Exact = S754_finite s M (e + t).
Proof.
  intros HM Ht Hq Hrange.
  pose proof (shifted_digits q M t HM Ht Hq) as Hdq.
  unfold binary_round_aux, shr_fexp. cbn [Zdigits2 shr_record_of_loc].
  rewrite Hdq, fexp_normal by lia.
  replace (53 + t + e - 53 - e) with t by lia.
  assert (shr (Build_shr_record (Z.pos q) false false) e t
          = (Build_shr_record (Z.pos M) false false, e + t)) as ->.
  { destruct t as [|p|p]; [| |lia].
    - cbn. rewrite Z.mul_1_r in Hq. injection Hq as ->. now rewrite Z.add_0_r.
    - cbn [shr]. rewrite <- iter_xO_value in Hq. injection Hq as ->.
      now rewrite iter_pos_shr_1. }
  cbn [shr_m loc_of_shr_record round_nearest_even Zdigits2 shr_record_of_loc].
  rewrite HM, fexp_normal by lia.
  replace (53 + (e + t) - 53 - (e + t)) with 0 by lia.
  cbn [shr shr_m].
  destruct (Z.leb_spec (e + t) (emax - prec)) as [_|Hbad]; [easy|].
  unfold emax, prec in Hbad. lia.
Qed.

Lemma binary_round_exact (s : bool) (q M : positive) (t e : Z) :
  Z.pos (digits2_pos M) = 53 ->
  (0 <= t /\ Z.pos q = Z.pos M * 2 ^ t)
  \/ (t < 0 /\ Z.pos M = Z.pos q * 2 ^ (- t)) ->
  -1074 <= e + t <= 971 ->
  binary_round prec emax s q e = S754_finite s M (e + t).
Proof.
  intros HM Hq Hrange. unfold binary_round.
  assert (Z.pos (digits2_pos q) = 53 + t) as Hdq.
  { destruct Hq as [[Ht Hq]|[Ht Hq]]; [now apply shifted_digits with M|].
    apply digits2_pos_unique.
    pose proof (digits2_pos_bounds M) as [Hlo Hhi]. rewrite HM in Hlo, Hhi.
    change (53 - 1) with 52 in Hlo. rewrite Hq in Hlo, Hhi.
    assert (0 < 2 ^ (- t)) as Hpos by (apply Z.pow_pos_nonneg; lia).
    assert (- t <= 52) as Hu.
    { destruct (Z.leb_spec (- t) 52); [easy|]. exfalso.
      assert (2 ^ 53 <= 2 ^ (- t)) by (apply Z.pow_le_mono_r; lia). nia. }
    assert (2 ^ 52 = 2 ^ (53 + t - 1) * 2 ^ (- t)) as H52.
    { rewrite <- Z.pow_add_r by lia. f_equal. lia. }
    assert (2 ^ 53 = 2 ^ (53 + t) * 2 ^ (- t)) as H53.
    { rewrite <- Z.pow_add_r by lia. f_equal. lia. }
    rewrite H52 in Hlo. rewrite H53 in Hhi.
    split.
    - apply (Z.mul_le_mono_pos_r _ _ (2 ^ (- t))); easy.
    - apply (Z.mul_lt_mono_pos_r (2 ^ (- t))); easy. }
  rewrite Hdq, fexp_normal by lia. unfold shl_align.
  replace (53 + t + e - 53 - e) with t by lia.
  destruct t as [|p|p]; cbv beta iota.
  - destruct Hq as [[Ht Hq]|[Ht Hq]]; [|lia].
    now apply binary_round_aux_exact.
  - destruct Hq as [[Ht Hq]|[Ht Hq]]; [|lia].
    now apply binary_round_aux_exact.
  - destruct Hq as [[Ht Hq]|[Ht Hq]]; [lia|].
    change (- Z.neg p) with (Z.pos p) in Hq.
    rewrite <- iter_xO_value in Hq. injection Hq as ->.
    rewrite (binary_round_aux_exact s _ (Pos.iter xO q p) 0);
      [f_equal; lia|easy|lia|lia|lia].
Qed.

(** The normal form of a positive integer below [2^53]. *)
Definition normalize (a : positive) : positive :=
  match (53 - Z.pos (digits2_pos a))%Z with
  | Z.pos p => Pos.iter xO a p
  | _ => a
  end.

Definition canon (a : positive) : spec_float :=
  S754_finite false (normalize a) (Z.pos (digits2_pos a) - 53).

Lemma normalize_value (a : positive) :
  Z.pos a < 2 ^ 53 ->
  Z.pos (digits2_pos a) <= 53
  /\ Z.pos (normalize a) = Z.pos a * 2 ^ (53 - Z.pos (digits2_pos a))
  /\ Z.pos (digits2_pos (normalize a)) = 53.
Proof.
  intros Ha. pose proof (digits2_pos_bounds a) as [Hlo Hhi].
  assert (Z.pos (digits2_pos a) <= 53) as Hd.
  { assert (Z.pos (digits2_pos a) - 1 < 53); [|lia].
    apply (Z.pow_lt_mono_r_iff 2); lia. }
  split; [easy|].
  assert (Z.pos (normalize a) = Z.pos a * 2 ^ (53 - Z.pos (digits2_pos a)))
    as Hv.
  { unfold normalize.
    destruct (53 - Z.pos (digits2_pos a)) as [|p|p] eqn:Hp; [|  |lia].
    - cbn. lia.
    - apply iter_xO_value. }
  split; [easy|].
  apply digits2_pos_unique. rewrite Hv.
  assert (0 < Z.pos (digits2_pos a)) as Hd0 by lia.
  set (d := Z.pos (digits2_pos a)) in *.
  assert (0 < 2 ^ (53 - d)) by (apply Z.pow_pos_nonneg; lia).
  assert (2 ^ (53 - 1) = 2 ^ (d - 1) * 2 ^ (53 - d)) as H52.
  { rewrite <- Z.pow_add_r by lia. f_equal. lia. }
  assert (2 ^ 53 = 2 ^ d * 2 ^ (53 - d)) as H53.
  { rewrite <- Z.pow_add_r by lia. f_equal. lia. }
  rewrite H52, H53. clear H52 H53 Ha.
  split.
  - apply Z.mul_le_mono_pos_r; [exact H|exact Hlo].
  - apply Z.mul_lt_mono_pos_r; [exact H|exact Hhi].
Qed.

Lemma binary_round_canon (s : bool) (q a : positive) (k : Z) :
  Z.pos a < 2 ^ 53 -> 0 <= k <= 200 -> Z.pos q = Z.pos a * 2 ^ k ->
  binary_round prec emax s q (- k)
  = S754_finite s (normalize a) (Z.pos (digits2_pos a) - 53).
Proof.
  intros Ha Hk Hq.
  destruct (normalize_value a Ha) as (Hd & Hv & Hn).
  assert (0 < Z.pos (digits2_pos a)) as Hd0 by lia.
  set (d := Z.pos (digits2_pos a)) in *.
  rewrite (binary_round_exact s q (normalize a) (k - (53 - d))).
  - f_equal. lia.
  - exact Hn.
  - destruct (Z.ltb_spec (k - (53 - d)) 0).
    + right. split; [assumption|]. rewrite Hv, Hq, <- Z.mul_assoc.
      rewrite <- Z.pow_add_r by lia. do 2 f_equal. lia.
    + left. split; [assumption|]. rewrite Hv, Hq, <- Z.mul_assoc.
      rewrite <- Z.pow_add_r by lia. do 2 f_equal. lia.
  - lia.
Qed.

(** *** Small integers are computed with exactly *)

Lemma fromZ_zero : Prim2SF (fromZ 0) = S754_zero false.
Proof. reflexivity. Qed.

Lemma fromZ_pos (a : positive) :
  Z.pos a < 2 ^ 53 -> Prim2SF (fromZ (Z.pos a)) = canon a.
Proof.
  intros Ha. unfold fromZ. rewrite of_uint63_spec, Uint63.of_Z_spec.
  rewrite Z.mod_small.
  - apply (binary_round_canon false a a 0); [easy|lia|lia].
  - split; [lia|]. eapply Z.lt_trans; [exact Ha|]. reflexivity.
Qed.

Lemma digits2_pos_mono (a b : positive) :
  Z.pos a <= Z.pos b -> Z.pos (digits2_pos a) <= Z.pos (digits2_pos b).
Proof.
  intros Hab. pose proof (digits2_pos_bounds a) as [Hlo _].
  pose proof (digits2_pos_bounds b) as [_ Hhi].
  assert (Z.pos (digits2_pos a) - 1 < Z.pos (digits2_pos b)); [|lia].
  apply (Z.pow_lt_mono_r_iff 2); lia.
Qed.

Lemma shl_align_value (m : positive) (e e' : Z) :
  e' <= e -> Z.pos (fst (shl_align m e e')) = Z.pos m * 2 ^ (e - e').
Proof.
  intros He. unfold shl_align.
  destruct (e' - e) as [|p|p] eqn:Hp; [|lia|].
  - replace (e - e') with 0 by lia. cbn. lia.
  - cbn [fst]. rewrite iter_xO_value. do 2 f_equal. lia.
Qed.

Lemma fromZ_add (a b : Z) :
  0 <= a -> 0 <= b -> a + b < 2 ^ 53 ->
  (fromZ a + fromZ b)%float = fromZ (a + b).
Proof.
  intros Ha Hb Hab. apply Prim2SF_inj. rewrite FloatAxioms.add_spec.
  destruct a as [|a|a]; [|  |lia].
  { rewrite fromZ_zero. destruct b as [|b|b]; [reflexivity| |lia].
    now rewrite Z.add_0_l, fromZ_pos by lia. }
  destruct b as [|b|b]; [|  |lia].
  { rewrite fromZ_zero, Z.add_0_r, fromZ_pos by lia. reflexivity. }
  rewrite !fromZ_pos by lia.
  change (Z.pos a + Z.pos b) with (Z.pos (a + b)) in *.
  rewrite fromZ_pos by easy.
  destruct (normalize_value a ltac:(lia)) as (Hda & Hva & Hna).
  destruct (normalize_value b ltac:(lia)) as (Hdb & Hvb & Hnb).
  pose proof (digits2_pos_mono a (a + b) ltac:(lia)) as Hma.
  pose proof (digits2_pos_mono b (a + b) ltac:(lia)) as Hmb.
  unfold canon at 1 2. unfold SF64add, SFadd, cond_Zopp.
  set (da := Z.pos (digits2_pos a)) in *.
  set (db := Z.pos (digits2_pos b)) in *.
  set (ez := Z.min (da - 53) (db - 53)).
  pose proof (shl_align_value (normalize a) (da - 53) ez ltac:(lia)) as Hsa.
  pose proof (shl_align_value (normalize b) (db - 53) ez ltac:(lia)) as Hsb.
  set (pa := fst (shl_align (normalize a) (da - 53) ez)) in *.
  set (pb := fst (shl_align (normalize b) (db - 53) ez)) in *.
  change (binary_normalize prec emax (Z.pos pa + Z.pos pb) ez false)
    with (binary_round prec emax false (pa + pb) ez).
  replace ez with (- (- ez)) at 1 by lia.
  apply binary_round_canon; [easy|lia|].
  rewrite Pos2Z.inj_add, Hsa, Hsb, Hva, Hvb, Pos2Z.inj_add.
  rewrite <- !Z.mul_assoc, <- !Z.pow_add_r by lia.
  replace (53 - da + (da - 53 - ez)) with (- ez) by lia.
  replace (53 - db + (db - 53 - ez)) with (- ez) by lia. lia.
Qed.

Lemma digits2_pos_mul (a b : positive) :
  Z.pos (digits2_pos (a * b))
  <= Z.pos (digits2_pos a) + Z.pos (digits2_pos b).
Proof.
  pose proof (digits2_pos_bounds a) as [_ Ha].
  pose proof (digits2_pos_bounds b) as [_ Hb].
  pose proof (digits2_pos_bounds (a * b)) as [Hab _].
  assert (Z.pos (digits2_pos (a * b)) - 1
          < Z.pos (digits2_pos a) + Z.pos (digits2_pos b)); [|lia].
  apply (Z.pow_lt_mono_r_iff 2); [lia|lia|].
  rewrite Z.pow_add_r by lia. rewrite Pos2Z.inj_mul in Hab. nia.
Qed.

Lemma new_location_exact (n : Z) : new_location n 0 = loc_Exact.
Proof. unfold new_location. now destruct (Z.even n). Qed.

Lemma fromZ_div (n c : Z) :
  0 < n < 2 ^ 53 -> 0 <= c -> n * c < 2 ^ 53 ->
  (fromZ (n * c) / fromZ n)%float = fromZ c.
Proof.
  intros [Hn Hn53] Hc Hnc. apply Prim2SF_inj. rewrite FloatAxioms.div_spec.
  destruct n as [|n|n]; [lia| |lia].
  destruct c as [|c|c]; [|  |lia].
  { rewrite Z.mul_0_r, fromZ_zero, fromZ_pos by easy. reflexivity. }
  assert (Z.pos c < 2 ^ 53) as Hc53 by nia.
  change (Z.pos n * Z.pos c) with (Z.pos (n * c)) in *.
  rewrite !fromZ_pos by easy.
  destruct (normalize_value n Hn53) as (Hdn & Hvn & Hnn).
  destruct (normalize_value c Hc53) as (Hdc & Hvc & Hnc').
  destruct (normalize_value (n * c) Hnc) as (Hdx & Hvx & Hnx).
  pose proof (digits2_pos_mul n c) as Hmul.
  pose proof (digits2_pos_mono n (n * c) ltac:(nia)) as Hmono.
  unfold canon. unfold SF64div, SFdiv, SFdiv_core_binary.
  cbn [Zdigits2]. rewrite Hnx, Hnn.
  set (dn := Z.pos (digits2_pos n)) in *.
  set (dc := Z.pos (digits2_pos c)) in *.
  set (dx := Z.pos (digits2_pos (n * c))) in *.
  assert (0 < dn /\ 0 < dc /\ 0 < dx) as (Hdn0 & Hdc0 & Hdx0)
    by (unfold dn, dc, dx; lia).
  rewrite fexp_normal by lia.
  replace (Z.min (53 + (dx - 53) - (53 + (dn - 53)) - 53)
                 (dx - 53 - (dn - 53))) with (dx - dn - 53) by lia.
  replace (dx - 53 - (dn - 53) - (dx - dn - 53)) with 53 by lia.
  cbv beta iota. rewrite Z.shiftl_mul_pow2 by lia.
  set (k := 53 - dx + dn).
  assert (Z.pos (normalize (n * c)) * 2 ^ 53
          = Z.pos c * 2 ^ k * Z.pos (normalize n)) as Hexact.
  { rewrite Hvx, Hvn, Pos2Z.inj_mul. unfold k.
    replace (2 ^ (53 - dx + dn)) with (2 ^ (53 - dx) * 2 ^ dn)
      by (rewrite <- Z.pow_add_r by lia; f_equal; lia).
    assert (2 ^ 53 = 2 ^ dn * 2 ^ (53 - dn)) as ->
      by (rewrite <- Z.pow_add_r by lia; f_equal; lia).
    ring. }
  destruct (Z.div_eucl (Z.pos (normalize (n * c)) * 2 ^ 53)
                       (Z.pos (normalize n))) as [q r] eqn:Hdiv.
  assert (q = Z.pos c * 2 ^ k /\ r = 0) as [-> ->].
  { assert (q = (Z.pos (normalize (n * c)) * 2 ^ 53) / Z.pos (normalize n))
      as -> by (unfold Z.div; now rewrite Hdiv).
    assert (r = (Z.pos (normalize (n * c)) * 2 ^ 53)
                mod Z.pos (normalize n))
      as -> by (unfold Z.modulo; now rewrite Hdiv).
    rewrite Hexact. split; [apply Z.div_mul; lia|apply Z.mod_mul; lia]. }
  rewrite new_location_exact. cbn [xorb].
  assert (0 < 2 ^ k) as Hk by (apply Z.pow_pos_nonneg; unfold k; lia).
  destruct (Z.pos c * 2 ^ k) as [|q|q] eqn:Hq; [lia| |lia].
  rewrite (binary_round_aux_exact false q (normalize c) (k - (53 - dc))).
  - f_equal. unfold k. lia.
  - exact Hnc'.
  - unfold k. lia.
  - rewrite <- Hq, Hvc, <- Z.mul_assoc, <- Z.pow_add_r by (unfold k; lia).
    do 2 f_equal. lia.
  - unfold k. lia.
Qed.


(** *** Signs: the adaptive threshold is never negative *)

Definition SFnonneg (x : spec_float) : Prop :=
  match x with
  | S754_zero _ | S754_nan => True
  | S754_infinity s | S754_finite s _ _ => s = false
  end.

Lemma binary_round_aux_nonneg m e l :
  SFnonneg (binary_round_aux prec emax false m e l).
Proof.
  unfold binary_round_aux.
  destruct (shr_fexp prec emax m e l) as [mrs' e'].
  destruct (shr_fexp prec emax _ e' loc_Exact) as [mrs'' e''].
  destruct (shr_m mrs''); [easy| |easy].
  now destruct (e'' <=? emax - prec).
Qed.

Lemma SFsqrt_nonneg x : SFnonneg (SF64sqrt x).
Proof.
  destruct x as [s|[]| |[] m e]; try easy.
  unfold SF64sqrt, SFsqrt.
  destruct (SFsqrt_core_binary prec emax (Z.pos m) e) as [[mz ez] lz].
  apply binary_round_aux_nonneg.
Qed.

Lemma SFmul_nonneg x m e :
  SFnonneg x -> SFnonneg (SF64mul x (S754_finite false m e)).
Proof.
  destruct x as [s|s| |s mx ex]; cbn; try easy.
  - intros ->. reflexivity.
  - intros ->. apply binary_round_aux_nonneg.
Qed.

Lemma SFadd_nonneg m e y :
  SFnonneg y -> SFnonneg (SF64add (S754_finite false m e) y).
Proof.
  destruct y as [s|s| |s my ey]; cbn; try easy.
  intros ->. unfold SF64add, SFadd, cond_Zopp.
  destruct (shl_align m e _) as [ma ea], (shl_align my ey _) as [mb eb].
  cbn [fst].
  change (SFnonneg (binary_round prec emax false (ma + mb) (Z.min e ey))).
  unfold binary_round.
  destruct (shl_align _ _ _) as [mz ez].
  apply binary_round_aux_nonneg.
Qed.

Lemma SFltb_nonneg_zero x :
  SFnonneg x -> SFltb x (S754_zero false) = false.
Proof. destruct x as [s|s| |s m e]; cbn; try easy; now intros ->. Qed.

Lemma adaptiveThreshold_not_negative v :
  gt 0 (adaptiveThreshold v) = false.
Proof.
  unfold gt, adaptiveThreshold, baseThreshold.
  rewrite ltb_spec, FloatAxioms.add_spec, mul_spec, sqrt_spec.
  apply SFltb_nonneg_zero.
  change (Prim2SF 32) with (S754_finite false 4503599627370496 (-47)).
  apply SFadd_nonneg.
  change (Prim2SF 0.7) with (S754_finite false 6305039478318694 (-53)).
  apply SFmul_nonneg, SFsqrt_nonneg.
Qed.

(** *** [NaN] is absorbing *)

Lemma add_nan_l x : (nan + x)%float = nan.
Proof. apply Prim2SF_inj. now rewrite FloatAxioms.add_spec. Qed.

Lemma add_nan_r x : (x + nan)%float = nan.
Proof.
  apply Prim2SF_inj. rewrite FloatAxioms.add_spec.
  now destruct (Prim2SF x).
Qed.

Lemma sub_nan_r x : (x - nan)%float = nan.
Proof.
  apply Prim2SF_inj. rewrite FloatAxioms.sub_spec.
  now destruct (Prim2SF x).
Qed.

Lemma mul_nan_l x : (nan * x)%float = nan.
Proof. apply Prim2SF_inj. now rewrite FloatAxioms.mul_spec. Qed.

Lemma div_nan_l x : (nan / x)%float = nan.
Proof. apply Prim2SF_inj. now rewrite FloatAxioms.div_spec. Qed.

Lemma gt_nan_l x : gt nan x = false.
Proof.
  unfold gt. rewrite ltb_spec.
  change (Prim2SF nan) with S754_nan. unfold SFltb, SFcompare.
  now destruct (Prim2SF x) as [| | |[]].
Qed.

(** ** Border sampler *)

(** The sample [addSample] takes at [(x, y)]. *)
Definition sampleOf (data : list Z) (width x y : Z) : Sample :=
  let idx := (y * width + x) * 4 in
  mkSample (js_get data idx) (js_get data (idx + 1)) (js_get data (idx + 2)).

Lemma foldl_ext_in {A B : Type} (f g : A -> B -> A) (l : list B) (a : A) :
  (forall a x, x ∈ l -> f a x = g a x) -> foldl f a l = foldl g a l.
Proof.
  revert a. induction l as [|x l IH]; intros a Hfg; [easy|].
  cbn. rewrite Hfg by left. apply IH. intros a' x' Hx'. apply Hfg. now right.
Qed.

Lemma foldl_nested_app {A B C : Type} (f : B -> C -> list A)
  (l1 : list B) (l2 : list C) (acc : list A) :
  foldl (fun acc i => foldl (fun acc j => acc ++ f i j) acc l2) acc l1
  = acc ++ (i ← l1; j ← l2; f i j).
Proof.
  assert (forall i acc, foldl (fun acc j => acc ++ f i j) acc l2
                        = acc ++ (j ← l2; f i j)) as Hinner.
  { intros i. induction l2 as [|j l2 IH]; intros acc'; cbn.
    - now rewrite app_nil_r.
    - now rewrite IH, app_assoc. }
  revert acc. induction l1 as [|i l1 IH]; intros acc; cbn.
  - now rewrite app_nil_r.
  - now rewrite IH, Hinner, app_assoc.
Qed.

Lemma borderSamples_bind data width height :
  let bw := borderWidth width height in
  borderSamples data width height
  = (x ← seqZ 0 width; y ← seqZ 0 bw;
     [sampleOf data width x y; sampleOf data width x (height - y - 1)])
    ++ (y ← seqZ bw (height - bw - bw); x ← seqZ 0 bw;
        [sampleOf data width x y; sampleOf data width (width - x - 1) y]).
Proof.
  intros bw. unfold borderSamples. fold bw.
  assert (forall samples x y x' y',
            addSample (addSample samples x y width data) x' y' width data
            = samples ++ [sampleOf data width x y;
                          sampleOf data width x' y']) as Hadd.
  { intros. unfold addSample. now rewrite <- app_assoc. }
  erewrite (foldl_ext_in _ _ (seqZ bw _)).
  2: { intros samples y _. apply foldl_ext_in. intros samples' x _.
       apply Hadd. }
  rewrite (foldl_nested_app
             (fun y x => [sampleOf data width x y;
                          sampleOf data width (width - x - 1) y])).
  f_equal.
  erewrite (foldl_ext_in _ _ (seqZ 0 width)).
  2: { intros samples x _. apply foldl_ext_in. intros samples' y _.
       apply Hadd. }
  now rewrite (foldl_nested_app
                 (fun x y => [sampleOf data width x y;
                              sampleOf data width x (height - y - 1)])).
Qed.

Lemma borderWidth_ge width height : 10 <= borderWidth width height.
Proof. unfold borderWidth. lia. Qed.

Lemma elem_of_borderSamples data width height s :
  s ∈ borderSamples data width height ->
  let bw := borderWidth width height in
  (exists x y, 0 <= x < width /\ 0 <= y < bw
               /\ (s = sampleOf data width x y
                   \/ s = sampleOf data width x (height - y - 1)))
  \/ (exists x y, 0 <= x < bw /\ bw <= y < height - bw
                  /\ (s = sampleOf data width x y
                      \/ s = sampleOf data width (width - x - 1) y)).
Proof.
  intros Hs bw. rewrite borderSamples_bind in Hs. cbn zeta in Hs. fold bw in Hs.
  apply elem_of_app in Hs as [Hs|Hs].
  - left. apply list_elem_of_bind in Hs as (x & Hs & Hx%elem_of_seqZ).
    apply list_elem_of_bind in Hs as (y & Hs & Hy%elem_of_seqZ).
    exists x, y. split; [lia|]. split; [lia|].
    apply elem_of_cons in Hs as [->|Hs]; [now left|].
    apply list_elem_of_singleton in Hs as ->. now right.
  - right. apply list_elem_of_bind in Hs as (y & Hs & Hy%elem_of_seqZ).
    apply list_elem_of_bind in Hs as (x & Hs & Hx%elem_of_seqZ).
    exists x, y. split; [lia|]. split; [lia|].
    apply elem_of_cons in Hs as [->|Hs]; [now left|].
    apply list_elem_of_singleton in Hs as ->. now right.
Qed.

(** When the image is at least as high as the band is thick, every
    sample is read from a pixel of the buffer. *)
Lemma borderSamples_in_bounds data width height s :
  0 < width -> borderWidth width height <= height ->
  s ∈ borderSamples data width height ->
  exists p, 0 <= p < width * height
            /\ s = mkSample (js_get data (p * 4)) (js_get data (p * 4 + 1))
                            (js_get data (p * 4 + 2)).
Proof.
  intros Hw Hbw Hs. pose proof (borderWidth_ge width height) as Hge.
  apply elem_of_borderSamples in Hs. cbn zeta in Hs.
  set (bw := borderWidth width height) in *.
  destruct Hs as [(x & y & Hx & Hy & [-> | ->])|(x & y & Hx & Hy & [-> | ->])].
  - exists (y * width + x). split; [nia|easy].
  - exists ((height - y - 1) * width + x). split; [nia|easy].
  - exists (y * width + x). split; [nia|easy].
  - exists (y * width + (width - x - 1)). split; [nia|easy].
Qed.

(** When it is not, the sampler reads row [height], which is not there. *)
Lemma borderSamples_out_of_bounds data width height :
  0 < width -> 0 < height -> height < borderWidth width height ->
  Z.of_nat (length data) = 4 * (width * height) ->
  mkSample None None None ∈ borderSamples data width height.
Proof.
  intros Hw Hh Hbw Hlen. rewrite borderSamples_bind. cbn zeta.
  assert (sampleOf data width 0 height = mkSample None None None) as <-.
  { unfold sampleOf. cbn zeta.
    rewrite !js_get_out_of_range by lia. reflexivity. }
  apply elem_of_app. left.
  apply list_elem_of_bind. exists 0. split; [|apply elem_of_seqZ; lia].
  apply list_elem_of_bind. exists height. split; [|apply elem_of_seqZ; lia].
  left.
Qed.

Lemma length_bind_const {A B : Type} (f : A -> list B) (l : list A) (k : nat) :
  (forall x, length (f x) = k) -> length (l ≫= f) = (length l * k)%nat.
Proof.
  intros Hf. induction l as [|x l IH]; [easy|].
  rewrite bind_cons, length_app, IH, Hf. cbn. lia.
Qed.

Lemma length_borderSamples data width height :
  0 <= width ->
  let bw := borderWidth width height in
  Z.of_nat (length (borderSamples data width height))
  = 2 * width * bw + 2 * bw * Z.max 0 (height - bw - bw).
Proof.
  intros Hw bw. pose proof (borderWidth_ge width height) as Hge. fold bw in Hge.
  rewrite borderSamples_bind. cbn zeta. fold bw.
  rewrite length_app.
  rewrite (length_bind_const _ _ (Z.to_nat bw * 2)).
  2: { intros x. rewrite (length_bind_const _ _ 2) by easy.
       now rewrite length_seqZ. }
  rewrite (length_bind_const _ _ (Z.to_nat bw * 2)).
  2: { intros x. rewrite (length_bind_const _ _ 2) by easy.
       now rewrite length_seqZ. }
  rewrite !length_seqZ. nia.
Qed.

Lemma uniform_index data width height r g b p :
  0 < width -> uniform data width height r g b -> 0 <= p < width * height ->
  js_get data (p * 4) = Some r /\ js_get data (p * 4 + 1) = Some g
  /\ js_get data (p * 4 + 2) = Some b.
Proof.
  intros Hw Huni Hp.
  assert (inGrid width height (p mod width) (p / width)) as Hgrid.
  { unfold inGrid. split; [apply Z.mod_pos_bound; lia|].
    split; [apply Z.div_pos; lia|]. apply Z.div_lt_upper_bound; lia. }
  specialize (Huni _ _ Hgrid).
  replace (4 * (p / width * width + p mod width)) with (p * 4) in Huni;
    [easy|].
  rewrite (Z.div_mod p width) at 1 by lia. lia.
Qed.

Lemma uniform_samples data width height r g b :
  0 < width -> uniform data width height r g b ->
  borderWidth width height <= height ->
  Forall (eq (mkSample (Some r) (Some g) (Some b)))
         (borderSamples data width height).
Proof.
  intros Hw Huni Hbw. apply Forall_forall. intros s Hs.
  destruct (borderSamples_in_bounds data width height s Hw Hbw Hs)
    as (p & Hp & ->).
  destruct (uniform_index data width height r g b p Hw Huni Hp)
    as (-> & -> & ->).
  reflexivity.
Qed.

(** ** Background statistics of a uniform border *)

Lemma sub_self_finite x s m e :
  Prim2SF x = S754_finite s m e -> (x - x)%float = 0%float.
Proof.
  intros Hx. apply Prim2SF_inj. rewrite FloatAxioms.sub_spec, Hx.
  unfold SF64sub, SFsub, shl_align.
  replace (Z.min e e - e) with 0 by lia. cbn [fst].
  now rewrite Z.sub_diag.
Qed.

Lemma fromZ_sub_self v : 0 <= v < 2 ^ 53 -> (fromZ v - fromZ v)%float = 0%float.
Proof.
  intros Hv. destruct v as [|v|v]; [reflexivity| |lia].
  eapply sub_self_finite. apply fromZ_pos. lia.
Qed.

Lemma zero_div_fromZ n : 0 < n < 2 ^ 53 -> (0 / fromZ n)%float = 0%float.
Proof.
  intros Hn. apply Prim2SF_inj. rewrite FloatAxioms.div_spec.
  destruct n as [|n|n]; [lia| |lia].
  now rewrite fromZ_pos by lia.
Qed.

Section UniformBorder.
Variables (r g b : Z).
Hypothesis red_byte : 0 <= r <= 255.
Hypothesis green_byte : 0 <= g <= 255.
Hypothesis blue_byte : 0 <= b <= 255.

Definition uniformSample : Sample := mkSample (Some r) (Some g) (Some b).

Definition uniformColor : Color := mkColor (fromZ r) (fromZ g) (fromZ b).

Lemma sum_uniform samples k :
  Forall (eq uniformSample) samples ->
  0 <= k -> (k + Z.of_nat (length samples)) * 255 < 2 ^ 53 ->
  foldl (fun '(r', g', b') s =>
           ((r' + toNumber (s_r s))%float,
            (g' + toNumber (s_g s))%float,
            (b' + toNumber (s_b s))%float))
        (fromZ (k * r), fromZ (k * g), fromZ (k * b)) samples
  = (fromZ ((k + Z.of_nat (length samples)) * r),
     fromZ ((k + Z.of_nat (length samples)) * g),
     fromZ ((k + Z.of_nat (length samples)) * b)).
Proof.
  intros Hall. revert k.
  induction Hall as [|s samples <- _ IH]; intros k Hk Hbound.
  - cbn. now rewrite Z.add_0_r.
  - cbn [foldl length uniformSample s_r s_g s_b toNumber].
    cbn [length] in Hbound. rewrite Nat2Z.inj_succ in *.
    assert (forall c, 0 <= c <= 255 -> 0 <= k * c /\ k * c + c < 2 ^ 53)
      as Hsum.
    { intros c Hc. split; [apply Z.mul_nonneg_nonneg; lia|].
      replace (k * c + c) with ((k + 1) * c) by lia.
      apply Z.le_lt_trans with ((k + 1) * 255);
        [apply Z.mul_le_mono_nonneg_l; lia|].
      eapply Z.le_lt_trans; [|exact Hbound]. lia. }
    rewrite !fromZ_add by (apply Hsum; assumption) || lia.
    replace (k * r + r) with ((k + 1) * r) by lia.
    replace (k * g + g) with ((k + 1) * g) by lia.
    replace (k * b + b) with ((k + 1) * b) by lia.
    rewrite IH by lia.
    now replace (k + 1 + Z.of_nat (length samples))
      with (k + Z.succ (Z.of_nat (length samples))) by lia.
Qed.

Lemma calculateAverageColor_uniform samples :
  Forall (eq uniformSample) samples ->
  samples <> [] -> Z.of_nat (length samples) * 255 < 2 ^ 53 ->
  calculateAverageColor samples = uniformColor.
Proof.
  intros Hall Hne Hbound. unfold calculateAverageColor.
  destruct samples as [|s samples]; [easy|].
  set (l := s :: samples) in *.
  change (0%float, 0%float, 0%float)
    with (fromZ (0 * r), fromZ (0 * g), fromZ (0 * b)).
  rewrite sum_uniform by (easy || lia). rewrite Z.add_0_l.
  assert (0 < Z.of_nat (length l)) by (unfold l; cbn; lia).
  unfold uniformColor. f_equal; apply fromZ_div; nia.
Qed.

Lemma squaredDiff_uniform samples :
  Forall (eq uniformSample) samples ->
  foldl (fun acc s =>
           let dr := (toNumber (s_r s) - c_r uniformColor)%float in
           let dg := (toNumber (s_g s) - c_g uniformColor)%float in
           let db := (toNumber (s_b s) - c_b uniformColor)%float in
           (acc + (dr * dr + dg * dg + db * db))%float)
        0%float samples = 0%float.
Proof.
  induction 1 as [|s samples <- _ IH]; [easy|].
  cbn [foldl uniformSample uniformColor s_r s_g s_b c_r c_g c_b toNumber].
  rewrite !fromZ_sub_self by lia. apply IH.
Qed.

Lemma calculateColorVariance_uniform samples :
  Forall (eq uniformSample) samples ->
  Z.of_nat (length samples) < 2 ^ 53 ->
  calculateColorVariance samples uniformColor = 0%float.
Proof.
  intros Hall Hbound. unfold calculateColorVariance.
  destruct (Z.leb_spec (Z.of_nat (length samples)) 1); [easy|].
  rewrite squaredDiff_uniform by easy.
  apply zero_div_fromZ. lia.
Qed.
End UniformBorder.

(** ** The mask builder on a uniform image *)

(** The Sobel sums when all nine intensities are the same number. *)
Definition uniformGradient (intensity : float) : float * float :=
  foldl (fun grad ky =>
           foldl (fun '(gradX, gradY) kx =>
                    let kernelIdx := (ky + 1) * 3 + (kx + 1) in
                    ((gradX + intensity * cell sobelX kernelIdx)%float,
                     (gradY + intensity * cell sobelY kernelIdx)%float))
                 grad offsets)
        (0%float, 0%float) offsets.

Definition uniformEdge (intensity : float) : float :=
  let '(gradX, gradY) := uniformGradient intensity in
  sqrt (gradX * gradX + gradY * gradY)%float.

(** The rounding of the Sobel sums leaves at most a tiny edge, for every
    sum of three bytes: checked by evaluation. *)
Definition flatEnough (s : Z) : bool :=
  negb (gt (combinedMetric (uniformEdge (fromZ s / 3)) 0) 32).

Lemma flatEnough_bytes s : 0 <= s <= 765 -> flatEnough s = true.
Proof.
  intros Hs.
  assert (forallb flatEnough (seqZ 0 766) = true) as Hall
      by (vm_compute; reflexivity).
  rewrite forallb_forall in Hall. apply Hall.
  apply list_elem_of_In, elem_of_seqZ. lia.
Qed.

Section UniformImage.
Variables (data : list Z) (width height r g b : Z).
Hypothesis image : isImage data width height.
Hypothesis red_byte : 0 <= r <= 255.
Hypothesis green_byte : 0 <= g <= 255.
Hypothesis blue_byte : 0 <= b <= 255.
Hypothesis same : uniform data width height r g b.

Lemma uniform_chan x y :
  inGrid width height x y ->
  chan data ((y * width + x) * 4) = fromZ r
  /\ chan data ((y * width + x) * 4 + 1) = fromZ g
  /\ chan data ((y * width + x) * 4 + 2) = fromZ b.
Proof.
  intros Hgrid. destruct image as (Hw & _ & _).
  destruct (uniform_index data width height r g b (y * width + x) Hw same
              (inGrid_index_range _ _ _ _ Hgrid)) as (Hr & Hg & Hb).
  unfold chan. now rewrite Hr, Hg, Hb.
Qed.

Lemma gradient_uniform x y :
  isInterior width height x y ->
  gradient data width x y = uniformGradient (fromZ (r + g + b) / 3).
Proof.
  intros [Hx Hy]. unfold gradient, uniformGradient.
  apply foldl_ext_in. intros grad ky Hky.
  apply foldl_ext_in. intros [gradX gradY] kx Hkx. cbn zeta.
  assert (inGrid width height (x + kx) (y + ky)) as Hgrid.
  { unfold offsets in Hky, Hkx.
    rewrite !elem_of_cons, elem_of_nil in Hky, Hkx.
    unfold inGrid. lia. }
  destruct (uniform_chan _ _ Hgrid) as (-> & -> & ->).
  rewrite !fromZ_add by lia. reflexivity.
Qed.

Lemma edgeMagnitude_uniform x y :
  isInterior width height x y ->
  edgeMagnitude data width x y = uniformEdge (fromZ (r + g + b) / 3).
Proof.
  intros Hint. unfold edgeMagnitude, uniformEdge.
  now rewrite gradient_uniform.
Qed.

Lemma colorDist_uniform x y :
  inGrid width height x y ->
  colorDist data width (uniformColor r g b) x y = 0%float.
Proof.
  intros Hgrid. unfold colorDist.
  destruct (uniform_chan _ _ Hgrid) as (-> & -> & ->).
  cbn [uniformColor c_r c_g c_b]. rewrite !fromZ_sub_self by lia.
  destruct (isGoldLike _ _ _); vm_compute; reflexivity.
Qed.

Lemma colorDist_nan avgBg x y :
  c_r avgBg = nan -> colorDist data width avgBg x y = nan.
Proof.
  intros Hnan. unfold colorDist.
  rewrite Hnan, !sub_nan_r, !mul_nan_l, !add_nan_l. reflexivity.
Qed.
End UniformImage.

Lemma sum_nan samples acc :
  mkSample None None None ∈ samples ->
  foldl (fun '(r', g', b') s =>
           ((r' + toNumber (s_r s))%float,
            (g' + toNumber (s_g s))%float,
            (b' + toNumber (s_b s))%float))
        acc samples
  = (nan, nan, nan).
Proof.
  assert (forall l,
            foldl (fun '(r', g', b') s =>
                     ((r' + toNumber (s_r s))%float,
                      (g' + toNumber (s_g s))%float,
                      (b' + toNumber (s_b s))%float))
                  (nan, nan, nan) l
            = (nan, nan, nan)) as Hstays.
  { induction l as [|s l IH]; [easy|]. cbn [foldl].
    now rewrite !add_nan_l. }
  revert acc. induction samples as [|s samples IH]; intros acc Hin.
  - now apply elem_of_nil in Hin.
  - apply elem_of_cons in Hin as [<-|Hin]; [|now apply IH].
    destruct acc as [[r' g'] b']. cbn [foldl s_r s_g s_b toNumber].
    now rewrite !add_nan_r.
Qed.

Lemma calculateAverageColor_nan samples :
  mkSample None None None ∈ samples ->
  c_r (calculateAverageColor samples) = nan.
Proof.
  intros Hin. unfold calculateAverageColor.
  destruct samples as [|s samples]; [now apply elem_of_nil in Hin|].
  rewrite sum_nan by easy. cbn [c_r]. apply div_nan_l.
Qed.

(** ** Masks without foreground *)

Lemma all_background_reach mask width height :
  (forall x y, inGrid width height x y -> labelAt mask width x y = Some 0) ->
  forall x y, inGrid width height x y -> floodReach mask width height x y.
Proof.
  intros Hall x y Hgrid.
  assert (forall n x, x = Z.of_nat n -> inGrid width height x y ->
                      floodReach mask width height x y) as Hrow.
  { clear x Hgrid. induction n as [|n IH]; intros x -> Hgrid.
    - apply reach_ring. split; [easy|now left].
    - apply reach_next with (x := Z.of_nat n) (y := y).
      + apply IH; [easy|]. unfold inGrid in *. lia.
      + unfold adjacent4. lia.
      + easy.
      + now apply Hall. }
  apply (Hrow (Z.to_nat x)); [|easy]. unfold inGrid in Hgrid. lia.
Qed.

Lemma dilate_all_background data width height mask avgBg threshold :
  (forall x y, inGrid width height x y -> labelAt mask width x y = Some 0) ->
  forall x y, inGrid width height x y ->
    labelAt (dilate data width height mask avgBg threshold) width x y
    = Some 0.
Proof.
  intros Hall x y Hgrid. rewrite dilate_kept; [now apply Hall|easy|].
  intros Hint.
  destruct (promotes data width mask avgBg threshold x y) eqn:Hp; [|easy].
  apply promotes_spec in Hp as (_ & (x' & y' & Hadj & Hfg) & _).
  rewrite Hall in Hfg; [easy|].
  unfold adjacent8 in Hadj. unfold isInterior in Hint. unfold inGrid. lia.
Qed.

(** ** The pipeline *)

Lemma buildMask_interior data width height mask avgBg threshold x y :
  isInterior width height x y ->
  labelAt (buildMask data width height mask avgBg threshold) width x y
  = Some (if gt (combinedMetric (edgeMagnitude data width x y)
                                (colorDist data width avgBg x y)) threshold
          then 1 else 0).
Proof.
  intros Hint.
  pose proof (buildMask_label data width height mask avgBg threshold
                (y * width + x) (interior_index_range _ _ _ _ Hint))
    as Hlabel.
  pose proof (fillMaps_interior data width height avgBg x y Hint) as Hmaps.
  destruct (fillMaps data width height avgBg) as [edgeMap colorDistMap].
  destruct Hmaps as [He Hc]. now rewrite He, Hc in Hlabel.
Qed.

Lemma buildMask_ring data width height mask avgBg threshold x y :
  onRing width height x y ->
  gt 0 threshold = false ->
  labelAt (buildMask data width height mask avgBg threshold) width x y
  = Some 0.
Proof.
  intros Hring Hthr.
  pose proof (buildMask_label data width height mask avgBg threshold
                (y * width + x)
                (inGrid_index_range _ _ _ _ (proj1 Hring))) as Hlabel.
  pose proof (fillMaps_ring data width height avgBg x y Hring) as Hmaps.
  destruct (fillMaps data width height avgBg) as [edgeMap colorDistMap].
  destruct Hmaps as [He Hc]. rewrite He, Hc in Hlabel.
  change (combinedMetric 0 0) with 0%float in Hlabel.
  now rewrite Hthr in Hlabel.
Qed.

Lemma ring_or_interior width height x y :
  inGrid width height x y ->
  onRing width height x y \/ isInterior width height x y.
Proof. unfold onRing, isInterior, inGrid. lia. Qed.

Lemma ring_not_interior width height x y :
  onRing width height x y -> ~ isInterior width height x y.
Proof. unfold onRing, isInterior. lia. Qed.

Lemma alphaAt_applyMask data width height mask x y :
  isImage data width height -> inGrid width height x y ->
  labelAt mask width x y = Some 0 ->
  alphaAt (applyMask data mask) width x y = Some 0.
Proof.
  intros (Hw & Hh & Hlen) Hgrid Hlabel. unfold alphaAt.
  pose proof (inGrid_index_range _ _ _ _ Hgrid).
  apply applyMask_alpha_background; [lia|lia|easy].
Qed.

(** A pixel that leaves the refiner labeled background and is reached by
    the flood fill ends transparent. *)
Lemma processWatchImage_background data width height x y :
  isImage data width height -> inGrid width height x y ->
  let avgBg := backgroundOf data width height in
  let threshold := thresholdOf data width height in
  let built := buildMask data width height
                 (replicate (Z.to_nat (width * height)) 0) avgBg threshold in
  let dilated := dilate data width height built avgBg threshold in
  labelAt dilated width x y = Some 0 ->
  floodReach dilated width height x y ->
  exists filled out,
    floodFillHoles dilated width height = Some filled
    /\ processWatchImage data width height = Some out
    /\ labelAt filled width x y = Some 0
    /\ alphaAt out width x y = Some 0.
Proof.
  intros Himg Hgrid avgBg threshold built dilated Hlabel Hreach.
  destruct Himg as (Hw & Hh & Hlen).
  destruct (floodFillHoles_spec dilated width height Hw Hh)
    as (st & _ & Hout & _ & Hlabels).
  destruct (Hlabels x y Hgrid) as (_ & Hkeep & _).
  specialize (Hkeep Hreach). rewrite Hlabel in Hkeep.
  exists (fillUnmarked dilated (isBackground st)),
         (applyMask data (fillUnmarked dilated (isBackground st))).
  split; [easy|]. split; [|split; [easy|]].
  - unfold processWatchImage, improvedWatchMask.
    fold avgBg threshold built dilated. now rewrite Hout.
  - now apply alphaAt_applyMask with (height := height).
Qed.

Lemma ring_background data width height x y :
  isImage data width height -> onRing width height x y ->
  let avgBg := backgroundOf data width height in
  let threshold := thresholdOf data width height in
  let built := buildMask data width height
                 (replicate (Z.to_nat (width * height)) 0) avgBg threshold in
  let dilated := dilate data width height built avgBg threshold in
  labelAt built width x y = Some 0 /\ labelAt dilated width x y = Some 0.
Proof.
  intros Himg Hring avgBg threshold built dilated.
  assert (labelAt built width x y = Some 0) as Hbuilt.
  { apply buildMask_ring; [easy|]. apply adaptiveThreshold_not_negative. }
  split; [easy|]. unfold dilated.
  rewrite dilate_kept; [easy|apply Hring|].
  intros Hint. now apply ring_not_interior in Hring.
Qed.

(** A mask the builder leaves without foreground gives a fully
    transparent image. *)
Lemma processWatchImage_all_background data width height :
  isImage data width height ->
  let avgBg := backgroundOf data width height in
  let threshold := thresholdOf data width height in
  let built := buildMask data width height
                 (replicate (Z.to_nat (width * height)) 0) avgBg threshold in
  (forall x y, inGrid width height x y -> labelAt built width x y = Some 0) ->
  exists out,
    processWatchImage data width height = Some out
    /\ forall x y, inGrid width height x y -> alphaAt out width x y = Some 0.
Proof.
  intros Himg avgBg threshold built Hall.
  set (dilated := dilate data width height built avgBg threshold).
  assert (forall x y, inGrid width height x y ->
            labelAt dilated width x y = Some 0) as Hdilated.
  { now apply dilate_all_background. }
  destruct Himg as (Hw & Hh & Hlen).
  destruct (floodFillHoles_spec dilated width height Hw Hh)
    as (st & _ & Hout & _ & Hlabels).
  exists (applyMask data (fillUnmarked dilated (isBackground st))). split.
  - unfold processWatchImage, improvedWatchMask.
    fold avgBg threshold built dilated. now rewrite Hout.
  - intros x y Hgrid.
    apply alphaAt_applyMask with (height := height); [easy|easy|].
    destruct (Hlabels x y Hgrid) as (_ & Hkeep & _).
    rewrite Hkeep by now apply all_background_reach.
    now apply Hdilated.
Qed.

(** When the band is thicker than the image is high, a sample is read past
    the buffer, the mean colour is [NaN], no metric compares greater than
    the threshold, and the image comes out fully transparent. *)
Lemma buildMask_short_image data width height mask x y :
  isImage data width height ->
  height < borderWidth width height ->
  inGrid width height x y ->
  labelAt (buildMask data width height mask (backgroundOf data width height)
                     (thresholdOf data width height)) width x y
  = Some 0.
Proof.
  intros (Hw & Hh & Hlen) Hbw Hgrid.
  destruct (ring_or_interior _ _ _ _ Hgrid) as [Hring|Hint].
  { apply buildMask_ring; [easy|apply adaptiveThreshold_not_negative]. }
  rewrite buildMask_interior by easy.
  pose proof (borderSamples_out_of_bounds data width height Hw Hh Hbw Hlen)
    as Hin.
  rewrite colorDist_nan
    by (unfold backgroundOf; now apply calculateAverageColor_nan).
  unfold combinedMetric. now rewrite add_nan_l, gt_nan_l.
Qed.

Lemma processWatchImage_short_image data width height :
  isImage data width height ->
  height < borderWidth width height ->
  exists out,
    processWatchImage data width height = Some out
    /\ forall x y, inGrid width height x y -> alphaAt out width x y = Some 0.
Proof.
  intros Himg Hbw. apply processWatchImage_all_background; [easy|].
  intros x y Hgrid. now apply buildMask_short_image.
Qed.

(** The mask builder labels every pixel of a uniform image background. *)
Lemma buildMask_uniform data width height r g b mask x y :
  isImage data width height ->
  width <= 2 ^ 20 -> height <= 2 ^ 20 ->
  0 <= r <= 255 -> 0 <= g <= 255 -> 0 <= b <= 255 ->
  uniform data width height r g b ->
  inGrid width height x y ->
  labelAt (buildMask data width height mask (backgroundOf data width height)
                     (thresholdOf data width height)) width x y
  = Some 0.
Proof.
  intros Himg Hwmax Hhmax Hr Hg Hb Huni Hgrid.
  destruct (Z.le_gt_cases (borderWidth width height) height) as [Hbw|Hbw];
    [|apply buildMask_short_image; (easy || lia)].
  destruct (ring_or_interior _ _ _ _ Hgrid) as [Hring|Hint].
  { apply buildMask_ring; [easy|apply adaptiveThreshold_not_negative]. }
  rewrite buildMask_interior by easy.
  match goal with |- Some (if ?c then _ else _) = _ =>
    assert (c = false) as ->; [|reflexivity] end.
  pose proof Himg as (Hw & Hh & Hlen).
  set (samples := borderSamples data width height).
  (* every sample is the colour of the image: the statistics are exact *)
  pose proof (uniform_samples data width height r g b Hw Huni Hbw) as Hall.
  pose proof (length_borderSamples data width height ltac:(lia)) as Hn.
  pose proof (borderWidth_ge width height) as Hge.
  cbn zeta in Hn. fold samples in Hall, Hn.
  set (bw := borderWidth width height) in *.
  assert (0 < Z.of_nat (length samples) <= 2 ^ 42) as [Hpos Hmax].
  { rewrite Hn. split; [nia|].
    assert (2 * width * bw <= 2 * 2 ^ 20 * 2 ^ 20) by nia.
    assert (2 * bw * Z.max 0 (height - bw - bw) <= 2 * 2 ^ 20 * 2 ^ 20)
      by nia.
    change (2 ^ 42) with (2 * (2 * 2 ^ 20 * 2 ^ 20)). lia. }
  assert (Z.of_nat (length samples) * 255 < 2 ^ 53) as Hbound.
  { apply Z.le_lt_trans with (2 ^ 42 * 255); [lia|reflexivity]. }
  assert (backgroundOf data width height = uniformColor r g b) as Havg.
  { unfold backgroundOf. fold samples.
    apply calculateAverageColor_uniform; try easy.
    intros Hnil. rewrite Hnil in Hpos. cbn in Hpos. lia. }
  assert (thresholdOf data width height = 32%float) as Hthr.
  { unfold thresholdOf. fold samples.
    change (calculateAverageColor samples)
      with (backgroundOf data width height).
    rewrite Havg, calculateColorVariance_uniform by (easy || lia).
    reflexivity. }
  rewrite Havg, Hthr.
  rewrite (colorDist_uniform data width height r g b) by easy.
  rewrite (edgeMagnitude_uniform data width height r g b) by easy.
  pose proof (flatEnough_bytes (r + g + b) ltac:(lia)) as Hflat.
  unfold flatEnough in Hflat. now apply negb_true_iff in Hflat.
Qed.

(** ** Example inputs *)

(** A 3x3 mask: a background pixel inside a foreground ring. *)
Definition ringedHole : list Z := [1; 1; 1; 1; 0; 1; 1; 1; 1].

(** A 5x5 mask: a background pixel inside a foreground square that is
    itself surrounded by background. *)
Definition enclosedHole : list Z :=
  [0; 0; 0; 0; 0;
   0; 1; 1; 1; 0;
   0; 1; 0; 1; 0;
   0; 1; 1; 1; 0;
   0; 0; 0; 0; 0].

Definition pixel (r g b : Z) : list Z := [r; g; b; 255].

(** [n] pixels of the same colour. *)
Definition solid (n : nat) (r g b : Z) : list Z :=
  mjoin (replicate n (pixel r g b)).

(** A white 10x10 image with one black pixel at [(4, 4)]. *)
Definition whiteWithDot : list Z :=
  solid 44 255 255 255 ++ pixel 0 0 0 ++ solid 55 255 255 255.

(** A 3x3 image: a gold pixel [(200, 160, 90)] in the middle of grey. *)
Definition goldCentre : list Z :=
  solid 4 128 128 128 ++ pixel 200 160 90 ++ solid 4 128 128 128.

Definition grey : Color := mkColor 128 128 128.

(** A 3x3 mask whose only foreground pixel is the corner [(0, 0)]. *)
Definition cornerSeed : list Z := [1; 0; 0; 0; 0; 0; 0; 0; 0].

(** A white 10x10 image whose corner pixel [(0, 0)] is black. *)
Definition blackCorner : list Z := pixel 0 0 0 ++ solid 99 255 255 255.

Lemma js_get_solid n r g b p :
  0 <= p < Z.of_nat n ->
  js_get (solid n r g b) (4 * p) = Some r
  /\ js_get (solid n r g b) (4 * p + 1) = Some g
  /\ js_get (solid n r g b) (4 * p + 2) = Some b.
Proof.
  revert p. induction n as [|n IH]; intros p Hp; [lia|].
  change (solid (S n) r g b) with (pixel r g b ++ solid n r g b).
  destruct (decide (p = 0)) as [->|Hne]; [easy|].
  destruct (IH (p - 1) ltac:(lia)) as (Hr & Hg & Hb).
  assert (forall i, 4 <= i ->
            js_get (pixel r g b ++ solid n r g b) i
            = js_get (solid n r g b) (i - 4)) as Hshift.
  { intros i Hi. unfold js_get.
    destruct (Z.ltb_spec i 0), (Z.ltb_spec (i - 4) 0); try lia.
    rewrite lookup_app_r by (cbn; lia). f_equal. cbn. lia. }
  rewrite !Hshift by lia.
  replace (4 * p - 4) with (4 * (p - 1)) by lia.
  replace (4 * p + 1 - 4) with (4 * (p - 1) + 1) by lia.
  replace (4 * p + 2 - 4) with (4 * (p - 1) + 2) by lia.
  easy.
Qed.

Lemma solid_uniform width height r g b :
  uniform (solid (Z.to_nat (width * height)) r g b) width height r g b.
Proof.
  intros x y Hgrid. apply js_get_solid.
  pose proof (inGrid_index_range _ _ _ _ Hgrid). lia.
Qed.

(** ** The properties of the stages *)

(** C1 (as the code has it). [floodFillHoles] returns for every mask of a
    [width] x [height] image; its flood fill is seeded with every pixel of
    the outermost ring, whatever its label, and marks in [isBackground]
    exactly the ring pixels and the pixels reached from them through
    4-neighbours labeled background.  Every pixel labeled background that
    was not marked becomes foreground; every other pixel keeps its label.
    When the whole ring is labeled background, the marked pixels are the
    background pixels reachable from the background-labeled ring pixels. *)
Theorem floodFillHoles_marks_reachable (mask : list Z) (width height : Z) :
  0 < width -> 0 < height ->
  exists st filled,
    floodFill mask width height = Some st
    /\ floodFillHoles mask width height = Some filled
    /\ (forall x y, inGrid width height x y ->
          (y * width + x ∈ isBackground st
           <-> floodReach mask width height x y)
          /\ (labelAt mask width x y = Some 0 ->
              ~ floodReach mask width height x y ->
              labelAt filled width x y = Some 1)
          /\ (floodReach mask width height x y ->
              labelAt filled width x y = labelAt mask width x y)
          /\ (labelAt mask width x y <> Some 0 ->
              labelAt filled width x y = labelAt mask width x y))
    /\ ((forall x y, onRing width height x y ->
           labelAt mask width x y = Some 0) ->
        forall x y, floodReach mask width height x y
                    <-> backgroundReach mask width height x y).
Proof.
  intros Hw Hh.
  destruct (floodFillHoles_spec mask width height Hw Hh)
    as (st & Hrun & Hout & Hmarks & Hlabels).
  exists st, (fillUnmarked mask (isBackground st)).
  split; [easy|]. split; [easy|]. split.
  - intros x y Hgrid. split.
    + rewrite Hmarks. split.
      * intros (x' & y' & Heq & Hreach).
        eauto using floodReach_index.
      * intros Hreach. now exists x, y.
    + now apply Hlabels.
  - intros Hring x y. now apply floodReach_backgroundReach.
Qed.

Lemma floodFillHoles_marks_reachable_witness :
  exists st filled,
    floodFill enclosedHole 5 5 = Some st
    /\ floodFillHoles enclosedHole 5 5 = Some filled
    /\ (forall x y, inGrid 5 5 x y ->
          (y * 5 + x ∈ isBackground st <-> floodReach enclosedHole 5 5 x y)
          /\ (labelAt enclosedHole 5 x y = Some 0 ->
              ~ floodReach enclosedHole 5 5 x y ->
              labelAt filled 5 x y = Some 1)
          /\ (floodReach enclosedHole 5 5 x y ->
              labelAt filled 5 x y = labelAt enclosedHole 5 x y)
          /\ (labelAt enclosedHole 5 x y <> Some 0 ->
              labelAt filled 5 x y = labelAt enclosedHole 5 x y))
    /\ ((forall x y, onRing 5 5 x y -> labelAt enclosedHole 5 x y = Some 0) ->
        forall x y, floodReach enclosedHole 5 5 x y
                    <-> backgroundReach enclosedHole 5 5 x y).
Proof.
  apply (floodFillHoles_marks_reachable enclosedHole 5 5); reflexivity.
Defined.

(** C1 (as the specification states it) fails: the centre of [ringedHole]
    is labeled background and no background-labeled ring pixel exists to
    reach it from, yet [floodFillHoles] leaves it background, because the
    foreground ring pixels are seeds too. *)
Lemma floodFillHoles_seeds_foreground_ring :
  floodFillHoles ringedHole 3 3 = Some ringedHole
  /\ labelAt ringedHole 3 1 1 = Some 0
  /\ ~ backgroundReach ringedHole 3 3 1 1.
Proof.
  split; [now vm_compute|]. split; [reflexivity|].
  intros Hreach. inversion Hreach as [x y [_ Hring]|x y x' y' Hprev Hadj];
    subst.
  - lia.
  - apply backgroundReach_label in Hprev.
    assert ((x = 1 /\ y = 0) \/ (x = 1 /\ y = 2)
            \/ (x = 0 /\ y = 1) \/ (x = 2 /\ y = 1))
      as [[-> ->] | [[-> ->] | [[-> ->] | [-> ->]]]]
      by (unfold adjacent4 in Hadj; lia);
      now vm_compute in Hprev.
Qed.

(** C2 (as the code has it). A pixel -- of the sampled border band or
    not -- ends labeled background, with alpha 0, when it lies on the
    outermost ring, or when its combined metric, colour distance plus edge
    term, does not exceed the threshold, the refiner does not promote it,
    and the flood fill of the hole filler reaches it.  A pixel of the ring
    needs no condition: the builder and the refiner leave it background
    whatever its colour, and the flood fill starts from it. *)
Theorem border_reachability (data : list Z) (width height x y : Z) :
  isImage data width height -> inGrid width height x y ->
  let avgBg := backgroundOf data width height in
  let threshold := thresholdOf data width height in
  let built := buildMask data width height
                 (replicate (Z.to_nat (width * height)) 0) avgBg threshold in
  let dilated := dilate data width height built avgBg threshold in
  let metric :=
    (colorDist data width avgBg x y
     + Math_min 255 (edgeMagnitude data width x y) / 255 * 80)%float in
  onRing width height x y
  \/ (gt metric threshold = false
      /\ promotes data width built avgBg threshold x y = false
      /\ floodReach dilated width height x y) ->
  exists mask out,
    improvedWatchMask data width height
      (replicate (Z.to_nat (width * height)) 0) avgBg threshold = Some mask
    /\ processWatchImage data width height = Some out
    /\ labelAt mask width x y = Some 0
    /\ alphaAt out width x y = Some 0.
Proof.
  intros Himg Hgrid avgBg threshold built dilated metric Hcase.
  assert (labelAt dilated width x y = Some 0
          /\ floodReach dilated width height x y) as [Hdilated Hreach].
  { destruct (ring_or_interior _ _ _ _ Hgrid) as [Hring|Hint].
    - split; [now apply ring_background|now apply reach_ring].
    - destruct Hcase as [Hring|(Hmetric & Hkeep & Hreach)];
        [now apply ring_not_interior in Hring|].
      split; [|exact Hreach].
      unfold dilated. rewrite dilate_kept by easy.
      unfold built. rewrite buildMask_interior by easy.
      change (combinedMetric _ _) with metric. now rewrite Hmetric. }
  destruct (processWatchImage_background data width height x y Himg Hgrid
              Hdilated Hreach)
    as (filled & out & Hfilled & Hout & Hlabel & Halpha).
  exists filled, out. split; [exact Hfilled|].
  split; [exact Hout|]. exact (conj Hlabel Halpha).
Qed.

Lemma border_reachability_witness :
  (exists mask out,
     improvedWatchMask whiteWithDot 10 10 (replicate (Z.to_nat (10 * 10)) 0)
       (backgroundOf whiteWithDot 10 10) (thresholdOf whiteWithDot 10 10)
     = Some mask
     /\ processWatchImage whiteWithDot 10 10 = Some out
     /\ labelAt mask 10 1 1 = Some 0
     /\ alphaAt out 10 1 1 = Some 0)
  /\ (promotes blackCorner 10
        (buildMask blackCorner 10 10 (replicate 100 0)
           (backgroundOf blackCorner 10 10) (thresholdOf blackCorner 10 10))
        (backgroundOf blackCorner 10 10) (thresholdOf blackCorner 10 10) 0 0
      = true
      /\ exists mask out,
           improvedWatchMask blackCorner 10 10
             (replicate (Z.to_nat (10 * 10)) 0)
             (backgroundOf blackCorner 10 10) (thresholdOf blackCorner 10 10)
           = Some mask
           /\ processWatchImage blackCorner 10 10 = Some out
           /\ labelAt mask 10 0 0 = Some 0
           /\ alphaAt out 10 0 0 = Some 0).
Proof.
  split; [|split; [vm_compute; reflexivity|]].
  - apply (border_reachability whiteWithDot 10 10 1 1).
    + unfold isImage. split; [lia|]. split; [lia|reflexivity].
    + unfold inGrid. lia.
    + right. split; [vm_compute; reflexivity|].
      split; [vm_compute; reflexivity|].
      apply reach_next with (x := 0) (y := 1).
      * apply reach_ring. unfold onRing, inGrid. lia.
      * unfold adjacent4. lia.
      * unfold inGrid. lia.
      * vm_compute; reflexivity.
  - apply (border_reachability blackCorner 10 10 0 0).
    + unfold isImage. split; [lia|]. split; [lia|reflexivity].
    + unfold inGrid. lia.
    + left. unfold onRing, inGrid. lia.
Defined.

(** C2 (as the specification states it) fails.  In [whiteWithDot] the
    white pixel [(3, 4)] lies in the sampled band and its colour is within
    the threshold of the background colour, but it is next to the black
    pixel: the Sobel term alone lifts its combined metric over the
    threshold, and it stays opaque. *)
Lemma border_pixel_beside_edge_stays_opaque :
  inBorderBand 10 10 3 4
  /\ gt (colorDist whiteWithDot 10 (backgroundOf whiteWithDot 10 10) 3 4)
        (thresholdOf whiteWithDot 10 10) = false
  /\ exists out,
       processWatchImage whiteWithDot 10 10 = Some out
       /\ alphaAt out 10 3 4 = Some 255.
Proof.
  split; [|split].
  - unfold inBorderBand, inGrid.
    assert (borderWidth 10 10 = 10) as -> by (vm_compute; reflexivity). lia.
  - vm_compute; reflexivity.
  - eexists. split; vm_compute; reflexivity.
Qed.

(** C3. In the mask the builder produces, an interior pixel is foreground
    exactly when [colorDistance + min(255, edgeMagnitude) / 255 * 80]
    exceeds the adaptive threshold [32 + sqrt(variance) * 0.7], and
    background otherwise.  Here [colorDistance] is the square root of the
    sum of the squared differences between the pixel's R, G and B and the
    background colour, weighted 0.3, 0.59 and 0.11, or 0.2, 0.2 and 0.6
    when the pixel is gold-like (R > 180, G > 140, R > B + 30); and
    [edgeMagnitude] is [sqrt(Gx^2 + Gy^2)] for the two 3x3 Sobel sums [Gx]
    and [Gy] of the mean intensities [(R + G + B) / 3] of the pixel and
    its eight neighbours, added up row by row from 0 as the loops do. *)
Theorem buildMask_rule (data : list Z) (width height : Z) (mask : list Z)
  (x y : Z) :
  isInterior width height x y ->
  let avgBg := backgroundOf data width height in
  let variance :=
    calculateColorVariance (borderSamples data width height) avgBg in
  let threshold := (32 + sqrt variance * 0.7)%float in
  let r := chan data ((y * width + x) * 4) in
  let g := chan data ((y * width + x) * 4 + 1) in
  let b := chan data ((y * width + x) * 4 + 2) in
  let goldLike := gt r 180 && gt g 140 && gt r (b + 30) in
  let rWeight := if goldLike then 0.2%float else 0.3%float in
  let gWeight := if goldLike then 0.2%float else 0.59%float in
  let bWeight := if goldLike then 0.6%float else 0.11%float in
  let colorDistance :=
    sqrt ((r - c_r avgBg) * (r - c_r avgBg) * rWeight
          + (g - c_g avgBg) * (g - c_g avgBg) * gWeight
          + (b - c_b avgBg) * (b - c_b avgBg) * bWeight)%float in
  let intensity (dx dy : Z) :=
    ((chan data (((y + dy) * width + (x + dx)) * 4)
      + chan data (((y + dy) * width + (x + dx)) * 4 + 1)
      + chan data (((y + dy) * width + (x + dx)) * 4 + 2)) / 3)%float in
  let nw := intensity (-1) (-1) in
  let n := intensity 0 (-1) in
  let ne := intensity 1 (-1) in
  let w := intensity (-1) 0 in
  let c := intensity 0 0 in
  let e := intensity 1 0 in
  let sw := intensity (-1) 1 in
  let s := intensity 0 1 in
  let se := intensity 1 1 in
  let Gx := (0 + nw * -1 + n * 0 + ne * 1
               + w * -2 + c * 0 + e * 2
               + sw * -1 + s * 0 + se * 1)%float in
  let Gy := (0 + nw * -1 + n * -2 + ne * -1
               + w * 0 + c * 0 + e * 0
               + sw * 1 + s * 2 + se * 1)%float in
  let edge := sqrt (Gx * Gx + Gy * Gy)%float in
  let metric := (colorDistance + Math_min 255 edge / 255 * 80)%float in
  let built :=
    buildMask data width height mask avgBg (thresholdOf data width height) in
  thresholdOf data width height = threshold
  /\ (labelAt built width x y = Some 1 <-> gt metric threshold = true)
  /\ (labelAt built width x y = Some 0 <-> gt metric threshold = false).
Proof.
  intros Hint avgBg variance threshold r g b goldLike rWeight gWeight bWeight
    colorDistance intensity nw n ne w c e sw s se Gx Gy edge metric built.
  split; [reflexivity|].
  pose proof (buildMask_interior data width height mask avgBg
                (thresholdOf data width height) x y Hint) as Hlabel.
  change (edgeMagnitude data width x y) with edge in Hlabel.
  change (colorDist data width avgBg x y) with colorDistance in Hlabel.
  change (combinedMetric edge colorDistance) with metric in Hlabel.
  change (thresholdOf data width height) with threshold in Hlabel at 2.
  fold built in Hlabel. rewrite Hlabel.
  destruct (gt metric threshold); split; split; congruence.
Qed.

Lemma buildMask_rule_witness :
  labelAt (buildMask whiteWithDot 10 10 (replicate 100 0)
                     (backgroundOf whiteWithDot 10 10)
                     (thresholdOf whiteWithDot 10 10)) 10 3 4 = Some 1
  /\ labelAt (buildMask whiteWithDot 10 10 (replicate 100 0)
                        (backgroundOf whiteWithDot 10 10)
                        (thresholdOf whiteWithDot 10 10)) 10 4 4 = Some 1
  /\ labelAt (buildMask whiteWithDot 10 10 (replicate 100 0)
                        (backgroundOf whiteWithDot 10 10)
                        (thresholdOf whiteWithDot 10 10)) 10 1 1 = Some 0.
Proof.
  split; [|split].
  - apply (buildMask_rule whiteWithDot 10 10 (replicate 100 0) 3 4).
    + unfold isInterior. lia.
    + now vm_compute.
  - apply (buildMask_rule whiteWithDot 10 10 (replicate 100 0) 4 4).
    + unfold isInterior. lia.
    + now vm_compute.
  - apply (buildMask_rule whiteWithDot 10 10 (replicate 100 0) 1 1).
    + unfold isInterior. lia.
    + now vm_compute.
Defined.

(** C4. The dilation pass reads the labels it was given and writes a
    copy, so every traversal order of the interior pixels produces the
    mask the loops produce; and a pixel is foreground afterwards exactly
    when it was foreground before, or it is an interior pixel that was
    background, has a foreground 8-neighbour, and is gold-like or differs
    from the background mean by more than [threshold / 2] in some channel. *)
Theorem dilate_snapshot_semantics (data : list Z) (width height : Z)
  (mask : list Z) (avgBg : Color) (threshold : float) :
  Z.of_nat (length mask) = width * height ->
  (forall pixels, pixels ≡ₚ interior width height ->
     dilateOver pixels data width mask avgBg threshold
     = dilate data width height mask avgBg threshold)
  /\ forall x y, inGrid width height x y ->
       let r := chan data ((y * width + x) * 4) in
       let g := chan data ((y * width + x) * 4 + 1) in
       let b := chan data ((y * width + x) * 4 + 2) in
       labelAt (dilate data width height mask avgBg threshold) width x y
       = Some 1
       <-> labelAt mask width x y = Some 1
           \/ (isInterior width height x y
               /\ labelAt mask width x y = Some 0
               /\ (exists x' y', adjacent8 x y x' y'
                                 /\ labelAt mask width x' y' = Some 1)
               /\ ((gt r 180 = true /\ gt g 140 = true
                    /\ gt r (b + 30) = true)
                   \/ gt (abs (r - c_r avgBg)) (threshold / 2) = true
                   \/ gt (abs (g - c_g avgBg)) (threshold / 2) = true
                   \/ gt (abs (b - c_b avgBg)) (threshold / 2) = true)).
Proof.
  intros Hlen. split.
  { intros pixels Hperm. now apply dilateOver_permutation. }
  intros x y Hgrid r g b.
  pose proof (promotes_spec data width mask avgBg threshold x y) as Hp.
  cbn zeta in Hp. fold r g b in Hp.
  destruct (decide (isInterior width height x y)) as [Hint|Hext].
  - destruct (promotes data width mask avgBg threshold x y) eqn:Hpr.
    + rewrite dilate_promoted by easy. split; [|easy].
      intros _. right. split; [easy|]. now apply Hp.
    + rewrite dilate_kept by easy. split; [now left|].
      intros [?|[_ Hq]]; [easy|]. apply Hp in Hq. congruence.
  - rewrite dilate_kept by easy. split; [now left|].
    intros [?|[? _]]; easy.
Qed.

Lemma dilate_snapshot_semantics_witness :
  labelAt (dilate goldCentre 3 3 cornerSeed grey 32) 3 1 1 = Some 1.
Proof.
  apply (proj2 (dilate_snapshot_semantics goldCentre 3 3 cornerSeed grey 32
                  eq_refl) 1 1).
  - unfold inGrid. lia.
  - right. split; [unfold isInterior; lia|]. split; [reflexivity|].
    split.
    + exists 0, 0. split; [|reflexivity].
      unfold adjacent8. repeat split; try lia. discriminate.
    + left. now vm_compute.
Defined.

(** C5. An image whose pixels all have the same colour comes out fully
    transparent.  (Sides of at most [2^20] pixels keep the sums of the
    border statistics exact.) *)
Theorem uniform_image_transparent (data : list Z) (width height r g b : Z) :
  isImage data width height ->
  width <= 2 ^ 20 -> height <= 2 ^ 20 ->
  0 <= r <= 255 -> 0 <= g <= 255 -> 0 <= b <= 255 ->
  uniform data width height r g b ->
  exists out,
    processWatchImage data width height = Some out
    /\ forall x y, inGrid width height x y -> alphaAt out width x y = Some 0.
Proof.
  intros Himg Hwmax Hhmax Hr Hg Hb Huni.
  apply processWatchImage_all_background; [easy|].
  intros x y Hgrid. now apply (buildMask_uniform data width height r g b).
Qed.

Lemma uniform_image_transparent_witness :
  exists out,
    processWatchImage (solid 144 200 160 90) 12 12 = Some out
    /\ forall x y, inGrid 12 12 x y -> alphaAt out 12 x y = Some 0.
Proof.
  apply (uniform_image_transparent (solid 144 200 160 90) 12 12 200 160 90).
  - unfold isImage. split; [lia|]. split; [lia|reflexivity].
  - lia.
  - lia.
  - lia.
  - lia.
  - lia.
  - exact (solid_uniform 12 12 200 160 90).
Defined.

(** C6. The dilation pass never turns a foreground pixel into
    background: the foreground set only grows. *)
Theorem dilate_monotone (data : list Z) (width height : Z) (mask : list Z)
  (avgBg : Color) (threshold : float) (x y : Z) :
  Z.of_nat (length mask) = width * height ->
  inGrid width height x y ->
  labelAt mask width x y = Some 1 ->
  labelAt (dilate data width height mask avgBg threshold) width x y = Some 1.
Proof.
  intros Hlen Hgrid Hfg. rewrite dilate_kept; [easy|easy|].
  intros _. unfold promotes, label_is. unfold labelAt in Hfg.
  now rewrite Hfg.
Qed.

Lemma dilate_monotone_witness :
  labelAt (dilate goldCentre 3 3 cornerSeed grey 32) 3 0 0 = Some 1.
Proof.
  apply (dilate_monotone goldCentre 3 3 cornerSeed grey 32 0 0).
  - reflexivity.
  - unfold inGrid. lia.
  - reflexivity.
Defined.

(** C7. Hole filling is idempotent: [floodFillHoles] returns for every
    mask, and applied to its own result it returns that result again. *)
Theorem floodFillHoles_idempotent (mask : list Z) (width height : Z) :
  0 < width -> 0 < height ->
  exists filled,
    floodFillHoles mask width height = Some filled
    /\ floodFillHoles filled width height = Some filled.
Proof.
  intros Hw Hh.
  destruct (floodFillHoles_spec mask width height Hw Hh)
    as (st & _ & Hout & Hmarks & Hlabels).
  set (filled := fillUnmarked mask (isBackground st)) in *.
  exists filled. split; [easy|].
  destruct (floodFillHoles_spec filled width height Hw Hh)
    as (st2 & _ & Hout2 & Hmarks2 & _).
  rewrite Hout2. f_equal. apply js_get_ext.
  { unfold fillUnmarked. apply length_imap. }
  intros i _. rewrite fillUnmarked_label.
  destruct (js_get filled i) as [v|] eqn:Hv; [cbn|easy].
  destruct (Z.eqb_spec v 0) as [->|Hne]; [|easy]. cbn.
  rewrite bool_decide_eq_true_2; [easy|].
  (* a cell that is still background after the first pass was marked *)
  unfold filled in Hv. rewrite fillUnmarked_label in Hv.
  destruct (js_get mask i) as [u|]; [cbn in Hv|easy].
  destruct (bool_decide (i ∈ isBackground st)) eqn:Hin.
  - apply bool_decide_eq_true in Hin.
    apply Hmarks in Hin as (x & y & -> & Hreach).
    apply Hmarks2. exists x, y. split; [easy|].
    apply floodReach_filled; try easy.
    intros x' y' Hg Hr. destruct (Hlabels x' y' Hg) as (_ & Hkeep & _).
    exact (Hkeep Hr).
  - rewrite andb_true_r in Hv. destruct (Z.eqb_spec u 0); congruence.
Qed.

Lemma floodFillHoles_idempotent_witness :
  exists filled,
    floodFillHoles enclosedHole 5 5 = Some filled
    /\ floodFillHoles filled 5 5 = Some filled.
Proof.
  apply (floodFillHoles_idempotent enclosedHole 5 5); reflexivity.
Defined.

(** C8. Whatever its colour, a pixel of the outermost ring is labeled
    background by the mask builder, by the refiner and by the hole filler,
    and its alpha is 0 in the output. *)
Theorem ring_stays_background (data : list Z) (width height x y : Z) :
  isImage data width height -> onRing width height x y ->
  let avgBg := backgroundOf data width height in
  let threshold := thresholdOf data width height in
  let built := buildMask data width height
                 (replicate (Z.to_nat (width * height)) 0) avgBg threshold in
  let dilated := dilate data width height built avgBg threshold in
  exists filled out,
    floodFillHoles dilated width height = Some filled
    /\ processWatchImage data width height = Some out
    /\ labelAt built width x y = Some 0
    /\ labelAt dilated width x y = Some 0
    /\ labelAt filled width x y = Some 0
    /\ alphaAt out width x y = Some 0.
Proof.
  intros Himg Hring avgBg threshold built dilated.
  destruct (ring_background data width height x y Himg Hring)
    as [Hbuilt Hdilated].
  destruct (processWatchImage_background data width height x y Himg
              (proj1 Hring) Hdilated (reach_ring _ _ _ _ _ Hring))
    as (filled & out & Hfill & Hout & Hfilled & Halpha).
  exists filled, out. repeat split; assumption.
Qed.

Lemma ring_stays_background_witness :
  exists out,
    processWatchImage blackCorner 10 10 = Some out
    /\ alphaAt out 10 0 0 = Some 0.
Proof.
  destruct (ring_stays_background blackCorner 10 10 0 0)
    as (filled & out & _ & Hout & _ & _ & _ & Halpha).
  - unfold isImage. split; [lia|]. split; [lia|reflexivity].
  - unfold onRing, inGrid. lia.
  - exists out. exact (conj Hout Halpha).
Defined.

(** C9 fails on a 1x1 image: the band is 10 pixels thick, so the sampler
    reads rows 1 to 9, which the buffer does not have; the third sample is
    already three times [undefined], and the threshold computed from the
    samples is [NaN]. *)
Lemma borderSamples_read_past_small_image :
  isImage (pixel 10 20 30) 1 1
  /\ borderSamples (pixel 10 20 30) 1 1 !! 2%nat
     = Some (mkSample None None None)
  /\ thresholdOf (pixel 10 20 30) 1 1 = nan.
Proof.
  split; [|split].
  - unfold isImage. split; [lia|]. split; [lia|reflexivity].
  - vm_compute; reflexivity.
  - vm_compute; reflexivity.
Qed.

(** C10. The compositor keeps the length of the buffer and the R, G and B
    bytes of every pixel; it sets alpha to 0 where the mask is 0 and leaves
    alpha as it was everywhere else. *)
Theorem applyMask_frame (data mask : list Z) (k : Z) :
  0 <= k -> 4 * k + 3 < Z.of_nat (length data) ->
  let out := applyMask data mask in
  length out = length data
  /\ js_get out (4 * k) = js_get data (4 * k)
  /\ js_get out (4 * k + 1) = js_get data (4 * k + 1)
  /\ js_get out (4 * k + 2) = js_get data (4 * k + 2)
  /\ (js_get mask k = Some 0 -> js_get out (4 * k + 3) = Some 0)
  /\ (js_get mask k <> Some 0 ->
      js_get out (4 * k + 3) = js_get data (4 * k + 3)).
Proof.
  intros Hk Hlen out. subst out.
  split; [apply length_applyMask|].
  split; [rewrite <- (Z.add_0_r (4 * k)); apply applyMask_colour; lia|].
  split; [apply applyMask_colour; lia|].
  split; [apply applyMask_colour; lia|].
  split; [now apply applyMask_alpha_background|].
  apply applyMask_alpha_foreground.
Qed.

Lemma applyMask_frame_witness :
  let data := pixel 1 2 3 ++ pixel 4 5 6 in
  applyMask data [0; 1] = [1; 2; 3; 0; 4; 5; 6; 255]
  /\ js_get (applyMask data [0; 1]) 3 = Some 0.
Proof.
  split; [reflexivity|].
  apply (applyMask_frame (pixel 1 2 3 ++ pixel 4 5 6) [0; 1] 0);
    [lia|cbn; lia|reflexivity].
Defined.

(** ** Further properties of the pipeline *)

(** *** The sampled band *)

Lemma sampleOf_index data width height p :
  0 < width -> 0 <= p < width * height ->
  inGrid width height (p mod width) (p / width)
  /\ sampleOf data width (p mod width) (p / width)
     = mkSample (js_get data (p * 4)) (js_get data (p * 4 + 1))
                (js_get data (p * 4 + 2)).
Proof.
  intros Hw Hp. split.
  - unfold inGrid. split; [apply Z.mod_pos_bound; lia|].
    split; [apply Z.div_pos; lia|]. apply Z.div_lt_upper_bound; lia.
  - unfold sampleOf. cbn zeta.
    replace (p / width * width + p mod width) with p; [easy|].
    rewrite (Z.div_mod p width) at 1 by lia. lia.
Qed.

(** X1. When the image is at least as high as the band is thick, the
    border sampler reads exactly the border band: every sample is the
    colour of a pixel of the band, and the colour of every pixel of the
    band is among the samples. *)
Theorem sampler_covers_border_band (data : list Z) (width height : Z) :
  0 < width -> borderWidth width height <= height ->
  (forall s, s ∈ borderSamples data width height ->
     exists x y, inBorderBand width height x y
                 /\ s = sampleOf data width x y)
  /\ (forall x y, inBorderBand width height x y ->
        sampleOf data width x y ∈ borderSamples data width height).
Proof.
  intros Hw Hbw. pose proof (borderWidth_ge width height) as Hge. split.
  - intros s Hs.
    destruct (Z.lt_ge_cases width (borderWidth width height)) as [Hnarrow|Hwide].
    + (* every pixel of a narrow image lies in the band *)
      destruct (borderSamples_in_bounds data width height s Hw Hbw Hs)
        as (p & Hp & ->).
      destruct (sampleOf_index data width height p Hw Hp) as [Hgrid Heq].
      exists (p mod width), (p / width). split; [|easy].
      unfold inBorderBand. cbn zeta. split; [easy|].
      unfold inGrid in Hgrid. lia.
    + apply elem_of_borderSamples in Hs. cbn zeta in Hs.
      unfold inBorderBand, inGrid. cbn zeta.
      set (bw := borderWidth width height) in *.
      destruct Hs
        as [(x & y & Hx & Hy & [-> | ->])|(x & y & Hx & Hy & [-> | ->])].
      * exists x, y. split; [lia|easy].
      * exists x, (height - y - 1). split; [lia|easy].
      * exists x, y. split; [lia|easy].
      * exists (width - x - 1), y. split; [lia|easy].
  - intros x y [[Hx Hy] Hband]. cbn zeta in Hband.
    rewrite borderSamples_bind. cbn zeta.
    set (bw := borderWidth width height) in *.
    apply elem_of_app.
    destruct (Z.lt_ge_cases y bw) as [Htop|Hntop].
    { left. apply list_elem_of_bind. exists x.
      split; [|apply elem_of_seqZ; lia].
      apply list_elem_of_bind. exists y.
      split; [left|apply elem_of_seqZ; lia]. }
    destruct (Z.le_gt_cases (height - bw) y) as [Hbottom|Hnbottom].
    { left. apply list_elem_of_bind. exists x.
      split; [|apply elem_of_seqZ; lia].
      apply list_elem_of_bind. exists (height - y - 1).
      split; [|apply elem_of_seqZ; lia].
      replace (height - (height - y - 1) - 1) with y by lia.
      right. left. }
    right. apply list_elem_of_bind. exists y.
    split; [|apply elem_of_seqZ; lia].
    destruct (Z.lt_ge_cases x bw) as [Hleft|Hnleft].
    { apply list_elem_of_bind. exists x.
      split; [left|apply elem_of_seqZ; lia]. }
    apply list_elem_of_bind. exists (width - x - 1).
    split; [|apply elem_of_seqZ; lia].
    replace (width - (width - x - 1) - 1) with x by lia.
    right. left.
Qed.

Lemma sampler_covers_border_band_witness :
  sampleOf whiteWithDot 10 3 7 ∈ borderSamples whiteWithDot 10 10.
Proof.
  apply (sampler_covers_border_band whiteWithDot 10 10);
    [lia|vm_compute; discriminate|].
  unfold inBorderBand, inGrid. cbn zeta.
  change (borderWidth 10 10) with 10. lia.
Defined.

(** X2. Whatever the buffer holds, the sampler returns
    [2 * width * b + 2 * b * max 0 (height - 2 * b)] samples for a band of
    thickness [b]: at least twenty, so the mean is never taken over an
    empty list and the variance never over a single sample. *)
Theorem sampler_count (data : list Z) (width height : Z) :
  0 < width ->
  let bw := borderWidth width height in
  Z.of_nat (length (borderSamples data width height))
  = 2 * width * bw + 2 * bw * Z.max 0 (height - bw - bw)
  /\ 20 <= Z.of_nat (length (borderSamples data width height)).
Proof.
  intros Hw bw. pose proof (borderWidth_ge width height) as Hge.
  pose proof (length_borderSamples data width height ltac:(lia)) as Hlen.
  cbn zeta in Hlen. fold bw in Hlen, Hge. split; [easy|].
  rewrite Hlen. nia.
Qed.

Lemma sampler_count_witness :
  Z.of_nat (length (borderSamples (pixel 10 20 30) 1 1)) = 20
  /\ 20 <= Z.of_nat (length (borderSamples (pixel 10 20 30) 1 1)).
Proof.
  apply (sampler_count (pixel 10 20 30) 1 1). lia.
Defined.

(** *** The thickness of the band *)

(** Whether the rounded product [m * 0.03] has the floor of the exact
    three percent of [m]. *)
Definition threePercent (m : Z) : bool :=
  Math_floor (fromZ m * 0.03)%float =? 3 * m / 100.

(** It has, for every side below 4096: checked by evaluation. *)
Lemma threePercent_exact m : 0 <= m < 4096 -> threePercent m = true.
Proof.
  intros Hm.
  assert (forallb threePercent (seqZ 0 4096) = true) as Hall
      by (vm_compute; reflexivity).
  rewrite forallb_forall in Hall. apply Hall.
  apply list_elem_of_In, elem_of_seqZ. lia.
Qed.

(** X3. The thickness of the band is the exact three percent rule on
    every image whose smaller side is below 4096 pixels: the rounding of
    [min(width, height) * 0.03] never changes its floor, so the band is
    [max 10 (3 * min(width, height) / 100)] pixels thick, and 10 pixels
    up to a smaller side of 366. *)
Theorem borderWidth_three_percent (width height : Z) :
  0 <= Z.min width height < 4096 ->
  borderWidth width height = Z.max 10 (3 * Z.min width height / 100)
  /\ (Z.min width height < 367 -> borderWidth width height = 10).
Proof.
  intros Hside.
  assert (borderWidth width height = Z.max 10 (3 * Z.min width height / 100))
    as Hbw.
  { unfold borderWidth.
    pose proof (threePercent_exact (Z.min width height) Hside) as Hexact.
    unfold threePercent in Hexact. apply Z.eqb_eq in Hexact.
    now rewrite Hexact. }
  split; [exact Hbw|]. intros Hsmall. rewrite Hbw.
  assert (3 * Z.min width height / 100 <= 10); [|lia].
  apply Z.lt_succ_r. apply Z.div_lt_upper_bound; lia.
Qed.

Lemma borderWidth_three_percent_witness :
  borderWidth 3024 4032 = Z.max 10 (3 * Z.min 3024 4032 / 100)
  /\ (Z.min 3024 4032 < 367 -> borderWidth 3024 4032 = 10).
Proof.
  apply (borderWidth_three_percent 3024 4032). lia.
Defined.

(** *** Statistics of samples with an undefined channel *)

(** The three running sums of [calculateAverageColor]. *)
Definition channelSums (acc : float * float * float) (samples : list Sample)
  : float * float * float :=
  foldl (fun '(r, g, b) s =>
           ((r + toNumber (s_r s))%float,
            (g + toNumber (s_g s))%float,
            (b + toNumber (s_b s))%float))
        acc samples.

Lemma channelSums_nan_stays r g b samples :
  let '(r', g', b') := channelSums (r, g, b) samples in
  (r = nan -> r' = nan) /\ (g = nan -> g' = nan) /\ (b = nan -> b' = nan).
Proof.
  revert r g b. induction samples as [|s samples IH]; intros r g b; [easy|].
  cbn [channelSums foldl].
  specialize (IH (r + toNumber (s_r s))%float (g + toNumber (s_g s))%float
                 (b + toNumber (s_b s))%float).
  unfold channelSums in IH.
  destruct (foldl _ _ samples) as [[r' g'] b'].
  destruct IH as (Hr & Hg & Hb).
  split; [|split]; intros ->; [apply Hr|apply Hg|apply Hb]; apply add_nan_l.
Qed.

Lemma channelSums_undefined acc samples s :
  s ∈ samples ->
  let '(r', g', b') := channelSums acc samples in
  (s_r s = None -> r' = nan) /\ (s_g s = None -> g' = nan)
  /\ (s_b s = None -> b' = nan).
Proof.
  revert acc. induction samples as [|s' samples IH]; intros acc Hin.
  - now apply elem_of_nil in Hin.
  - apply elem_of_cons in Hin as [<-|Hin]; [|now apply IH].
    destruct acc as [[r g] b]. cbn [channelSums foldl].
    pose proof (channelSums_nan_stays
                  (r + toNumber (s_r s))%float (g + toNumber (s_g s))%float
                  (b + toNumber (s_b s))%float samples) as Hstays.
    unfold channelSums in Hstays.
    destruct (foldl _ _ samples) as [[r' g'] b'].
    destruct Hstays as (Hr & Hg & Hb).
    split; [|split]; intros Hnone; [apply Hr|apply Hg|apply Hb];
      rewrite Hnone; apply add_nan_r.
Qed.

Lemma calculateAverageColor_undefined samples s :
  s ∈ samples ->
  let avg := calculateAverageColor samples in
  (s_r s = None -> c_r avg = nan) /\ (s_g s = None -> c_g avg = nan)
  /\ (s_b s = None -> c_b avg = nan).
Proof.
  intros Hin. unfold calculateAverageColor.
  destruct samples as [|s' samples]; [now apply elem_of_nil in Hin|].
  pose proof (channelSums_undefined (0%float, 0%float, 0%float) _ _ Hin)
    as Hsums.
  unfold channelSums in Hsums.
  destruct (foldl _ _ (s' :: samples)) as [[r g] b].
  destruct Hsums as (Hr & Hg & Hb). cbn [c_r c_g c_b].
  split; [|split]; intros Hnone;
    [rewrite Hr|rewrite Hg|rewrite Hb]; try easy; apply div_nan_l.
Qed.

Lemma squaredDiff_nan avg samples acc :
  c_r avg = nan \/ c_g avg = nan \/ c_b avg = nan ->
  samples <> [] \/ acc = nan ->
  foldl (fun acc s =>
           let dr := (toNumber (s_r s) - c_r avg)%float in
           let dg := (toNumber (s_g s) - c_g avg)%float in
           let db := (toNumber (s_b s) - c_b avg)%float in
           (acc + (dr * dr + dg * dg + db * db))%float)
        acc samples = nan.
Proof.
  intros Havg. revert acc.
  induction samples as [|s samples IH]; intros acc Hne.
  - now destruct Hne.
  - cbn [foldl]. apply IH. right.
    destruct Havg as [-> |[-> | ->]]; rewrite sub_nan_r, mul_nan_l.
    + now rewrite !add_nan_l, add_nan_r.
    + now rewrite add_nan_r, add_nan_l, add_nan_r.
    + now rewrite !add_nan_r.
Qed.

Lemma adaptiveThreshold_nan : adaptiveThreshold nan = nan.
Proof. reflexivity. Qed.

Lemma thresholdOf_undefined samples s :
  s ∈ samples -> 1 < Z.of_nat (length samples) ->
  s_r s = None \/ s_g s = None \/ s_b s = None ->
  adaptiveThreshold
    (calculateColorVariance samples (calculateAverageColor samples)) = nan.
Proof.
  intros Hin Hlen Hnone.
  destruct (calculateAverageColor_undefined samples s Hin) as (Hr & Hg & Hb).
  unfold calculateColorVariance.
  destruct (Z.leb_spec (Z.of_nat (length samples)) 1); [lia|].
  rewrite squaredDiff_nan.
  - now rewrite div_nan_l.
  - tauto.
  - left. intros ->. now apply elem_of_nil in Hin.
Qed.

(** X4. The statistics of a constant border are exact: when all the
    samples are the same colour of three bytes, the mean is that colour,
    the variance is 0 and the adaptive threshold is the base threshold
    32, without any rounding error. *)
Theorem statistics_of_constant_samples (samples : list Sample) (r g b : Z) :
  0 <= r <= 255 -> 0 <= g <= 255 -> 0 <= b <= 255 ->
  samples <> [] -> Z.of_nat (length samples) * 255 < 2 ^ 53 ->
  Forall (eq (mkSample (Some r) (Some g) (Some b))) samples ->
  let avg := calculateAverageColor samples in
  avg = mkColor (fromZ r) (fromZ g) (fromZ b)
  /\ calculateColorVariance samples avg = 0%float
  /\ adaptiveThreshold (calculateColorVariance samples avg) = 32%float.
Proof.
  intros Hr Hg Hb Hne Hbound Hall avg.
  assert (avg = uniformColor r g b) as Havg
      by now apply calculateAverageColor_uniform.
  assert (calculateColorVariance samples avg = 0%float) as Hvar.
  { rewrite Havg. apply calculateColorVariance_uniform; try easy. lia. }
  split; [exact Havg|]. split; [exact Hvar|].
  rewrite Hvar. reflexivity.
Qed.

Lemma statistics_of_constant_samples_witness :
  calculateAverageColor (replicate 3 (mkSample (Some 10) (Some 20) (Some 30)))
  = mkColor (fromZ 10) (fromZ 20) (fromZ 30)
  /\ calculateColorVariance
       (replicate 3 (mkSample (Some 10) (Some 20) (Some 30)))
       (calculateAverageColor
          (replicate 3 (mkSample (Some 10) (Some 20) (Some 30))))
     = 0%float
  /\ adaptiveThreshold
       (calculateColorVariance
          (replicate 3 (mkSample (Some 10) (Some 20) (Some 30)))
          (calculateAverageColor
             (replicate 3 (mkSample (Some 10) (Some 20) (Some 30)))))
     = 32%float.
Proof.
  apply (statistics_of_constant_samples
           (replicate 3 (mkSample (Some 10) (Some 20) (Some 30))) 10 20 30);
    [lia|lia|lia|discriminate|cbn; lia|].
  repeat constructor.
Defined.

(** X5. One sample with an [undefined] channel poisons the statistics:
    the mean of that channel is [NaN], and so are the variance and the
    adaptive threshold. *)
Theorem undefined_channel_poisons_statistics (samples : list Sample)
  (s : Sample) :
  s ∈ samples -> 1 < Z.of_nat (length samples) ->
  s_r s = None \/ s_g s = None \/ s_b s = None ->
  let avg := calculateAverageColor samples in
  (s_r s = None -> c_r avg = nan)
  /\ (s_g s = None -> c_g avg = nan)
  /\ (s_b s = None -> c_b avg = nan)
  /\ calculateColorVariance samples avg = nan
  /\ adaptiveThreshold (calculateColorVariance samples avg) = nan.
Proof.
  intros Hin Hlen Hnone avg.
  destruct (calculateAverageColor_undefined samples s Hin) as (Hr & Hg & Hb).
  fold avg in Hr, Hg, Hb.
  assert (calculateColorVariance samples avg = nan) as Hvar.
  { unfold calculateColorVariance.
    destruct (Z.leb_spec (Z.of_nat (length samples)) 1); [lia|].
    rewrite squaredDiff_nan; [apply div_nan_l|tauto|].
    left. intros ->. now apply elem_of_nil in Hin. }
  split; [easy|]. split; [easy|]. split; [easy|]. split; [easy|].
  rewrite Hvar. apply adaptiveThreshold_nan.
Qed.

Lemma undefined_channel_poisons_statistics_witness :
  c_g (calculateAverageColor
         [mkSample (Some 1) None (Some 3); mkSample (Some 4) (Some 5) (Some 6)])
  = nan
  /\ adaptiveThreshold
       (calculateColorVariance
          [mkSample (Some 1) None (Some 3);
           mkSample (Some 4) (Some 5) (Some 6)]
          (calculateAverageColor
             [mkSample (Some 1) None (Some 3);
              mkSample (Some 4) (Some 5) (Some 6)]))
     = nan.
Proof.
  destruct (undefined_channel_poisons_statistics
              [mkSample (Some 1) None (Some 3);
               mkSample (Some 4) (Some 5) (Some 6)]
              (mkSample (Some 1) None (Some 3)))
    as (_ & Hg & _ & _ & Hthr);
    [left|cbn; lia|right; left; reflexivity|].
  split; [apply Hg; reflexivity|exact Hthr].
Defined.

(** X6. An image that is lower than the band is thick (in particular
    every image of fewer than ten rows) gets the threshold [NaN] and comes
    out fully transparent, whatever its colours. *)
Theorem short_image_comes_out_transparent (data : list Z)
  (width height : Z) :
  isImage data width height ->
  height < borderWidth width height ->
  thresholdOf data width height = nan
  /\ exists out,
       processWatchImage data width height = Some out
       /\ length out = length data
       /\ forall x y, inGrid width height x y ->
            alphaAt out width x y = Some 0.
Proof.
  intros Himg Hbw. pose proof Himg as (Hw & Hh & Hlen). split.
  - unfold thresholdOf. cbn zeta.
    apply thresholdOf_undefined with (s := mkSample None None None).
    + now apply borderSamples_out_of_bounds.
    + pose proof (length_borderSamples data width height ltac:(lia)) as Hn.
      pose proof (borderWidth_ge width height) as Hge.
      cbn zeta in Hn. rewrite Hn. nia.
    + now left.
  - destruct (processWatchImage_short_image data width height Himg Hbw)
      as (out & Hout & Halpha).
    exists out. split; [easy|]. split; [|easy].
    unfold processWatchImage in Hout.
    destruct (improvedWatchMask _ _ _ _ _ _) as [mask|]; [|easy].
    cbn in Hout. injection Hout as <-. apply length_applyMask.
Qed.

Lemma short_image_comes_out_transparent_witness :
  thresholdOf (solid 30 9 9 9) 10 3 = nan
  /\ exists out,
       processWatchImage (solid 30 9 9 9) 10 3 = Some out
       /\ length out = length (solid 30 9 9 9)
       /\ forall x y, inGrid 10 3 x y -> alphaAt out 10 x y = Some 0.
Proof.
  apply (short_image_comes_out_transparent (solid 30 9 9 9) 10 3).
  - unfold isImage. split; [lia|]. split; [lia|reflexivity].
  - vm_compute; reflexivity.
Defined.

(** *** Pockets *)

(** What the flood fill reaches is a ring pixel or is labeled background. *)
Lemma floodReach_ring_or_background mask width height x y :
  floodReach mask width height x y ->
  onRing width height x y \/ labelAt mask width x y = Some 0.
Proof. intros [x0 y0 Hring|x0 y0 x' y' _ _ _ Hlabel]; [now left|now right]. Qed.

Lemma pocket_not_reached mask width height (pocket : Z -> Z -> Prop) :
  (forall x y, pocket x y -> isInterior width height x y) ->
  (forall x y x' y', pocket x y -> adjacent4 x y x' y' ->
     pocket x' y'
     \/ (isInterior width height x' y' /\ labelAt mask width x' y' <> Some 0)) ->
  forall x y, floodReach mask width height x y -> ~ pocket x y.
Proof.
  intros Hinside Hwall.
  induction 1 as [x y Hring|x y x' y' Hreach IH Hadj Hgrid Hlabel];
    intros Hpocket.
  - apply (ring_not_interior _ _ _ _ Hring). now apply Hinside.
  - assert (adjacent4 x' y' x y) as Hback.
    { unfold adjacent4 in *. lia. }
    destruct (Hwall x' y' x y Hpocket Hback) as [Hin|[Hint Hfg]]; [easy|].
    destruct (floodReach_ring_or_background _ _ _ _ _ Hreach)
      as [Hring|Hbg]; [|easy].
    now apply (ring_not_interior _ _ _ _ Hring).
Qed.

(** X7. A pocket of interior pixels enclosed by interior foreground
    pixels is filled: [floodFillHoles] returns, every background pixel of
    the pocket becomes foreground and the other pixels of the pocket keep
    their labels. *)
Theorem floodFillHoles_fills_enclosed_pocket (mask : list Z)
  (width height : Z) (pocket : Z -> Z -> Prop) :
  0 < width -> 0 < height ->
  (forall x y, pocket x y -> isInterior width height x y) ->
  (forall x y x' y', pocket x y -> adjacent4 x y x' y' ->
     pocket x' y'
     \/ (isInterior width height x' y' /\ labelAt mask width x' y' <> Some 0)) ->
  exists filled,
    floodFillHoles mask width height = Some filled
    /\ forall x y, pocket x y ->
         labelAt filled width x y
         = if decide (labelAt mask width x y = Some 0) then Some 1
           else labelAt mask width x y.
Proof.
  intros Hw Hh Hinside Hwall.
  destruct (floodFillHoles_spec mask width height Hw Hh)
    as (st & _ & Hout & _ & Hlabels).
  exists (fillUnmarked mask (isBackground st)). split; [easy|].
  intros x y Hpocket.
  destruct (Hlabels x y (interior_inGrid _ _ _ _ (Hinside x y Hpocket)))
    as (Hfill & _ & Hkeep).
  destruct (decide (labelAt mask width x y = Some 0)) as [Hbg|Hfg].
  - apply Hfill; [easy|]. intros Hreach.
    now apply (pocket_not_reached mask width height pocket Hinside Hwall x y).
  - now apply Hkeep.
Qed.

Lemma floodFillHoles_fills_enclosed_pocket_witness :
  exists filled,
    floodFillHoles enclosedHole 5 5 = Some filled
    /\ forall x y, x = 2 /\ y = 2 ->
         labelAt filled 5 x y
         = if decide (labelAt enclosedHole 5 x y = Some 0) then Some 1
           else labelAt enclosedHole 5 x y.
Proof.
  apply (floodFillHoles_fills_enclosed_pocket enclosedHole 5 5
           (fun x y => x = 2 /\ y = 2)); [lia|lia| |].
  - intros x y [-> ->]. unfold isInterior. lia.
  - intros x y x' y' [-> ->] Hadj. right. unfold adjacent4 in Hadj.
    unfold isInterior.
    destruct Hadj as [[-> [-> | ->]]|[-> [-> | ->]]];
      (split; [lia|vm_compute; discriminate]).
Defined.

(** *** The pipeline as a whole *)

Lemma processWatchImage_returns data width height :
  exists mask,
    improvedWatchMask data width height
      (replicate (Z.to_nat (width * height)) 0)
      (backgroundOf data width height) (thresholdOf data width height)
    = Some mask
    /\ processWatchImage data width height = Some (applyMask data mask).
Proof.
  unfold processWatchImage, improvedWatchMask, floodFillHoles.
  set (dilated := dilate _ _ _ _ _ _).
  destruct (floodFill_terminates dilated width height) as [st Hst].
  rewrite Hst. cbn. now eexists.
Qed.

(** X8. [processWatchImage] returns for every buffer and every size; the
    buffer keeps its length and the R, G and B bytes of every pixel, and
    the alpha of a pixel is either cleared or left as it was. *)
Theorem processWatchImage_frame (data : list Z) (width height : Z) :
  exists out,
    processWatchImage data width height = Some out
    /\ length out = length data
    /\ forall k, 0 <= k -> 4 * k + 3 < Z.of_nat (length data) ->
         js_get out (4 * k) = js_get data (4 * k)
         /\ js_get out (4 * k + 1) = js_get data (4 * k + 1)
         /\ js_get out (4 * k + 2) = js_get data (4 * k + 2)
         /\ (js_get out (4 * k + 3) = Some 0
             \/ js_get out (4 * k + 3) = js_get data (4 * k + 3)).
Proof.
  destruct (processWatchImage_returns data width height)
    as (mask & _ & Hout).
  exists (applyMask data mask). split; [easy|].
  split; [apply length_applyMask|].
  intros k Hk Hlen.
  pose proof (applyMask_colour data mask k 0 ltac:(lia)) as Hr.
  rewrite Z.add_0_r in Hr.
  split; [easy|]. split; [apply applyMask_colour; lia|].
  split; [apply applyMask_colour; lia|].
  destruct (decide (js_get mask k = Some 0)) as [Hbg|Hfg].
  - left. now apply applyMask_alpha_background.
  - right. now apply applyMask_alpha_foreground.
Qed.

(** X9. An interior pixel that the mask builder finds salient (its
    combined metric exceeds the threshold) is foreground in the final mask
    and keeps its alpha: neither the refiner nor the hole filler takes
    foreground away. *)
Theorem salient_pixel_stays_opaque (data : list Z) (width height x y : Z) :
  isImage data width height -> isInterior width height x y ->
  gt (combinedMetric
        (edgeMagnitude data width x y)
        (colorDist data width (backgroundOf data width height) x y))
     (thresholdOf data width height) = true ->
  exists mask out,
    improvedWatchMask data width height
      (replicate (Z.to_nat (width * height)) 0)
      (backgroundOf data width height) (thresholdOf data width height)
    = Some mask
    /\ processWatchImage data width height = Some out
    /\ labelAt mask width x y = Some 1
    /\ alphaAt out width x y = alphaAt data width x y.
Proof.
  intros (Hw & Hh & Hlen) Hint Hsalient.
  set (avgBg := backgroundOf data width height) in *.
  set (threshold := thresholdOf data width height) in *.
  set (mask0 := replicate (Z.to_nat (width * height)) 0).
  set (built := buildMask data width height mask0 avgBg threshold).
  set (dilated := dilate data width height built avgBg threshold).
  pose proof (interior_inGrid _ _ _ _ Hint) as Hgrid.
  assert (labelAt built width x y = Some 1) as Hbuilt.
  { unfold built. rewrite buildMask_interior by easy.
    fold avgBg threshold. now rewrite Hsalient. }
  assert (Z.of_nat (length built) = width * height) as Hlenb.
  { unfold built. rewrite length_buildMask;
      unfold mask0; rewrite length_replicate; nia. }
  assert (labelAt dilated width x y = Some 1) as Hdilated.
  { destruct (promotes data width built avgBg threshold x y) eqn:Hp.
    - now apply dilate_promoted with (height := height).
    - unfold dilated. rewrite dilate_kept; easy. }
  destruct (floodFillHoles_spec dilated width height Hw Hh)
    as (st & _ & Hout & _ & Hlabels).
  destruct (Hlabels x y Hgrid) as (_ & _ & Hkeep).
  exists (fillUnmarked dilated (isBackground st)),
         (applyMask data (fillUnmarked dilated (isBackground st))).
  assert (labelAt (fillUnmarked dilated (isBackground st)) width x y = Some 1)
    as Hfilled.
  { rewrite Hkeep; [easy|]. now rewrite Hdilated. }
  split; [exact Hout|]. split; [|split; [exact Hfilled|]].
  - unfold processWatchImage, improvedWatchMask.
    fold avgBg threshold mask0 built dilated. now rewrite Hout.
  - unfold alphaAt. apply applyMask_alpha_foreground.
    unfold labelAt in Hfilled. now rewrite Hfilled.
Qed.

Lemma salient_pixel_stays_opaque_witness :
  exists mask out,
    improvedWatchMask whiteWithDot 10 10
      (replicate (Z.to_nat (10 * 10)) 0)
      (backgroundOf whiteWithDot 10 10) (thresholdOf whiteWithDot 10 10)
    = Some mask
    /\ processWatchImage whiteWithDot 10 10 = Some out
    /\ labelAt mask 10 4 4 = Some 1
    /\ alphaAt out 10 4 4 = alphaAt whiteWithDot 10 4 4.
Proof.
  apply (salient_pixel_stays_opaque whiteWithDot 10 10 4 4).
  - unfold isImage. split; [lia|]. split; [lia|reflexivity].
  - unfold isInterior. lia.
  - vm_compute; reflexivity.
Defined.

(** X10. The final mask is binary: [improvedWatchMask] returns a mask of
    [width * height] labels, each 0 or 1. *)
Theorem improvedWatchMask_labels (data : list Z) (width height : Z)
  (avgBg : Color) (threshold : float) :
  0 < width -> 0 < height ->
  exists mask,
    improvedWatchMask data width height
      (replicate (Z.to_nat (width * height)) 0) avgBg threshold = Some mask
    /\ Z.of_nat (length mask) = width * height
    /\ forall x y, inGrid width height x y ->
         labelAt mask width x y = Some 0 \/ labelAt mask width x y = Some 1.
Proof.
  intros Hw Hh.
  set (mask0 := replicate (Z.to_nat (width * height)) 0).
  set (built := buildMask data width height mask0 avgBg threshold).
  set (dilated := dilate data width height built avgBg threshold).
  assert (Z.of_nat (length mask0) = width * height) as Hlen0.
  { unfold mask0. rewrite length_replicate. nia. }
  assert (Z.of_nat (length built) = width * height) as Hlenb.
  { unfold built. now rewrite length_buildMask. }
  assert (forall x y, inGrid width height x y ->
            labelAt built width x y = Some 0
            \/ labelAt built width x y = Some 1) as Hbuilt.
  { intros x y Hgrid. unfold labelAt, built.
    pose proof (buildMask_label data width height mask0 avgBg threshold
                  (y * width + x) (inGrid_index_range _ _ _ _ Hgrid))
      as Hlabel.
    destruct (fillMaps data width height avgBg) as [edgeMap colorDistMap].
    rewrite Hlabel. destruct (gt _ _); [now right|now left]. }
  assert (forall x y, inGrid width height x y ->
            labelAt dilated width x y = Some 0
            \/ labelAt dilated width x y = Some 1) as Hdilated.
  { intros x y Hgrid.
    destruct (ring_or_interior _ _ _ _ Hgrid) as [Hring|Hint].
    - unfold dilated. rewrite dilate_kept; [now apply Hbuilt|easy|].
      intros Hint. now apply ring_not_interior in Hring.
    - destruct (promotes data width built avgBg threshold x y) eqn:Hp.
      + right. now apply dilate_promoted with (height := height).
      + unfold dilated. rewrite dilate_kept; [now apply Hbuilt|easy|easy]. }
  destruct (floodFillHoles_spec dilated width height Hw Hh)
    as (st & _ & Hout & _ & Hlabels).
  exists (fillUnmarked dilated (isBackground st)).
  split; [exact Hout|]. split.
  - unfold fillUnmarked. rewrite length_imap. unfold dilated.
    now rewrite length_dilate.
  - intros x y Hgrid. unfold labelAt. rewrite fillUnmarked_label.
    fold (labelAt dilated width x y).
    destruct (Hdilated x y Hgrid) as [-> | ->]; cbn.
    + destruct (bool_decide _); [now left|now right].
    + now right.
Qed.

Lemma improvedWatchMask_labels_witness :
  exists mask,
    improvedWatchMask goldCentre 3 3 (replicate (Z.to_nat (3 * 3)) 0)
                      grey 32
    = Some mask
    /\ Z.of_nat (length mask) = 3 * 3
    /\ forall x y, inGrid 3 3 x y ->
         labelAt mask 3 x y = Some 0 \/ labelAt mask 3 x y = Some 1.
Proof.
  apply (improvedWatchMask_labels goldCentre 3 3 grey 32); lia.
Defined.

(** *** The segmentation reads colours only *)

Section SameColours.
Variables (data data' : list Z).
Hypothesis same : sameColours data data'.

Lemma same_red p : js_get data' (p * 4) = js_get data (p * 4).
Proof.
  pose proof (same p 0 ltac:(lia)) as Hsame.
  now rewrite !Z.add_0_r in Hsame.
Qed.

Lemma same_chan p c : 0 <= c < 3 -> chan data' (p * 4 + c) = chan data (p * 4 + c).
Proof. intros Hc. unfold chan. now rewrite same. Qed.

Lemma same_chan_red p : chan data' (p * 4) = chan data (p * 4).
Proof. unfold chan. now rewrite same_red. Qed.

Lemma addSample_same samples x y width :
  addSample samples x y width data' = addSample samples x y width data.
Proof.
  unfold addSample. cbn zeta.
  now rewrite same_red, !same by lia.
Qed.

Lemma borderSamples_same width height :
  borderSamples data' width height = borderSamples data width height.
Proof.
  unfold borderSamples. cbn zeta.
  assert (forall l acc,
            foldl (fun samples x =>
                     foldl (fun samples y =>
                              addSample (addSample samples x y width data')
                                        x (height - y - 1) width data')
                           samples (seqZ 0 (borderWidth width height)))
                  acc l
            = foldl (fun samples x =>
                       foldl (fun samples y =>
                                addSample (addSample samples x y width data)
                                          x (height - y - 1) width data)
                             samples (seqZ 0 (borderWidth width height)))
                    acc l) as Hrows.
  { intros l acc. apply foldl_ext_in. intros samples x _.
    apply foldl_ext_in. intros samples' y _. now rewrite !addSample_same. }
  rewrite Hrows. apply foldl_ext_in. intros samples y _.
  apply foldl_ext_in. intros samples' x _. now rewrite !addSample_same.
Qed.

Lemma colorDist_same width avgBg x y :
  colorDist data' width avgBg x y = colorDist data width avgBg x y.
Proof.
  unfold colorDist. cbn zeta.
  now rewrite same_chan_red, !same_chan by lia.
Qed.

Lemma gradient_same width x y :
  gradient data' width x y = gradient data width x y.
Proof.
  unfold gradient. apply foldl_ext_in. intros grad ky _.
  apply foldl_ext_in. intros [gradX gradY] kx _. cbn zeta.
  now rewrite same_chan_red, !same_chan by lia.
Qed.

Lemma edgeMagnitude_same width x y :
  edgeMagnitude data' width x y = edgeMagnitude data width x y.
Proof. unfold edgeMagnitude. now rewrite gradient_same. Qed.

Lemma fillMaps_same width height avgBg :
  fillMaps data' width height avgBg = fillMaps data width height avgBg.
Proof.
  unfold fillMaps. apply foldl_ext_in.
  intros [edgeMap colorDistMap] [x y] _. cbn zeta.
  now rewrite edgeMagnitude_same, colorDist_same.
Qed.

Lemma buildMask_same width height mask avgBg threshold :
  buildMask data' width height mask avgBg threshold
  = buildMask data width height mask avgBg threshold.
Proof. unfold buildMask. now rewrite fillMaps_same. Qed.

Lemma promotes_same width mask avgBg threshold x y :
  promotes data' width mask avgBg threshold x y
  = promotes data width mask avgBg threshold x y.
Proof.
  unfold promotes. cbn zeta.
  now rewrite same_chan_red, !same_chan by lia.
Qed.

Lemma dilate_same width height mask avgBg threshold :
  dilate data' width height mask avgBg threshold
  = dilate data width height mask avgBg threshold.
Proof.
  unfold dilate, dilateOver. generalize mask at 2 4 as tempMask.
  induction (interior width height) as [|[x y] pixels IH]; intros tempMask;
    [easy|].
  cbn [foldl]. rewrite IH. f_equal. unfold dilateStep.
  now rewrite promotes_same.
Qed.

Lemma improvedWatchMask_same width height mask avgBg threshold :
  improvedWatchMask data' width height mask avgBg threshold
  = improvedWatchMask data width height mask avgBg threshold.
Proof.
  unfold improvedWatchMask. cbn zeta.
  now rewrite buildMask_same, dilate_same.
Qed.

Lemma statistics_same width height :
  backgroundOf data' width height = backgroundOf data width height
  /\ thresholdOf data' width height = thresholdOf data width height.
Proof.
  unfold backgroundOf, thresholdOf. cbn zeta.
  now rewrite borderSamples_same.
Qed.
End SameColours.

Lemma applyMask_sameColours data mask : sameColours data (applyMask data mask).
Proof.
  intros p c Hc. rewrite (Z.mul_comm p 4). now apply applyMask_colour.
Qed.

(** Applying a mask twice is applying it once. *)
Lemma applyMask_idempotent data mask :
  applyMask (applyMask data mask) mask = applyMask data mask.
Proof.
  apply js_get_ext; [now rewrite !length_applyMask|].
  intros i Hi. rewrite !length_applyMask in Hi.
  pose proof (Z.div_mod i 4 ltac:(lia)) as Hsplit.
  pose proof (Z.mod_pos_bound i 4 ltac:(lia)) as Hrem.
  set (k := i / 4) in *. set (c := i mod 4) in *.
  destruct (decide (c = 3)) as [Hc|Hc].
  - rewrite Hsplit, Hc.
    destruct (decide (js_get mask k = Some 0)) as [Hbg|Hfg].
    + rewrite !applyMask_alpha_background; try easy; try lia.
      rewrite length_applyMask. lia.
    + now rewrite applyMask_alpha_foreground.
  - rewrite Hsplit. apply applyMask_colour. lia.
Qed.

Lemma processWatchImage_sameColours data data' width height :
  sameColours data data' ->
  exists mask,
    improvedWatchMask data width height
      (replicate (Z.to_nat (width * height)) 0)
      (backgroundOf data width height) (thresholdOf data width height)
    = Some mask
    /\ processWatchImage data width height = Some (applyMask data mask)
    /\ processWatchImage data' width height = Some (applyMask data' mask).
Proof.
  intros Hsame.
  destruct (statistics_same data data' Hsame width height) as [Havg Hthr].
  destruct (processWatchImage_returns data width height)
    as (mask & Hmask & Hout).
  exists mask. split; [exact Hmask|]. split; [exact Hout|].
  unfold processWatchImage. cbn zeta.
  rewrite Havg, Hthr, (improvedWatchMask_same data data' Hsame), Hmask.
  reflexivity.
Qed.

(** X11. The segmentation never reads alpha: two buffers with the same
    R, G and B bytes get the same background colour, the same threshold
    and the same mask, so [processWatchImage] clears the alpha of the same
    pixels in both. *)
Theorem segmentation_ignores_alpha (data data' : list Z) (width height : Z) :
  sameColours data data' ->
  backgroundOf data' width height = backgroundOf data width height
  /\ thresholdOf data' width height = thresholdOf data width height
  /\ exists mask,
       processWatchImage data width height = Some (applyMask data mask)
       /\ processWatchImage data' width height = Some (applyMask data' mask).
Proof.
  intros Hsame.
  destruct (statistics_same data data' Hsame width height) as [Havg Hthr].
  split; [exact Havg|]. split; [exact Hthr|].
  destruct (processWatchImage_sameColours data data' width height Hsame)
    as (mask & _ & Hout & Hout').
  now exists mask.
Qed.

Lemma segmentation_ignores_alpha_witness :
  backgroundOf (solid 4 128 128 128 ++ [200; 160; 90; 7]
                ++ solid 4 128 128 128) 3 3
  = backgroundOf goldCentre 3 3.
Proof.
  apply (segmentation_ignores_alpha goldCentre
           (solid 4 128 128 128 ++ [200; 160; 90; 7]
            ++ solid 4 128 128 128) 3 3).
  intros p c Hc.
  destruct (decide (0 <= p < 9)) as [Hp|Hp].
  - assert (p = 0 \/ p = 1 \/ p = 2 \/ p = 3 \/ p = 4 \/ p = 5 \/ p = 6
            \/ p = 7 \/ p = 8) as Hcases by lia.
    assert (c = 0 \/ c = 1 \/ c = 2) as Hchan by lia.
    destruct Hcases as [-> |[-> |[-> |[-> |[-> |[-> |[-> |[-> | ->]]]]]]]];
      destruct Hchan as [-> |[-> | ->]]; reflexivity.
  - rewrite !js_get_out_of_range; [reflexivity| |];
      change (Z.of_nat (length _)) with 36; lia.
Defined.

(** X12. [processWatchImage] is idempotent on the buffer: processing its
    own output computes the same mask again and changes nothing. *)
Theorem processWatchImage_idempotent (data : list Z) (width height : Z) :
  exists out,
    processWatchImage data width height = Some out
    /\ processWatchImage out width height = Some out.
Proof.
  destruct (processWatchImage_returns data width height)
    as (mask & Hmask & Hout).
  destruct (processWatchImage_sameColours
              data (applyMask data mask) width height
              (applyMask_sameColours data mask))
    as (mask' & Hmask' & _ & Hagain).
  assert (mask' = mask) as -> by congruence.
  exists (applyMask data mask). split; [exact Hout|].
  now rewrite Hagain, applyMask_idempotent.
Qed.

(** *** Pixels sampled twice *)








Section Sites.
Variables (width height : Z).
Hypothesis width_pos : 0 < width.
Hypothesis height_pos : 0 < height.

Local Abbreviation bw := (borderWidth width height).











End Sites.



(** ** The hand tracker *)

(** *** Comparisons of numbers *)

Lemma SFcompare_antisym x y :
  SFcompare y x = CompOpp <$> SFcompare x y.
Proof.
  destruct x as [sx|sx| |sx mx ex], y as [sy|sy| |sy my ey]; cbn;
    try reflexivity;
    try (destruct sx; reflexivity); try (destruct sy; reflexivity);
    try (destruct sx, sy; reflexivity).
  change (PosDef.Pos.compare_cont Eq my mx) with (Pos.compare my mx).
  change (PosDef.Pos.compare_cont Eq mx my) with (Pos.compare mx my).
  rewrite (Z.compare_antisym ex ey), (Pos.compare_antisym mx my).
  destruct sx, sy; try reflexivity;
    destruct (ex ?= ey); cbn; reflexivity.
Qed.

Lemma SFcompare_opp x y :
  SFcompare (SFopp x) (SFopp y) = SFcompare y x.
Proof.
  rewrite (SFcompare_antisym x y).
  destruct x as [sx|sx| |sx mx ex], y as [sy|sy| |sy my ey]; cbn;
    try reflexivity;
    try (destruct sx; reflexivity); try (destruct sy; reflexivity);
    try (destruct sx, sy; reflexivity).
  destruct sx, sy; cbn; try reflexivity;
    destruct (ex ?= ey); cbn; try reflexivity.
  now rewrite CompOpp_involutive.
Qed.

Lemma ltb_antisym (a b : float) :
  (a <? b)%float = true -> (b <? a)%float = false.
Proof.
  rewrite !ltb_spec. unfold SFltb.
  rewrite (SFcompare_antisym (Prim2SF a) (Prim2SF b)).
  now destruct (SFcompare (Prim2SF a) (Prim2SF b)) as [[]|].
Qed.

Lemma ltb_opp (a b : float) : (- a <? - b)%float = (b <? a)%float.
Proof.
  rewrite !ltb_spec, !opp_spec. unfold SFltb. now rewrite SFcompare_opp.
Qed.

Lemma ltb_leb (a b : float) :
  (a <? b)%float = true -> (a <=? b)%float = true.
Proof.
  rewrite ltb_spec, leb_spec. unfold SFltb, SFleb.
  now destruct (SFcompare (Prim2SF a) (Prim2SF b)) as [[]|].
Qed.

Lemma is_nan_spec (a : float) :
  is_nan a = true <-> Prim2SF a = S754_nan.
Proof.
  unfold is_nan. rewrite FloatAxioms.eqb_spec. unfold SFeqb.
  destruct (Prim2SF a) as [s|s| |s m e]; cbn; try easy.
  - now destruct s.
  - rewrite Z.compare_refl.
    change (PosDef.Pos.compare_cont Eq m m) with (Pos.compare m m).
    rewrite Pos.compare_refl. now destruct s.
Qed.

Lemma is_nan_eq (a : float) : is_nan a = true -> a = nan.
Proof. intros Ha%is_nan_spec. now apply Prim2SF_inj. Qed.

Lemma SFltb_beyond (far near : positive) (k : Z) (x : spec_float) :
  (near < far)%positive ->
  SFltb (S754_finite false far k) (SFabs x) = true ->
  SFltb x (S754_finite true near k) = SFltb x (S754_zero false).
Proof.
  intros Hnear.
  destruct x as [s|s| |s m e]; unfold SFltb, SFcompare, SFabs; intros Hfar.
  - discriminate Hfar.
  - destruct s; reflexivity.
  - discriminate Hfar.
  - destruct s; [|reflexivity].
    change (PosDef.Pos.compare_cont Eq far m) with (Pos.compare far m) in Hfar.
    change (PosDef.Pos.compare_cont Eq m near) with (Pos.compare m near).
    destruct (Z.compare_spec k e) as [Heq|Hlt|Hgt].
    + subst e. rewrite Z.compare_refl.
      destruct (Pos.compare_spec far m) as [|Hm|];
        [discriminate Hfar| |discriminate Hfar].
      assert (Pos.compare m near = Gt) as ->; [|reflexivity].
      apply Pos.compare_gt_iff. lia.
    + assert ((e ?= k) = Gt) as ->; [|reflexivity].
      apply Z.compare_gt_iff. lia.
    + discriminate Hfar.
Qed.

(** Beyond 0.03 from zero, a number is below -0.02 exactly when it is
    negative. *)
Lemma beyond_dead_zone (z : float) :
  gt (abs z) 0.03 = true -> (z <? -0.02)%float = gt 0 z.
Proof.
  unfold gt. rewrite !ltb_spec, abs_spec.
  change (Prim2SF 0.03) with (S754_finite false 8646911284551352 (-58)).
  change (Prim2SF (-0.02)) with (S754_finite true 5764607523034235 (-58)).
  change (Prim2SF 0) with (S754_zero false).
  apply SFltb_beyond. reflexivity.
Qed.

(** *** Hand geometry *)

Lemma js_get_is_Some {A : Type} (a : list A) (i : Z) :
  is_Some (js_get a i) <-> 0 <= i < Z.of_nat (length a).
Proof.
  unfold js_get. destruct (Z.ltb_spec i 0) as [Hneg|Hpos].
  - split; [now intros [v [=]]|lia].
  - rewrite lookup_lt_is_Some. lia.
Qed.

Lemma combineDirections_values zDifference palmNormal :
  combineDirections zDifference palmNormal = "up"
  \/ combineDirections zDifference palmNormal = "down".
Proof.
  unfold combineDirections.
  destruct (zDifference <? -0.02)%float, (gt (v_z palmNormal) 0),
           (gt (abs zDifference) 0.03); cbn; auto.
Qed.

Lemma determinePalmDirection_Some landmarks direction :
  determinePalmDirection landmarks = Some direction ->
  (exists pinkyMCP, js_get landmarks 17 = Some pinkyMCP)
  /\ (direction = "up" \/ direction = "down").
Proof.
  unfold determinePalmDirection. intros Hdirection.
  destruct (js_get landmarks 0) as [wrist|]; [|easy].
  destruct (js_get landmarks 1) as [thumbCMC|]; [|easy].
  destruct (js_get landmarks 5) as [indexMCP|]; [|easy].
  destruct (js_get landmarks 9) as [middleMCP|]; [|easy].
  destruct (js_get landmarks 13) as [ringMCP|]; [|easy].
  destruct (js_get landmarks 17) as [pinkyMCP|]; [|easy].
  cbn [mbind option_bind] in Hdirection.
  destruct (palmGeometry wrist thumbCMC indexMCP middleMCP ringMCP pinkyMCP)
    as [z n].
  injection Hdirection as <-.
  split; [now exists pinkyMCP|apply combineDirections_values].
Qed.

(** X14. [determineHandType] and [determinePalmDirection] return exactly
    when there are at least 18 landmarks (they throw otherwise); the
    former answers left or right, the latter up or down. *)
Theorem hand_functions_need_18_landmarks (landmarks : list (list float)) :
  (is_Some (determineHandType landmarks)
   <-> 18 <= Z.of_nat (length landmarks))
  /\ (is_Some (determinePalmDirection landmarks)
      <-> 18 <= Z.of_nat (length landmarks))
  /\ (forall hand, determineHandType landmarks = Some hand ->
        hand = "left" \/ hand = "right")
  /\ (forall direction, determinePalmDirection landmarks = Some direction ->
        direction = "up" \/ direction = "down").
Proof.
  assert (forall i, 0 <= i < 18 -> 18 <= Z.of_nat (length landmarks) ->
            exists landmark, js_get landmarks i = Some landmark) as Hget.
  { intros i Hi Hlen. apply (js_get_is_Some landmarks i). lia. }
  assert (forall landmark, js_get landmarks 17 = Some landmark ->
            18 <= Z.of_nat (length landmarks)) as Hlen17.
  { intros landmark Hsome.
    assert (is_Some (js_get landmarks 17)) as Hin by now exists landmark.
    apply js_get_is_Some in Hin. lia. }
  split; [|split; [|split]].
  - unfold determineHandType. split.
    + intros [hand Hhand].
      destruct (js_get landmarks 5) as [indexMCP|]; [|easy].
      destruct (js_get landmarks 17) as [pinkyMCP|] eqn:H17; [|easy].
      now apply Hlen17 with (landmark := pinkyMCP).
    + intros Hlen.
      destruct (Hget 5 ltac:(lia) Hlen) as [indexMCP ->].
      destruct (Hget 17 ltac:(lia) Hlen) as [pinkyMCP ->].
      cbn [mbind option_bind]. now eexists.
  - split.
    + intros [direction Hdirection].
      destruct (determinePalmDirection_Some _ _ Hdirection)
        as [[pinkyMCP H17] _].
      now apply Hlen17 with (landmark := pinkyMCP).
    + intros Hlen. unfold determinePalmDirection.
      destruct (Hget 0 ltac:(lia) Hlen) as [wrist ->].
      destruct (Hget 1 ltac:(lia) Hlen) as [thumbCMC ->].
      destruct (Hget 5 ltac:(lia) Hlen) as [indexMCP ->].
      destruct (Hget 9 ltac:(lia) Hlen) as [middleMCP ->].
      destruct (Hget 13 ltac:(lia) Hlen) as [ringMCP ->].
      destruct (Hget 17 ltac:(lia) Hlen) as [pinkyMCP ->].
      cbn [mbind option_bind].
      destruct (palmGeometry wrist thumbCMC indexMCP middleMCP ringMCP
                             pinkyMCP).
      now eexists.
  - unfold determineHandType. intros hand Hhand.
    destruct (js_get landmarks 5) as [indexMCP|]; [|easy].
    destruct (js_get landmarks 17) as [pinkyMCP|]; [|easy].
    cbn [mbind option_bind] in Hhand. injection Hhand as <-.
    destruct (_ <? _)%float; [now right|now left].
  - intros direction Hdirection.
    now destruct (determinePalmDirection_Some _ _ Hdirection).
Qed.

Lemma js_get_mirror landmarks i :
  js_get (mirror landmarks) i
  = (fun landmark =>
       match landmark with
       | x :: rest => (- x)%float :: rest
       | [] => []
       end) <$> js_get landmarks i.
Proof.
  unfold js_get, mirror. destruct (i <? 0); [easy|].
  apply list_lookup_fmap.
Qed.

(** X15. Mirroring the hand swaps the answer of [determineHandType]:
    when the bases of the index finger and of the little finger do not
    have the same [x], negating the [x] of every landmark turns a right
    hand into a left hand and a left hand into a right hand. *)
Theorem determineHandType_mirror (landmarks : list (list float))
  (indexMCP pinkyMCP : list float) :
  js_get landmarks 5 = Some indexMCP ->
  js_get landmarks 17 = Some pinkyMCP ->
  (cell pinkyMCP 0 <? cell indexMCP 0)%float
  || (cell indexMCP 0 <? cell pinkyMCP 0)%float = true ->
  determineHandType (mirror landmarks)
  = otherHand <$> determineHandType landmarks.
Proof.
  intros H5 H17 Hapart. unfold determineHandType.
  rewrite !js_get_mirror, H5, H17. cbn [fmap option_fmap option_map mbind
                                         option_bind].
  assert (forall landmark,
            cell match landmark with
                 | x :: rest => (- x)%float :: rest
                 | [] => []
                 end 0
            = (- cell landmark 0)%float) as Hneg.
  { intros [|x rest]; reflexivity. }
  rewrite !Hneg, ltb_opp.
  destruct (cell pinkyMCP 0 <? cell indexMCP 0)%float eqn:Hright.
  - apply ltb_antisym in Hright.
    now replace (cell indexMCP 0 <? cell pinkyMCP 0)%float with false.
  - rewrite orb_false_l in Hapart.
    now replace (cell indexMCP 0 <? cell pinkyMCP 0)%float with true.
Qed.

Lemma determineHandType_mirror_witness :
  determineHandType
    (mirror (replicate 5 [1%float] ++ [[9%float]] ++ replicate 11 [1%float]
             ++ [[2%float]]))
  = otherHand
      <$> determineHandType
            (replicate 5 [1%float] ++ [[9%float]] ++ replicate 11 [1%float]
             ++ [[2%float]]).
Proof.
  apply (determineHandType_mirror _ [9%float] [2%float]);
    vm_compute; reflexivity.
Defined.

(** X16. What [determinePalmDirection] computes: when the finger bases
    are more than 0.03 nearer or farther than the wrist, the sign of that
    difference decides (nearer is down, farther is up); otherwise the
    palm normal decides.  The bound -0.02 of the code has no influence on
    the result. *)
Theorem determinePalmDirection_rule (landmarks : list (list float))
  (wrist thumbCMC indexMCP middleMCP ringMCP pinkyMCP : list float) :
  js_get landmarks 0 = Some wrist ->
  js_get landmarks 1 = Some thumbCMC ->
  js_get landmarks 5 = Some indexMCP ->
  js_get landmarks 9 = Some middleMCP ->
  js_get landmarks 13 = Some ringMCP ->
  js_get landmarks 17 = Some pinkyMCP ->
  let '(zDifference, palmNormal) :=
    palmGeometry wrist thumbCMC indexMCP middleMCP ringMCP pinkyMCP in
  determinePalmDirection landmarks
  = Some (if gt (abs zDifference) 0.03
          then if gt 0 zDifference then "down" else "up"
          else if gt (v_z palmNormal) 0 then "up" else "down").
Proof.
  intros H0 H1 H5 H9 H13 H17. unfold determinePalmDirection.
  rewrite H0, H1, H5, H9, H13, H17. cbn [mbind option_bind].
  destruct (palmGeometry wrist thumbCMC indexMCP middleMCP ringMCP pinkyMCP)
    as [z n]. f_equal.
  unfold combineDirections.
  destruct (gt (abs z) 0.03) eqn:Hfar.
  - rewrite (beyond_dead_zone z Hfar).
    now destruct (gt 0 z), (gt (v_z n) 0).
  - now destruct (z <? -0.02)%float, (gt (v_z n) 0).
Qed.

Lemma determinePalmDirection_rule_witness :
  determinePalmDirection (replicate 18 [0%float; 0%float; 0%float])
  = Some "down".
Proof.
  apply (determinePalmDirection_rule
           (replicate 18 [0%float; 0%float; 0%float])
           [0%float; 0%float; 0%float] [0%float; 0%float; 0%float]
           [0%float; 0%float; 0%float] [0%float; 0%float; 0%float]
           [0%float; 0%float; 0%float] [0%float; 0%float; 0%float]);
    reflexivity.
Defined.

(** *** The position history *)

Lemma pushPosition_last_five {A : Type} (history : list A) (p : A) :
  Z.of_nat (length history) <= 5 ->
  pushPosition history p
  = drop (length (history ++ [p]) - 5) (history ++ [p]).
Proof.
  intros Hlen. unfold pushPosition, POSITION_HISTORY_LENGTH. cbn zeta.
  rewrite length_app. cbn [length].
  destruct (Z.gtb_spec (Z.of_nat (length history + 1)) 5) as [Hfull|Hroom].
  - replace (length history + 1 - 5)%nat with 1%nat by lia.
    now destruct (history ++ [p]).
  - now replace (length history + 1 - 5)%nat with 0%nat by lia.
Qed.

Lemma foldl_pushPosition {A : Type} (positions history : list A) :
  Z.of_nat (length history) <= 5 ->
  foldl pushPosition history positions
  = drop (length (history ++ positions) - 5) (history ++ positions).
Proof.
  revert history.
  induction positions as [|p positions IH]; intros history Hlen.
  - cbn [foldl]. rewrite app_nil_r.
    now replace (length history - 5)%nat with 0%nat by lia.
  - cbn [foldl]. rewrite pushPosition_last_five by easy.
    replace (history ++ p :: positions)
      with ((history ++ [p]) ++ positions) by now rewrite <- app_assoc.
    set (pushed := history ++ [p]).
    assert (length pushed = S (length history)) as Hpushed.
    { unfold pushed. rewrite length_app. cbn [length]. lia. }
    rewrite IH by (rewrite length_drop; lia).
    rewrite <- drop_app_le by lia.
    rewrite drop_drop. f_equal.
    rewrite length_drop, !length_app. lia.
Qed.

(** X17. The position history holds the last five positions: from the
    empty history, after any sequence of detections, [lastFewPositions]
    is the sequence without all but its last [POSITION_HISTORY_LENGTH]
    positions. *)
Theorem position_history_keeps_last_five {A : Type} (positions : list A) :
  foldl pushPosition [] positions
  = drop (length positions - 5) positions
  /\ Z.of_nat (length (foldl pushPosition [] positions))
     <= POSITION_HISTORY_LENGTH.
Proof.
  pose proof (foldl_pushPosition positions [] ltac:(cbn; lia)) as Hfold.
  cbn [app] in Hfold. split; [exact Hfold|].
  rewrite Hfold, length_drop. unfold POSITION_HISTORY_LENGTH. lia.
Qed.

(** *** Zoom *)

Lemma clamp_range (x : float) :
  is_nan x = false -> zoomRange (Math_max 0.5 (Math_min 3.0 x)).
Proof.
  intros Hx. unfold Math_min. rewrite Hx.
  change (is_nan 3 || false) with false. cbv iota.
  destruct (x <? 3)%float eqn:Hlt3; [|vm_compute; easy].
  unfold Math_max. rewrite Hx.
  change (is_nan 0.5 || false) with false. cbv iota.
  destruct (0.5 <? x)%float eqn:Hgt.
  { split; now apply ltb_leb. }
  destruct (x <? 0.5)%float; vm_compute; easy.
Qed.

Lemma clamp_nan : Math_max 0.5 (Math_min 3.0 nan) = nan.
Proof. reflexivity. Qed.

Lemma zoomRange_not_nan (scale : float) :
  zoomRange scale -> is_nan scale = false.
Proof.
  intros [Hlo _]. destruct (is_nan scale) eqn:Hnan; [|easy].
  apply is_nan_eq in Hnan as ->. vm_compute in Hlo. easy.
Qed.

(** *** Rounding never yields [NaN] *)

Lemma shr_1_nonneg mrs : 0 <= shr_m mrs -> 0 <= shr_m (shr_1 mrs).
Proof.
  destruct mrs as [m r s]. cbn [shr_m]. intros Hm.
  destruct m as [|[p|p|]|p]; cbn; lia.
Qed.

Lemma iter_shr_1_nonneg p mrs :
  0 <= shr_m mrs -> 0 <= shr_m (SpecFloat.iter_pos shr_1 p mrs).
Proof.
  revert mrs. induction p as [p IH|p IH|]; intros mrs Hm; cbn.
  - apply IH, IH. now apply shr_1_nonneg.
  - now apply IH, IH.
  - now apply shr_1_nonneg.
Qed.

Lemma shr_fexp_nonneg m e l :
  0 <= m -> 0 <= shr_m (fst (shr_fexp prec emax m e l)).
Proof.
  intros Hm. unfold shr_fexp, shr.
  assert (0 <= shr_m (shr_record_of_loc m l)) as Hrec.
  { now destruct l as [|[]]. }
  destruct (fexp prec emax (Zdigits2 m + e) - e) as [|p|p]; cbn [fst];
    [easy| |easy].
  now apply iter_shr_1_nonneg.
Qed.

Lemma round_nearest_even_nonneg m l : 0 <= m -> 0 <= round_nearest_even m l.
Proof.
  intros Hm. unfold round_nearest_even.
  destruct l as [|[]]; [easy| |easy|lia].
  destruct (IntDef.Z.even m); lia.
Qed.

Lemma binary_round_aux_not_nan s m e l :
  0 <= m -> binary_round_aux prec emax s m e l <> S754_nan.
Proof.
  intros Hm. unfold binary_round_aux.
  pose proof (shr_fexp_nonneg m e l Hm) as Hfirst.
  destruct (shr_fexp prec emax m e l) as [mrs' e']. cbn [fst] in Hfirst.
  pose proof (shr_fexp_nonneg
                (round_nearest_even (shr_m mrs') (loc_of_shr_record mrs'))
                e' loc_Exact
                (round_nearest_even_nonneg _ _ Hfirst)) as Hsecond.
  destruct (shr_fexp prec emax _ e' loc_Exact) as [mrs'' e''].
  cbn [fst] in Hsecond.
  destruct (shr_m mrs'') as [|p|p]; [easy| |lia].
  now destruct (e'' <=? emax - prec).
Qed.

(** The product of a number and a finite non-zero number is a number. *)
Lemma mul_finite_not_nan (x c : float) s m e :
  Prim2SF c = S754_finite s m e ->
  is_nan x = false -> is_nan (x * c) = false.
Proof.
  intros Hc Hx. apply not_true_iff_false. intros Hnan%is_nan_spec.
  apply not_true_iff_false in Hx. apply Hx, is_nan_spec. clear Hx.
  rewrite mul_spec, Hc in Hnan. unfold SF64mul, SFmul in Hnan.
  destruct (Prim2SF x) as [sx|sx| |sx mx ex]; try easy.
  now apply binary_round_aux_not_nan in Hnan.
Qed.

Lemma mul_nan_r x : (x * nan)%float = nan.
Proof.
  apply Prim2SF_inj. rewrite mul_spec.
  now destruct (Prim2SF x).
Qed.

(** X18. Zooming keeps the scale between 0.5 and 3.  Wheel events keep a
    scale in that range in it and bring any other number into it; a scale
    that is [NaN] stays [NaN].  A pinch yields a scale in the range or
    [NaN], and it yields [NaN] when both finger distances are 0. *)
Theorem zoom_stays_in_range (deltas : list float)
  (watchScale currentDistance touchStartDistance touchStartScale : float) :
  let wheeled :=
    foldl (fun scale deltaY => onWheel deltaY scale) watchScale deltas in
  let pinched :=
    onTouchMove currentDistance touchStartDistance touchStartScale in
  (zoomRange watchScale -> zoomRange wheeled)
  /\ (is_nan watchScale = false -> deltas <> [] -> zoomRange wheeled)
  /\ (is_nan watchScale = true -> wheeled = nan)
  /\ (zoomRange pinched \/ pinched = nan)
  /\ onTouchMove 0 0 touchStartScale = nan.
Proof.
  assert (forall deltaY scale,
            is_nan scale = false -> zoomRange (onWheel deltaY scale)) as Hstep.
  { intros deltaY scale Hscale. unfold onWheel. apply clamp_range.
    destruct (gt deltaY 0).
    - now apply (mul_finite_not_nan scale 0.9 false 8106479329266893 (-53)).
    - now apply (mul_finite_not_nan scale 1.1 false 4953959590107546 (-52)). }
  assert (forall l scale,
            zoomRange scale ->
            zoomRange (foldl (fun scale deltaY => onWheel deltaY scale)
                             scale l)) as Hrun.
  { induction l as [|deltaY l IH]; intros scale Hscale; [easy|].
    cbn [foldl]. apply IH, Hstep. now apply zoomRange_not_nan. }
  cbn zeta. split; [apply Hrun|]. split; [|split; [|split]].
  - intros Hscale Hne. destruct deltas as [|deltaY deltas]; [easy|].
    cbn [foldl]. now apply Hrun, Hstep.
  - intros ->%is_nan_eq. clear Hrun Hstep.
    induction deltas as [|deltaY deltas IH]; [easy|].
    cbn [foldl]. unfold onWheel at 2. rewrite mul_nan_l.
    rewrite clamp_nan. exact IH.
  - unfold onTouchMove.
    destruct (is_nan (touchStartScale * (currentDistance / touchStartDistance)))
      eqn:Hnan.
    + right. apply is_nan_eq in Hnan. rewrite Hnan. apply clamp_nan.
    + left. now apply clamp_range.
  - unfold onTouchMove. change (0 / 0)%float with nan.
    rewrite mul_nan_r. apply clamp_nan.
Qed.

Lemma zoom_stays_in_range_witness :
  zoomRange (foldl (fun scale deltaY => onWheel deltaY scale) 1%float
                   [120%float; 120%float; (-120)%float]).
Proof.
  destruct (zoom_stays_in_range [120%float; 120%float; (-120)%float]
              1 0 0 1) as (Hrange & _).
  apply Hrange. split; reflexivity.
Defined.

(** *** Angles *)

Lemma SFltb_negative (m m' : positive) (k k' : Z) (x : spec_float) :
  SFltb x (S754_finite true m k) = true ->
  SFltb (S754_finite false m' k') x = false.
Proof.
  destruct x as [s|s| |s mx ex]; unfold SFltb, SFcompare; try easy.
  - now destruct s.
  - now destruct s.
Qed.

Lemma below_not_above (angle : float) :
  (angle <? - Math_PI)%float = true -> gt angle Math_PI = false.
Proof.
  unfold gt. rewrite !ltb_spec.
  change (Prim2SF (- Math_PI))
    with (S754_finite true 7074237752028440 (-51)).
  change (Prim2SF Math_PI) with (S754_finite false 7074237752028440 (-51)).
  apply SFltb_negative.
Qed.

Lemma wrapDown_stuck (angle : float) (fuel : nat) :
  gt angle Math_PI = true -> (angle - 2 * Math_PI)%float = angle ->
  wrapDown fuel angle = None.
Proof.
  intros Habove Hsame. induction fuel as [|fuel IH]; cbn [wrapDown];
    rewrite Habove; [easy|]. now rewrite Hsame.
Qed.

Lemma wrapUp_stuck (angle : float) (fuel : nat) :
  (angle <? - Math_PI)%float = true -> (angle + 2 * Math_PI)%float = angle ->
  wrapUp fuel angle = None.
Proof.
  intros Hbelow Hsame. induction fuel as [|fuel IH]; cbn [wrapUp];
    rewrite Hbelow; [easy|]. now rewrite Hsame.
Qed.

Lemma wrapDown_in_range (angle : float) (fuel : nat) :
  gt angle Math_PI = false -> wrapDown fuel angle = Some angle.
Proof. intros Habove. destruct fuel; cbn [wrapDown]; now rewrite Habove. Qed.

Lemma wrapUp_in_range (angle : float) (fuel : nat) :
  (angle <? - Math_PI)%float = false -> wrapUp fuel angle = Some angle.
Proof. intros Hbelow. destruct fuel; cbn [wrapUp]; now rewrite Hbelow. Qed.

(** X19. [normalizeAngle] does not return for an angle beyond the range
    that absorbs a full turn (adding or subtracting [2 * Math.PI] gives
    the angle back, as for 1e17 and for the infinities): no number of
    iterations ends its loop. *)
Theorem normalizeAngle_absorbed_turn (angle : float) (fuel : nat) :
  (gt angle Math_PI = true /\ (angle - 2 * Math_PI)%float = angle)
  \/ ((angle <? - Math_PI)%float = true
      /\ (angle + 2 * Math_PI)%float = angle) ->
  normalizeAngle fuel angle = None.
Proof.
  unfold normalizeAngle. intros [[Habove Hsame]|[Hbelow Hsame]].
  - now rewrite wrapDown_stuck.
  - rewrite wrapDown_in_range by now apply below_not_above.
    cbn [mbind option_bind]. now apply wrapUp_stuck.
Qed.

Lemma normalizeAngle_absorbed_turn_witness :
  normalizeAngle 1000 1e17 = None /\ normalizeAngle 1000 neg_infinity = None.
Proof.
  split.
  - apply (normalizeAngle_absorbed_turn 1e17 1000). left.
    split; reflexivity.
  - apply (normalizeAngle_absorbed_turn neg_infinity 1000). right.
    split; reflexivity.
Defined.

(** *** Angles within a turn *)

Lemma binary_round_small (s : bool) (q : positive) (e : Z) :
  Z.pos q < 2 ^ 53 -> -1000 <= e <= 900 ->
  binary_round prec emax s q e
  = S754_finite s (normalize q) (e + (Z.pos (digits2_pos q) - 53)).
Proof.
  intros Hq He. destruct (normalize_value q Hq) as (Hd & Hv & Hn).
  assert (0 < Z.pos (digits2_pos q)) as Hd0 by lia.
  set (d := Z.pos (digits2_pos q)) in *.
  apply binary_round_exact; [exact Hn| |lia].
  destruct (Z.ltb_spec (d - 53) 0).
  - right. split; [assumption|]. rewrite Hv. do 2 f_equal. lia.
  - left. split; [assumption|]. rewrite Hv.
    replace (53 - d) with 0 by lia. replace (d - 53) with 0 by lia. lia.
Qed.

(** A finite number of a valid float has a mantissa of 53 digits, unless
    its exponent is the least one. *)
Lemma valid_digits (x : float) s m e :
  Prim2SF x = S754_finite s m e -> -1074 < e ->
  Z.pos (digits2_pos m) = 53.
Proof.
  intros Hx He. pose proof (Prim2SF_valid x) as Hvalid.
  rewrite Hx in Hvalid. unfold valid_binary, bounded in Hvalid.
  apply andb_prop in Hvalid as [Hcanon _].
  unfold canonical_mantissa in Hcanon. apply Z.eqb_eq in Hcanon.
  unfold fexp, SpecFloat.emin, prec, emax in Hcanon. lia.
Qed.

Section WithinATurn.
(** The mantissa of [Math.PI], which is [piMantissa * 2^-51]. *)
Variable piMantissa : positive.
Hypothesis pi_digits : 2 ^ 52 < Z.pos piMantissa < 2 ^ 53.
Hypothesis three_pi : 2 ^ 54 < 3 * Z.pos piMantissa.
(** The mantissa of 8, which is [eightMantissa * 2^-49]. *)
Variable eightMantissa : positive.
Hypothesis eight : Z.pos eightMantissa = 2 ^ 52.

Local Abbreviation sfPi := (S754_finite false piMantissa (-51)).
Local Abbreviation sfMinusPi := (S754_finite true piMantissa (-51)).
Local Abbreviation sfTwoPi := (S754_finite false piMantissa (-50)).
Local Abbreviation sfEight := (S754_finite false eightMantissa (-49)).

(** Between [-Math.PI] and [Math.PI], bounds included. *)
Definition withinPi (r : spec_float) : Prop :=
  SFltb sfPi r = false /\ SFltb r sfMinusPi = false /\ r <> S754_nan.

Lemma withinPi_finite s q e :
  Z.pos (digits2_pos q) = 53 ->
  e < -51 \/ (e = -51 /\ Z.pos q <= Z.pos piMantissa) ->
  withinPi (S754_finite s q e).
Proof.
  intros Hd Hsmall. unfold withinPi, SFltb, SFcompare.
  change (PosDef.Pos.compare_cont Eq piMantissa q)
    with (Pos.compare piMantissa q).
  change (PosDef.Pos.compare_cont Eq q piMantissa)
    with (Pos.compare q piMantissa).
  destruct s.
  - split; [reflexivity|]. split; [|discriminate].
    destruct (Z.compare_spec e (-51)) as [Heq|Hlt|Hgt]; [|reflexivity|lia].
    destruct (Pos.compare_spec q piMantissa) as [Hq|Hq|Hq];
      [reflexivity|reflexivity|lia].
  - split; [|split; [reflexivity|discriminate]].
    destruct (Z.compare_spec (-51) e) as [Heq|Hlt|Hgt]; [|lia|reflexivity].
    destruct (Pos.compare_spec piMantissa q) as [Hq|Hq|Hq];
      [reflexivity|lia|reflexivity].
Qed.

(** The sum of mantissas [z] at exponent [ez], when it is less than
    [Math.PI] in magnitude, is computed exactly and lies within
    [-Math.PI] and [Math.PI]. *)
Lemma binary_normalize_withinPi (z ez : Z) :
  ez = -51 \/ ez = -50 ->
  Z.abs z * 2 ^ (ez + 51) < Z.pos piMantissa ->
  withinPi (binary_normalize prec emax z ez false).
Proof.
  intros Hez Hsmall.
  assert (forall s q, Z.pos q * 2 ^ (ez + 51) < Z.pos piMantissa ->
            withinPi (binary_round prec emax s q ez)) as Hround.
  { intros s q Hq.
    assert (1 <= 2 ^ (ez + 51)) as Hpow.
    { destruct Hez as [-> | ->]; cbn; lia. }
    assert (Z.pos q < 2 ^ 53) as Hq53 by nia.
    rewrite binary_round_small by lia.
    destruct (normalize_value q Hq53) as (Hd & Hv & Hn).
    set (d := Z.pos (digits2_pos q)) in *.
    pose proof (digits2_pos_bounds (normalize q)) as [Hlo _].
    rewrite Hn in Hlo. change (2 ^ (53 - 1)) with (2 ^ 52) in Hlo.
    apply withinPi_finite; [exact Hn|].
    assert (0 < 2 ^ (53 - d)) as Hshift by (apply Z.pow_pos_nonneg; lia).
    destruct Hez as [-> | ->].
    - change (2 ^ (-51 + 51)) with 1 in Hq.
      destruct (decide (d = 53)) as [Hfull|Hshort]; [|left; lia].
      right. split; [lia|]. rewrite Hv, Hfull. cbn. lia.
    - change (2 ^ (-50 + 51)) with 2 in Hq.
      destruct (decide (d = 53)) as [Hfull|Hshort].
      { exfalso. rewrite Hfull in Hv. cbn in Hv. lia. }
      destruct (decide (d = 52)) as [Hnext|Hshorter]; [|left; lia].
      right. split; [lia|]. rewrite Hv, Hnext. cbn. lia. }
  destruct z as [|q|q]; cbn [binary_normalize].
  - split; [reflexivity|split; [reflexivity|discriminate]].
  - apply Hround. exact Hsmall.
  - apply Hround. exact Hsmall.
Qed.

(** An angle above [Math.PI] and below 8, or its opposite. *)
Lemma beyond_pi_below_8 (x : float) s m e :
  Prim2SF x = S754_finite s m e ->
  SFltb sfPi (S754_finite false m e) = true ->
  SFltb (S754_finite false m e) sfEight
  = true ->
  Z.pos (digits2_pos m) = 53
  /\ ((e = -51 /\ Z.pos piMantissa < Z.pos m) \/ e = -50).
Proof.
  unfold SFltb, SFcompare. intros Hx Habove Hbelow.
  change (PosDef.Pos.compare_cont Eq piMantissa m)
    with (Pos.compare piMantissa m) in Habove.
  destruct (Z.compare_spec (-51) e) as [Heq|Hlt|Hgt]; [| |discriminate].
  - subst e. split; [now apply (valid_digits x s m (-51))|].
    left. split; [reflexivity|].
    destruct (Pos.compare_spec piMantissa m); [discriminate|lia|discriminate].
  - assert (Z.pos (digits2_pos m) = 53) as Hd
        by (apply (valid_digits x s m e); [exact Hx|lia]).
    split; [exact Hd|]. right.
    destruct (Z.compare_spec e (-49)) as [Heq|Hlt'|Hgt]; [|lia|discriminate].
    exfalso. subst e.
    pose proof (digits2_pos_bounds m) as [Hlo _]. rewrite Hd in Hlo.
    change (2 ^ (53 - 1)) with (2 ^ 52) in Hlo.
    change (PosDef.Pos.compare_cont Eq m eightMantissa)
      with (Pos.compare m eightMantissa) in Hbelow.
    destruct (Pos.compare_spec m eightMantissa) as [Hm|Hm|Hm];
      [discriminate|lia|discriminate].
Qed.

Lemma mantissa_sum_small m e :
  Z.pos (digits2_pos m) = 53 ->
  (e = -51 /\ Z.pos piMantissa < Z.pos m) \/ e = -50 ->
  let ez := Z.min e (-50) in
  (ez = -51 \/ ez = -50)
  /\ Z.abs (Z.pos (fst (shl_align m e ez))
            - Z.pos (fst (shl_align piMantissa (-50) ez)))
     * 2 ^ (ez + 51) < Z.pos piMantissa.
Proof.
  intros Hd Hshape. cbn zeta.
  pose proof (digits2_pos_bounds m) as [Hlo Hhi]. rewrite Hd in Hlo, Hhi.
  change (2 ^ (53 - 1)) with (2 ^ 52) in Hlo.
  destruct Hshape as [[-> Hm]| ->].
  - change (Z.min (-51) (-50)) with (-51). split; [now left|].
    rewrite !shl_align_value by lia.
    change (2 ^ (-51 - -51)) with 1. change (2 ^ (-50 - -51)) with 2.
    change (2 ^ (-51 + 51)) with 1. lia.
  - change (Z.min (-50) (-50)) with (-50). split; [now right|].
    rewrite !shl_align_value by lia.
    change (2 ^ (-50 - -50)) with 1. change (2 ^ (-50 + 51)) with 2. lia.
Qed.

Lemma SFsub_withinPi (x : float) m e :
  Prim2SF x = S754_finite false m e ->
  SFltb sfPi (S754_finite false m e) = true ->
  SFltb (S754_finite false m e) sfEight
  = true ->
  withinPi (SFsub prec emax (S754_finite false m e) sfTwoPi).
Proof.
  intros Hx Habove Hbelow.
  destruct (beyond_pi_below_8 x false m e Hx Habove Hbelow) as [Hd Hshape].
  destruct (mantissa_sum_small m e Hd Hshape) as [Hez Hsmall].
  unfold SFsub. cbn [cond_Zopp]. now apply binary_normalize_withinPi.
Qed.

Lemma SFadd_withinPi (x : float) m e :
  Prim2SF x = S754_finite true m e ->
  SFltb sfPi (S754_finite false m e) = true ->
  SFltb (S754_finite false m e) sfEight
  = true ->
  withinPi (SFadd prec emax (S754_finite true m e) sfTwoPi).
Proof.
  intros Hx Habove Hbelow.
  destruct (beyond_pi_below_8 x true m e Hx Habove Hbelow) as [Hd Hshape].
  destruct (mantissa_sum_small m e Hd Hshape) as [Hez Hsmall].
  unfold SFadd. cbn [cond_Zopp]. apply binary_normalize_withinPi; [easy|].
  rewrite <- Z.abs_opp.
  match goal with |- Z.abs ?a * _ < _ =>
    match type of Hsmall with Z.abs ?b * _ < _ =>
      replace a with b by lia end end.
  exact Hsmall.
Qed.

Lemma above_shape (x : spec_float) :
  SFltb sfPi x = true -> SFltb x sfEight = true ->
  exists m e, x = S754_finite false m e.
Proof.
  destruct x as [s|s| |s m e]; unfold SFltb, SFcompare; try discriminate.
  - destruct s; discriminate.
  - destruct s; [discriminate|]. intros _ _. now exists m, e.
Qed.

Lemma below_shape (x : spec_float) :
  SFltb x sfMinusPi = true ->
  SFltb (S754_finite true eightMantissa (-49)) x = true ->
  exists m e,
    x = S754_finite true m e
    /\ SFltb sfPi (S754_finite false m e) = true
    /\ SFltb (S754_finite false m e) sfEight = true.
Proof.
  intros Hbelow Habove.
  destruct x as [s|s| |s m e].
  - destruct s; discriminate Hbelow.
  - destruct s; [discriminate Habove|discriminate Hbelow].
  - discriminate Hbelow.
  - destruct s; [|discriminate Hbelow]. exists m, e.
    split; [reflexivity|]. unfold SFltb.
    rewrite <- (SFcompare_opp (S754_finite false m e) sfPi).
    rewrite <- (SFcompare_opp sfEight (S754_finite false m e)).
    split; [exact Hbelow|exact Habove].
Qed.
End WithinATurn.

Lemma SFleb_of_not_SFltb (a b : spec_float) :
  SFltb b a = false -> a <> S754_nan -> b <> S754_nan -> SFleb a b = true.
Proof.
  unfold SFltb, SFleb. rewrite (SFcompare_antisym b a).
  intros Hnot Ha Hb.
  destruct (SFcompare b a) as [[]|] eqn:Hcmp; try easy.
  destruct a as [sa|sa| |sa ma ea], b as [sb|sb| |sb mb eb]; easy.
Qed.

Lemma SFltb_not_nan (a b : spec_float) :
  SFltb a b = true -> a <> S754_nan /\ b <> S754_nan.
Proof.
  destruct a as [sa|sa| |sa ma ea], b as [sb|sb| |sb mb eb]; easy.
Qed.

Lemma withinPi_float (r : float) :
  withinPi 7074237752028440 (Prim2SF r) ->
  gt r Math_PI = false /\ (r <? - Math_PI)%float = false
  /\ (- Math_PI <=? r)%float = true /\ (r <=? Math_PI)%float = true.
Proof.
  unfold withinPi, gt. rewrite !ltb_spec, !leb_spec.
  change (Prim2SF Math_PI) with (S754_finite false 7074237752028440 (-51)).
  change (Prim2SF (- Math_PI))
    with (S754_finite true 7074237752028440 (-51)).
  intros (Hle & Hge & Hnum).
  split; [exact Hle|]. split; [exact Hge|].
  split; now apply SFleb_of_not_SFltb.
Qed.

Lemma pi_mantissa :
  2 ^ 52 < Z.pos 7074237752028440 < 2 ^ 53
  /\ 2 ^ 54 < 3 * Z.pos 7074237752028440
  /\ Z.pos 4503599627370496 = 2 ^ 52.
Proof. split; [split; reflexivity|split; reflexivity]. Qed.

Lemma wrapDown_once (angle : float) (fuel : nat) :
  gt angle Math_PI = true -> (angle <? 8)%float = true ->
  withinPi 7074237752028440 (Prim2SF (angle - 2 * Math_PI))
  /\ wrapDown (S fuel) angle = Some (angle - 2 * Math_PI)%float.
Proof.
  intros Habove Hbelow.
  destruct pi_mantissa as (Hpi & Hthree & Height).
  assert (withinPi 7074237752028440 (Prim2SF (angle - 2 * Math_PI)))
    as Hrange.
  { rewrite FloatAxioms.sub_spec.
    change (Prim2SF (2 * Math_PI))
      with (S754_finite false 7074237752028440 (-50)).
    unfold gt in Habove. rewrite ltb_spec in Habove, Hbelow.
    change (Prim2SF Math_PI)
      with (S754_finite false 7074237752028440 (-51)) in Habove.
    change (Prim2SF 8)
      with (S754_finite false 4503599627370496 (-49)) in Hbelow.
    destruct (above_shape 7074237752028440 4503599627370496 _ Habove Hbelow)
      as (m & e & Hx).
    rewrite Hx in *.
    exact (SFsub_withinPi 7074237752028440 Hpi Hthree
             4503599627370496 Height angle m e Hx Habove Hbelow). }
  split; [exact Hrange|].
  cbn [wrapDown]. rewrite Habove. apply wrapDown_in_range.
  now apply withinPi_float.
Qed.

Lemma wrapUp_once (angle : float) (fuel : nat) :
  (angle <? - Math_PI)%float = true -> (-8 <? angle)%float = true ->
  withinPi 7074237752028440 (Prim2SF (angle + 2 * Math_PI))
  /\ wrapUp (S fuel) angle = Some (angle + 2 * Math_PI)%float.
Proof.
  intros Hbelow Habove.
  destruct pi_mantissa as (Hpi & Hthree & Height).
  assert (withinPi 7074237752028440 (Prim2SF (angle + 2 * Math_PI)))
    as Hrange.
  { rewrite FloatAxioms.add_spec.
    change (Prim2SF (2 * Math_PI))
      with (S754_finite false 7074237752028440 (-50)).
    rewrite ltb_spec in Habove, Hbelow.
    change (Prim2SF (- Math_PI))
      with (S754_finite true 7074237752028440 (-51)) in Hbelow.
    change (Prim2SF (-8))
      with (S754_finite true 4503599627370496 (-49)) in Habove.
    destruct (below_shape 7074237752028440 4503599627370496 _ Hbelow Habove)
      as (m & e & Hx & Hfar & Hnear).
    rewrite Hx.
    exact (SFadd_withinPi 7074237752028440 Hpi Hthree
             4503599627370496 Height angle m e Hx Hfar Hnear). }
  split; [exact Hrange|].
  cbn [wrapUp]. rewrite Hbelow. apply wrapUp_in_range.
  now apply withinPi_float.
Qed.

(** X20. Less than 8 radians from zero [normalizeAngle] is right: for
    every angle strictly between -8 and 8 it returns after at most one
    iteration, the result lies between [-Math.PI] and [Math.PI], bounds
    included, and it is the angle itself, the angle minus [2 * Math.PI]
    or the angle plus [2 * Math.PI]. *)
Theorem normalizeAngle_within_a_turn (angle : float) (fuel : nat) :
  (-8 <? angle)%float = true -> (angle <? 8)%float = true ->
  exists normalized,
    normalizeAngle (S fuel) angle = Some normalized
    /\ (- Math_PI <=? normalized)%float = true
    /\ (normalized <=? Math_PI)%float = true
    /\ normalized
       = (if gt angle Math_PI then angle - 2 * Math_PI
          else if angle <? - Math_PI then angle + 2 * Math_PI
               else angle)%float.
Proof.
  intros Hlow Hhigh. unfold normalizeAngle.
  destruct (gt angle Math_PI) eqn:Habove.
  - destruct (wrapDown_once angle fuel Habove Hhigh) as (Hrange & Hrun).
    apply withinPi_float in Hrange as (_ & Hge & Hlo & Hhi).
    exists (angle - 2 * Math_PI)%float. rewrite Hrun. cbn [mbind option_bind].
    rewrite wrapUp_in_range by exact Hge. easy.
  - rewrite wrapDown_in_range by exact Habove. cbn [mbind option_bind].
    destruct (angle <? - Math_PI)%float eqn:Hbelow.
    + destruct (wrapUp_once angle fuel Hbelow Hlow) as (Hrange & Hrun).
      apply withinPi_float in Hrange as (_ & _ & Hlo & Hhi).
      exists (angle + 2 * Math_PI)%float. now rewrite Hrun.
    + exists angle. rewrite wrapUp_in_range by exact Hbelow.
      split; [reflexivity|].
      rewrite ltb_spec in Hhigh. apply SFltb_not_nan in Hhigh as [Hnum _].
      unfold gt in Habove. rewrite ltb_spec in Habove, Hbelow.
      rewrite !leb_spec.
      split; [|split; [|reflexivity]]; apply SFleb_of_not_SFltb; try easy.
Qed.

Lemma normalizeAngle_within_a_turn_witness :
  exists normalized,
    normalizeAngle 1 (-4.5) = Some normalized
    /\ (- Math_PI <=? normalized)%float = true
    /\ (normalized <=? Math_PI)%float = true
    /\ normalized
       = (if gt (-4.5) Math_PI then -4.5 - 2 * Math_PI
          else if -4.5 <? - Math_PI then -4.5 + 2 * Math_PI
               else -4.5)%float.
Proof.
  apply (normalizeAngle_within_a_turn (-4.5) 0); reflexivity.
Defined.

(** *** The readiness test *)

(** X21. The readiness test of [detectWrist] never looks at the video:
    [!readyState] is a boolean and [HAVE_ENOUGH_DATA] a number, so the
    comparison is false and the test only asks for a model. *)
Theorem readiness_test_ignores_video (readyState model : JsValue)
  (HAVE_ENOUGH_DATA : float) :
  notReady readyState (JsNumber HAVE_ENOUGH_DATA) model
  = negb (ToBoolean model).
Proof. unfold notReady. cbn [strictEquals]. apply orb_false_l. Qed.

(** *** Smoothing *)

Lemma smoothOver_tags fuel count positions i smoothed totalWeight result w :
  smoothOver fuel count i positions smoothed totalWeight = Some (result, w) ->
  p_confidence result = p_confidence smoothed
  /\ p_orientation result = p_orientation smoothed.
Proof.
  revert i smoothed totalWeight.
  induction positions as [|pos rest IH]; intros i smoothed totalWeight Hrun.
  - now injection Hrun as <- <-.
  - cbn [smoothOver] in Hrun.
    destruct (normalizeAngle fuel _) as [angleDiff|]; [|easy].
    cbn [mbind option_bind] in Hrun. now apply IH in Hrun.
Qed.

Lemma getSmoothedPosition_tags fuel history current smoothed :
  getSmoothedPosition fuel history current = Some smoothed ->
  p_confidence smoothed = p_confidence current
  /\ p_orientation smoothed = p_orientation current.
Proof.
  unfold getSmoothedPosition.
  destruct (Z.of_nat (length history) <? 2); [now intros [= <-]|].
  destruct (smoothOver _ _ _ _ _ _) as [[result w]|] eqn:Hrun; [|easy].
  apply smoothOver_tags in Hrun as [Hc Ho]. cbn [p_confidence p_orientation] in *.
  cbn [mbind option_bind].
  destruct (gt w 0); [|now intros [= <-]].
  destruct (normalizeAngle fuel _) as [rotation|]; [|easy].
  cbn [mbind option_bind]. now intros [= <-].
Qed.

(** *** Numbers that are neither [NaN] nor infinite *)

Lemma is_finite_spec (v : float) :
  is_finite v = true ->
  (exists s, Prim2SF v = S754_zero s)
  \/ (exists s m e, Prim2SF v = S754_finite s m e).
Proof.
  unfold is_finite, is_infinity, is_nan.
  rewrite !FloatAxioms.eqb_spec, abs_spec.
  change (Prim2SF infinity) with (S754_infinity false).
  destruct (Prim2SF v) as [s|s| |s m e]; cbn; try easy.
  - intros _. left. now exists s.
  - now rewrite orb_true_r.
  - intros _. right. now exists s, m, e.
Qed.

(** A term of weight zero adds nothing. *)
Lemma add_mul_zero (v : float) :
  is_finite v = true -> (0 + v * 0)%float = 0%float.
Proof.
  intros Hv. apply Prim2SF_inj.
  rewrite FloatAxioms.add_spec, mul_spec.
  change (Prim2SF 0) with (S754_zero false).
  destruct (is_finite_spec v Hv) as [[s ->]|(s & m & e & ->)];
    now destruct s.
Qed.

Lemma sub_zero (v : float) : is_finite v = true -> (v - 0)%float = v.
Proof.
  intros Hv. apply Prim2SF_inj. rewrite FloatAxioms.sub_spec.
  change (Prim2SF 0) with (S754_zero false).
  destruct (is_finite_spec v Hv) as [[s ->]|(s & m & e & ->)];
    [now destruct s|reflexivity].
Qed.

(** The recency weights of a history of at most five positions vanish
    with a confidence of zero. *)
Lemma weight_zero (count i : Z) :
  0 <= i < count -> count <= 5 ->
  (fromZ (i + 1) / fromZ count * 0)%float = 0%float.
Proof.
  intros Hi Hcount.
  assert (i = 0 \/ i = 1 \/ i = 2 \/ i = 3 \/ i = 4) as Hcases by lia.
  assert (count = 1 \/ count = 2 \/ count = 3 \/ count = 4 \/ count = 5)
    as Hcounts by lia.
  destruct Hcases as [-> |[-> |[-> |[-> | ->]]]];
    destruct Hcounts as [-> |[-> |[-> |[-> | ->]]]];
    try lia; reflexivity.
Qed.

Lemma is_finite_shape (v : float) :
  (exists s, Prim2SF v = S754_zero s)
  \/ (exists s m e, Prim2SF v = S754_finite s m e) ->
  is_finite v = true.
Proof.
  unfold is_finite, is_infinity, is_nan.
  rewrite !FloatAxioms.eqb_spec, abs_spec.
  change (Prim2SF infinity) with (S754_infinity false).
  intros [[s ->]|(s & m & e & ->)]; unfold SFeqb, SFabs, SFcompare.
  - reflexivity.
  - rewrite Z.compare_refl.
    change (PosDef.Pos.compare_cont Eq m m) with (Pos.compare m m).
    rewrite Pos.compare_refl. now destruct s.
Qed.

(** A number between two finite numbers is finite. *)
Lemma between_finite (v lo hi : float) sl ml el sh mh eh :
  Prim2SF lo = S754_finite sl ml el -> Prim2SF hi = S754_finite sh mh eh ->
  (lo <=? v)%float = true -> (v <=? hi)%float = true ->
  is_finite v = true.
Proof.
  rewrite !leb_spec. intros -> -> Hlo Hhi. apply is_finite_shape.
  destruct (Prim2SF v) as [s|s| |s m e].
  - left. now exists s.
  - exfalso. destruct s; [now destruct sl|now destruct sh].
  - discriminate Hhi.
  - right. now exists s, m, e.
Qed.

Lemma normalizeAngle_turn_finite (angle : float) (fuel : nat) :
  (-8 <? angle)%float = true -> (angle <? 8)%float = true ->
  is_finite angle = true
  /\ exists normalized,
       normalizeAngle (S fuel) angle = Some normalized
       /\ is_finite normalized = true.
Proof.
  intros Hlow Hhigh.
  assert (is_finite angle = true) as Hfinite.
  { apply (between_finite angle (-8) 8 true 4503599627370496 (-49)
                          false 4503599627370496 (-49));
      [reflexivity|reflexivity|now apply ltb_leb|now apply ltb_leb]. }
  split; [exact Hfinite|].
  assert (forall r, withinPi 7074237752028440 (Prim2SF r) ->
            is_finite r = true) as Hwithin.
  { intros r (_ & _ & Hlo & Hhi)%withinPi_float.
    now apply (between_finite r (- Math_PI) Math_PI
                 true 7074237752028440 (-51) false 7074237752028440 (-51)). }
  unfold normalizeAngle.
  destruct (gt angle Math_PI) eqn:Habove.
  - destruct (wrapDown_once angle fuel Habove Hhigh) as (Hrange & Hrun).
    exists (angle - 2 * Math_PI)%float. rewrite Hrun. cbn [mbind option_bind].
    split; [|now apply Hwithin].
    apply wrapUp_in_range. now apply withinPi_float.
  - rewrite wrapDown_in_range by exact Habove. cbn [mbind option_bind].
    destruct (angle <? - Math_PI)%float eqn:Hbelow.
    + destruct (wrapUp_once angle fuel Hbelow Hlow) as (Hrange & Hrun).
      exists (angle + 2 * Math_PI)%float. split; [exact Hrun|].
      now apply Hwithin.
    + exists angle. split; [now apply wrapUp_in_range|exact Hfinite].
Qed.

Lemma smoothOver_zero_confidence fuel count positions i confidence orientation :
  0 <= i -> i + Z.of_nat (length positions) = count -> count <= 5 ->
  Forall (fun pos => p_confidence pos = 0%float /\ still pos) positions ->
  smoothOver (S fuel) count i positions
    (mkPosition 0 0 0 0 0 confidence orientation) 0
  = Some (mkPosition 0 0 0 0 0 confidence orientation, 0%float).
Proof.
  intros Hi Hcount Hmax Hall. revert i Hi Hcount.
  induction Hall as [|pos rest [Hconf Hstill] _ IH]; intros i Hi Hcount;
    [reflexivity|].
  cbn [length] in Hcount. cbn [smoothOver].
  destruct Hstill as (Hx & Hy & Hw & Hh & Hlow & Hhigh).
  destruct (normalizeAngle_turn_finite (p_rotation pos) fuel Hlow Hhigh)
    as (Hr & angleDiff & Hrun & Hdiff).
  cbn [p_x p_y p_width p_height p_rotation p_confidence p_orientation].
  rewrite Hconf, weight_zero by lia.
  rewrite sub_zero by easy. rewrite Hrun. cbn [mbind option_bind].
  rewrite !add_mul_zero by easy.
  change (0 + 0)%float with 0%float.
  apply IH; lia.
Qed.

(** X22. A history of two to five positions that all have confidence 0
    has total weight 0: if their coordinates are finite and their
    rotations lie strictly between -8 and 8, the smoothed position is at
    the origin with size and rotation 0, and keeps the confidence and the
    orientation of the current position. *)
Theorem zero_confidence_collapses_to_origin (fuel : nat)
  (lastFewPositions : list Position) (currentPosition : Position) :
  2 <= Z.of_nat (length lastFewPositions) <= POSITION_HISTORY_LENGTH ->
  Forall (fun pos => p_confidence pos = 0%float /\ still pos)
         lastFewPositions ->
  getSmoothedPosition (S fuel) lastFewPositions currentPosition
  = Some (mkPosition 0 0 0 0 0 (p_confidence currentPosition)
                     (p_orientation currentPosition)).
Proof.
  intros [Hmin Hmax] Hall. unfold getSmoothedPosition.
  destruct (Z.ltb_spec (Z.of_nat (length lastFewPositions)) 2); [lia|].
  rewrite smoothOver_zero_confidence; [reflexivity|lia|lia| |easy].
  unfold POSITION_HISTORY_LENGTH in Hmax. lia.
Qed.

Lemma zero_confidence_collapses_to_origin_witness :
  getSmoothedPosition 1
    [mkPosition 320 240 90 70 (-4.5) 0 "up";
     mkPosition 322 241 90 70 1 0 "up"]
    (mkPosition 322 241 90 70 1 0 "up")
  = Some (mkPosition 0 0 0 0 0 0 "up").
Proof.
  apply (zero_confidence_collapses_to_origin 0
           [mkPosition 320 240 90 70 (-4.5) 0 "up";
            mkPosition 322 241 90 70 1 0 "up"]
           (mkPosition 322 241 90 70 1 0 "up")).
  - unfold POSITION_HISTORY_LENGTH. cbn. lia.
  - repeat constructor.
Defined.

(** X23. The watch is never flipped and the wrist region is never drawn
    green: the orientation [determinePalmDirection] gives is up or down,
    smoothing passes it on unchanged, and the drawing code compares it
    with palm-up and palm-down. *)
Theorem palm_direction_never_flips (landmarks : list (list float))
  (fuel : nat) (lastFewPositions : list Position)
  (currentPosition lastWristPosition : Position)
  (selectedHand : option string) :
  determinePalmDirection landmarks = Some (p_orientation currentPosition) ->
  getSmoothedPosition fuel lastFewPositions currentPosition
  = Some lastWristPosition ->
  shouldFlip selectedHand (p_orientation lastWristPosition) = false
  /\ strokeStyle (p_orientation currentPosition) = "#f59e0b".
Proof.
  intros Hdirection Hsmoothed.
  apply getSmoothedPosition_tags in Hsmoothed as [_ ->].
  destruct (determinePalmDirection_Some _ _ Hdirection) as [_ [-> | ->]].
  - unfold shouldFlip. cbn. now rewrite !andb_false_r.
  - unfold shouldFlip. cbn. now rewrite !andb_false_r.
Qed.

Lemma palm_direction_never_flips_witness :
  shouldFlip (Some "right")
    (p_orientation (mkPosition 320 240 90 70 1 1 "down")) = false
  /\ strokeStyle (p_orientation (mkPosition 320 240 90 70 1 1 "down"))
     = "#f59e0b".
Proof.
  apply (palm_direction_never_flips
           (replicate 18 [0%float; 0%float; 0%float]) 0
           [mkPosition 320 240 90 70 1 1 "down"]
           (mkPosition 320 240 90 70 1 1 "down")
           (mkPosition 320 240 90 70 1 1 "down"));
    reflexivity.
Defined.
